(** * treemux: the route tree, its insertion and its matcher

    A shallow embedding of [tree.go] (handler table, node, [addPath],
    [splitCommonPrefix], [search]), of [Group.Handle] from [group.go] and of
    the parameter accessors, followed by the properties proved about them.

    Conventions of the embedding
    - a Go [string] is a [string] (a sequence of bytes, [ascii]);
    - a nil-able callback [HandlerFunc] is an [option]: [None] is Go's nil;
    - a nil slice and an empty slice are both the empty list, except for
      [leafWildcardNames] and the [wildcards] argument, whose nil-ness the
      code tests: those are [option (list string)];
    - a panic is the result [Panic k]; nothing of the tree survives it;
    - pointers into the tree are owned by their parent, so a node is a
      value and an in-place update of a child rebuilds its parent;
    - a [range] over a string visits the first byte of every UTF-8
      sequence, as Go's decoder delimits them ([runeWidth]). *)

From Stdlib Require Import Ascii String.
From stdpp Require Import base option list strings gmap.

Local Open Scope string_scope.
Local Open Scope list_scope.

Module Treemux.

(** ** Results of fallible code *)

Inductive panic :=
  | AlreadyHandles
  | WildcardLengthDiffers
  | AmbiguousWildcards
  | CatchAllNameMismatch
  | SlashAfterCatchAll
  | RouteMismatch
  | EmptyPathMapped
  | MustStartWithSlash
  | URLParsingError
  | IndexOutOfRange
  | NilDereference.

Inductive res (A : Type) :=
  | Ok (a : A)
  | Panic (k : panic)
  | OutOfFuel.
Arguments Ok {A} a.
Arguments Panic {A} k.
Arguments OutOfFuel {A}.

Definition bind {A B} (x : res A) (f : A -> res B) : res B :=
  match x with
  | Ok a => f a
  | Panic k => Panic k
  | OutOfFuel => OutOfFuel
  end.

Notation "x <- e1 ;; e2" := (bind e1 (fun x => e2))
  (at level 100, e1 at next level, right associativity).

(** [x != nil] for a nil-able value. *)
Definition notNil {A} (x : option A) : bool :=
  match x with Some _ => true | None => false end.

Definition is_ok {A} (x : res A) : bool :=
  match x with Ok _ => true | _ => false end.

(** ** Go string primitives *)

(** [s[k:]] for [k <= len(s)]. *)
Fixpoint str_drop (k : nat) (s : string) : string :=
  match k, s with
  | O, _ => s
  | S k', String _ s' => str_drop k' s'
  | S _, EmptyString => EmptyString
  end.

(** [s[:k]] for [k <= len(s)]. *)
Fixpoint str_take (k : nat) (s : string) : string :=
  match k, s with
  | O, _ => EmptyString
  | S k', String c s' => String c (str_take k' s')
  | S _, EmptyString => EmptyString
  end.

(** [strings.IndexByte]: [None] is Go's -1. *)
Fixpoint IndexByte (s : string) (c : ascii) : option nat :=
  match s with
  | EmptyString => None
  | String d s' =>
      if Ascii.eqb d c then Some O
      else match IndexByte s' c with Some k => Some (S k) | None => None end
  end.

(** [strings.HasPrefix s pre]. *)
Fixpoint HasPrefix (s pre : string) {struct pre} : bool :=
  match pre, s with
  | EmptyString, _ => true
  | String c pre', String d s' => Ascii.eqb c d && HasPrefix s' pre'
  | String _ _, EmptyString => false
  end.

Definition slash : ascii := "/"%char.
Definition star : ascii := "*"%char.
Definition colon : ascii := ":"%char.
Definition backslash : ascii := "\"%char.

(** ** Handler table *)

Section Model.

(** The callbacks; the tree never calls them. *)
Context {H : Type}.

(** [url.PathUnescape] of the Go library: [None] is a decoding error. *)
Variable PathUnescape : string -> option string.

(** [url.ParseRequestURI] followed by [URL.String]: [None] is a parse error. *)
Variable RequestURIString : string -> option string.

Definition HandlerFunc : Type := option H.

Record handlerMap := mkHandlerMap {
  hm_get : HandlerFunc;
  hm_post : HandlerFunc;
  hm_put : HandlerFunc;
  hm_delete : HandlerFunc;
  hm_head : HandlerFunc;
  hm_options : HandlerFunc;
  hm_patch : HandlerFunc;
  implicitHead : bool;
  hm_m : option (gmap string HandlerFunc)
}.

Definition newHandlerMap : handlerMap :=
  mkHandlerMap None None None None None None None false None.

Definition MethodGet := "GET".
Definition MethodPost := "POST".
Definition MethodPut := "PUT".
Definition MethodDelete := "DELETE".
Definition MethodHead := "HEAD".
Definition MethodOptions := "OPTIONS".
Definition MethodPatch := "PATCH".

Definition hmGet (h : handlerMap) (name : string) : HandlerFunc :=
  if String.eqb name MethodGet then hm_get h
  else if String.eqb name MethodPost then hm_post h
  else if String.eqb name MethodPut then hm_put h
  else if String.eqb name MethodDelete then hm_delete h
  else if String.eqb name MethodHead then hm_head h
  else if String.eqb name MethodOptions then hm_options h
  else if String.eqb name MethodPatch then hm_patch h
  else match hm_m h with
       | Some mm => default None (mm !! name)
       | None => None
       end.

Definition hmSetField (h : handlerMap) (name : string) (handler : HandlerFunc)
  : handlerMap :=
  if String.eqb name MethodGet then
    mkHandlerMap handler (hm_post h) (hm_put h) (hm_delete h) (hm_head h)
      (hm_options h) (hm_patch h) (implicitHead h) (hm_m h)
  else if String.eqb name MethodPost then
    mkHandlerMap (hm_get h) handler (hm_put h) (hm_delete h) (hm_head h)
      (hm_options h) (hm_patch h) (implicitHead h) (hm_m h)
  else if String.eqb name MethodPut then
    mkHandlerMap (hm_get h) (hm_post h) handler (hm_delete h) (hm_head h)
      (hm_options h) (hm_patch h) (implicitHead h) (hm_m h)
  else if String.eqb name MethodDelete then
    mkHandlerMap (hm_get h) (hm_post h) (hm_put h) handler (hm_head h)
      (hm_options h) (hm_patch h) (implicitHead h) (hm_m h)
  else if String.eqb name MethodHead then
    mkHandlerMap (hm_get h) (hm_post h) (hm_put h) (hm_delete h) handler
      (hm_options h) (hm_patch h) (implicitHead h) (hm_m h)
  else if String.eqb name MethodOptions then
    mkHandlerMap (hm_get h) (hm_post h) (hm_put h) (hm_delete h) (hm_head h)
      handler (hm_patch h) (implicitHead h) (hm_m h)
  else if String.eqb name MethodPatch then
    mkHandlerMap (hm_get h) (hm_post h) (hm_put h) (hm_delete h) (hm_head h)
      (hm_options h) handler (implicitHead h) (hm_m h)
  else h.

Definition hmSet (h : handlerMap) (name : string) (handler : HandlerFunc)
  : handlerMap :=
  let h' := hmSetField h name handler in
  mkHandlerMap (hm_get h') (hm_post h') (hm_put h') (hm_delete h')
    (hm_head h') (hm_options h') (hm_patch h') (implicitHead h')
    (Some (<[name := handler]> (default ∅ (hm_m h')))).

Definition setImplicitHead (h : handlerMap) (b : bool) : handlerMap :=
  mkHandlerMap (hm_get h) (hm_post h) (hm_put h) (hm_delete h) (hm_head h)
    (hm_options h) (hm_patch h) b (hm_m h) .

(** [handlerMap.Map]: the map behind the table, [None] until the first
    [Set]. *)
Definition hmMap (h : handlerMap) : option (gmap string HandlerFunc) := hm_m h.

(** ** Nodes *)

#[local] Unset Elimination Schemes.
Inductive node := mkNode {
  route : string;
  path : string;
  priority : nat;
  staticIndices : list ascii;
  staticChild : list node;
  wildcardChild : option node;
  catchAllChild : option node;
  addSlash : bool;
  isCatchAll : bool;
  nodeHandlerMap : option handlerMap;
  leafWildcardNames : option (list string)
}.
#[local] Set Elimination Schemes.

(** Induction over a node and the nodes below it. *)
Section NodeInd.
Variable P : node -> Prop.
Hypothesis step : forall r p pr si sc wc cc sl ica hm ln,
    Forall P sc ->
    from_option P True wc ->
    from_option P True cc ->
    P (mkNode r p pr si sc wc cc sl ica hm ln).

Fixpoint node_ind (n : node) : P n :=
    match n with
    | mkNode r p pr si sc wc cc sl ica hm ln =>
        step r p pr si sc wc cc sl ica hm ln
          ((fix children (l : list node) : Forall P l :=
              match l with
              | nil => Forall_nil_2 P
              | c :: l' => Forall_cons_2 P c l' (node_ind c) (children l')
              end) sc)
          (match wc as o return from_option P True o with
           | Some w => node_ind w
           | None => I
           end)
          (match cc as o return from_option P True o with
           | Some c => node_ind c
           | None => I
           end)
    end.
End NodeInd.

(** [&node{path: p}]: every other field is Go's zero value. *)
Definition newNode (p : string) : node :=
  mkNode "" p 0 [] [] None None false false None None.

Record Param := mkParam { Name : string; Value : string }.

Definition names_of (n : node) : list string :=
  default [] (leafWildcardNames n).

(** [n.leafWildcardNames[len(n.leafWildcardNames)-1-i]]. *)
Definition paramName (n : node) (i : nat) : res string :=
  let names := names_of n in
  if decide (i < length names) then
    match names !! (length names - 1 - i) with
    | Some s => Ok s
    | None => Panic IndexOutOfRange
    end
  else Panic IndexOutOfRange.

(** ** The matcher *)

Record result := mkResult {
  found : option node;
  handler : HandlerFunc;
  params : list Param
}.

Definition noMatch : result := mkResult None None [].

(** [url.PathUnescape(s)], the raw text on a decoding error. *)
Definition unescapeOrRaw (s : string) : string :=
  match PathUnescape s with
  | Some u => u
  | None => s
  end.

(** The catch-all step of [search] and its final [return]: [cur] holds
    [found], [handler] and [params] as the wildcard step left them. *)
Definition searchCatchAll (n : node) (method pth : string) (cur : result)
  : res result :=
  match catchAllChild n with
  | None => Ok cur
  | Some catchAll =>
      match nodeHandlerMap catchAll with
      | None => Panic NilDereference
      | Some hm =>
          let handler := hmGet hm method in
          if notNil handler || negb (notNil (found cur)) then
            name <- paramName catchAll 0 ;;
            Ok (mkResult (Some catchAll) handler
                  [mkParam name (unescapeOrRaw pth)])
          else Ok (mkResult (found cur) handler (params cur))
      end
  end.

(** The loop over [staticIndices]: at the first index equal to [c] the
    body [f] runs on the child in that slot and the loop ends; [missing] is
    the outcome when that slot of [staticChild] does not exist, [none] the
    outcome when no index equals [c]. *)
Definition withStaticChild {A} (c : ascii) (f : node -> A) (missing none : A)
  : list node -> list ascii -> A :=
  fix scan (children : list node) (indices : list ascii) : A :=
    match children, indices with
    | _, [] => none
    | [], _ :: _ =>
        if existsb (fun staticIndex => Ascii.eqb staticIndex c) indices
        then missing else none
    | child :: children', staticIndex :: indices' =>
        if Ascii.eqb staticIndex c then f child
        else scan children' indices'
    end.

Fixpoint search (n : node) (method pth : string) {struct n} : res result :=
  match pth with
  | EmptyString =>
      match nodeHandlerMap n with
      | None => Ok noMatch
      | Some hm => Ok (mkResult (Some n) (hmGet hm method) [])
      end
  | String firstChar _ =>
      let pathLen := String.length pth in
      st <- withStaticChild firstChar
              (fun child =>
                 let childPathLen := String.length (path child) in
                 if (childPathLen <=? pathLen)%nat
                    && String.eqb (path child) (str_take childPathLen pth)
                 then search child method (str_drop childPathLen pth)
                 else Ok noMatch)
              (Panic IndexOutOfRange) (Ok noMatch)
              (staticChild n) (staticIndices n) ;;
      if notNil (handler st) then Ok st
      else
        match wildcardChild n with
        | None => searchCatchAll n method pth st
        | Some wildcard =>
            let nextSlash := default pathLen (IndexByte pth slash) in
            let thisToken := str_take nextSlash pth in
            let nextToken := str_drop nextSlash pth in
            if (0 <? String.length thisToken)%nat then
              wc <- search wildcard method nextToken ;;
              if notNil (handler wc)
                 || (negb (notNil (found st)) && notNil (found wc))
              then
                match found wc with
                | None => Panic NilDereference
                | Some wcNode =>
                    name <- paramName wcNode (length (params wc)) ;;
                    let wcParams :=
                      params wc ++ [mkParam name (unescapeOrRaw thisToken)] in
                    if notNil (handler wc)
                    then Ok (mkResult (Some wcNode) (handler wc) wcParams)
                    else searchCatchAll n method pth
                           (mkResult (Some wcNode) (handler wc) wcParams)
                end
              else searchCatchAll n method pth st
            else searchCatchAll n method pth st
        end
  end.

(** The request path segment a wildcard captures, up to the next slash,
    and what follows it. *)
Definition segmentOf (pth : string) : string :=
  str_take (default (String.length pth) (IndexByte pth slash)) pth.

Definition afterSegment (pth : string) : string :=
  str_drop (default (String.length pth) (IndexByte pth slash)) pth.

(** [search] on a non-empty path, after its loop over the static children
    left [st]: the same code as in [search], stated apart so that the loop
    and what follows it can be reasoned about one after the other. *)
Definition afterStatic (n : node) (method pth : string) (st : result)
  : res result :=
  if notNil (handler st) then Ok st
  else
    match wildcardChild n with
    | None => searchCatchAll n method pth st
    | Some wildcard =>
        if (0 <? String.length (segmentOf pth))%nat then
          wc <- search wildcard method (afterSegment pth) ;;
          if notNil (handler wc)
             || (negb (notNil (found st)) && notNil (found wc))
          then
            match found wc with
            | None => Panic NilDereference
            | Some wcNode =>
                name <- paramName wcNode (length (params wc)) ;;
                let wcParams :=
                  params wc ++ [mkParam name (unescapeOrRaw (segmentOf pth))] in
                if notNil (handler wc)
                then Ok (mkResult (Some wcNode) (handler wc) wcParams)
                else searchCatchAll n method pth
                       (mkResult (Some wcNode) (handler wc) wcParams)
            end
          else searchCatchAll n method pth st
        else searchCatchAll n method pth st
    end.

(** ** Insertion *)

(** In-place assignments to the fields of a node. *)
Definition setRoute (n : node) (r : string) : node :=
  mkNode r (path n) (priority n) (staticIndices n) (staticChild n)
    (wildcardChild n) (catchAllChild n) (addSlash n) (isCatchAll n)
    (nodeHandlerMap n) (leafWildcardNames n) .
Definition setPath (n : node) (p : string) : node :=
  mkNode (route n) p (priority n) (staticIndices n) (staticChild n)
    (wildcardChild n) (catchAllChild n) (addSlash n) (isCatchAll n)
    (nodeHandlerMap n) (leafWildcardNames n) .
Definition setPriority (n : node) (pr : nat) : node :=
  mkNode (route n) (path n) pr (staticIndices n) (staticChild n)
    (wildcardChild n) (catchAllChild n) (addSlash n) (isCatchAll n)
    (nodeHandlerMap n) (leafWildcardNames n) .
Definition setStatic (n : node) (si : list ascii) (sc : list node) : node :=
  mkNode (route n) (path n) (priority n) si sc (wildcardChild n)
    (catchAllChild n) (addSlash n) (isCatchAll n) (nodeHandlerMap n)
    (leafWildcardNames n) .
Definition setWildcardChild (n : node) (wc : option node) : node :=
  mkNode (route n) (path n) (priority n) (staticIndices n) (staticChild n) wc
    (catchAllChild n) (addSlash n) (isCatchAll n) (nodeHandlerMap n)
    (leafWildcardNames n) .
Definition setCatchAllChild (n : node) (cc : option node) : node :=
  mkNode (route n) (path n) (priority n) (staticIndices n) (staticChild n)
    (wildcardChild n) cc (addSlash n) (isCatchAll n) (nodeHandlerMap n)
    (leafWildcardNames n) .
Definition setAddSlash (n : node) (sl : bool) : node :=
  mkNode (route n) (path n) (priority n) (staticIndices n) (staticChild n)
    (wildcardChild n) (catchAllChild n) sl (isCatchAll n) (nodeHandlerMap n)
    (leafWildcardNames n) .
Definition setHandlerMap (n : node) (hm : option handlerMap) : node :=
  mkNode (route n) (path n) (priority n) (staticIndices n) (staticChild n)
    (wildcardChild n) (catchAllChild n) (addSlash n) (isCatchAll n) hm
    (leafWildcardNames n) .
Definition setLeafWildcardNames (n : node) (ln : option (list string)) : node :=
  mkNode (route n) (path n) (priority n) (staticIndices n) (staticChild n)
    (wildcardChild n) (catchAllChild n) (addSlash n) (isCatchAll n)
    (nodeHandlerMap n) ln.

(** [n.staticChild[i] = c]. *)
Definition setStaticChildAt (n : node) (i : nat) (c : node) : node :=
  setStatic n (staticIndices n) (<[i := c]> (staticChild n)).

(** The loop of [sortStaticChild]: the child at [i] moves towards the front
    while its priority exceeds its left neighbour's; the index it ends at is
    returned with the node. *)
Fixpoint sortStaticChild (n : node) (i : nat) : res (node * nat) :=
  match i with
  | O => Ok (n, O)
  | S j =>
      match staticChild n !! i, staticChild n !! j with
      | Some ci, Some cj =>
          if (priority cj <? priority ci)%nat then
            match staticIndices n !! i, staticIndices n !! j with
            | Some xi, Some xj =>
                sortStaticChild
                  (setStatic n
                     (<[j := xi]> (<[i := xj]> (staticIndices n)))
                     (<[j := ci]> (<[i := cj]> (staticChild n))))
                  j
            | _, _ => Panic IndexOutOfRange
            end
          else Ok (n, i)
      | _, _ => Panic IndexOutOfRange
      end
  end.

Definition setHandler (n : node) (verb : string) (handler : HandlerFunc)
    (implicit : bool) : res node :=
  let hm := match nodeHandlerMap n with
            | Some hm => hm
            | None => newHandlerMap
            end in
  if notNil (hmGet hm verb)
     && (negb (String.eqb verb MethodHead) || negb (implicitHead hm))
  then Panic AlreadyHandles
  else
    let hm1 := hmSet hm verb handler in
    let hm2 := if String.eqb verb MethodHead
               then setImplicitHead hm1 implicit else hm1 in
    Ok (setHandlerMap n (Some hm2)).

(** The width in bytes of the UTF-8 sequence that starts [s], as Go's
    [range] over a string decodes it: one byte for an ASCII byte and for
    every byte that starts no valid sequence (a stray continuation byte, a
    truncated, overlong or surrogate encoding, a code point above
    U+10FFFF), else the two, three or four bytes of the sequence. *)
Definition byteIn (lo hi : nat) (c : ascii) : bool :=
  (lo <=? nat_of_ascii c)%nat && (nat_of_ascii c <=? hi)%nat.

Definition runeWidth (s : string) : nat :=
  match s with
  | String b0 (String b1 rest) =>
      if byteIn 194 223 b0 then
        if byteIn 128 191 b1 then 2 else 1
      else if byteIn 224 239 b0 then
        if (if byteIn 224 224 b0 then byteIn 160 191 b1
            else if byteIn 237 237 b0 then byteIn 128 159 b1
            else byteIn 128 191 b1)
        then match rest with
             | String b2 _ => if byteIn 128 191 b2 then 3 else 1
             | EmptyString => 1
             end
        else 1
      else if byteIn 240 244 b0 then
        if (if byteIn 240 240 b0 then byteIn 144 191 b1
            else if byteIn 244 244 b0 then byteIn 128 143 b1
            else byteIn 128 191 b1)
        then match rest with
             | String b2 (String b3 _) =>
                 if byteIn 128 191 b2 && byteIn 128 191 b3 then 4 else 1
             | _ => 1
             end
        else 1
      else 1
  | _ => 1
  end.

(** What is left of [path[i:]] one byte further on; [None] once [i] is
    past the end of [path]. *)
Definition tailOpt (s : option string) : option string :=
  match s with
  | Some (String _ s') => Some s'
  | _ => None
  end.

(** The loop [for i = range childNode.path] of [splitCommonPrefix].  The
    range visits the index of the first byte of every UTF-8 sequence of
    [childPath]; [skip] counts the bytes of the current sequence still to
    pass over, [i] is the index reached, [tok] is [path[i:]] and [last] the
    index visited last, which the loop variable keeps when the range is
    exhausted.  At a visited index the loop breaks when [i == len(path)]
    and when the bytes [path[i]] and [childNode.path[i]] differ; [path[i]]
    panics when [i] is past the end of [path]. *)
Fixpoint commonPrefixLoop (childPath : string) (tok : option string)
    (skip i last : nat) : res nat :=
  match childPath with
  | EmptyString => Ok last
  | String c childPath' =>
      match skip with
      | S k => commonPrefixLoop childPath' (tailOpt tok) k (S i) last
      | O =>
          match tok with
          | None => Panic IndexOutOfRange
          | Some EmptyString => Ok i
          | Some (String d _) =>
              if Ascii.eqb d c
              then commonPrefixLoop childPath' (tailOpt tok)
                     (runeWidth childPath - 1) (S i) i
              else Ok i
          end
      end
  end.

(** [splitCommonPrefix]: the node with its child slot updated, the child
    to descend into, and the number of bytes of [tok] consumed. *)
Definition splitCommonPrefix (n : node) (existingNodeIndex : nat) (tok : string)
  : res (node * node * nat) :=
  match staticChild n !! existingNodeIndex with
  | None => Panic IndexOutOfRange
  | Some childNode =>
      if HasPrefix tok (path childNode) then
        Ok (n, childNode, String.length (path childNode))
      else
        i <- commonPrefixLoop (path childNode) (Some tok) 0 0 0 ;;
        let commonPrefix := str_take i tok in
        let childNode' := setPath childNode (str_drop i (path childNode)) in
        match path childNode' with
        | EmptyString => Panic IndexOutOfRange
        | String c0 _ =>
            let newNode :=
              mkNode "" commonPrefix (priority childNode') [c0] [childNode']
                None None false false None None in
            Ok (setStaticChildAt n existingNodeIndex newNode, newNode, i)
        end
  end.

(** Position of the first static index equal to [c]. *)
Fixpoint indexOf (c : ascii) (indices : list ascii) : option nat :=
  match indices with
  | [] => None
  | x :: indices' =>
      if Ascii.eqb c x then Some O
      else match indexOf c indices' with Some k => Some (S k) | None => None end
  end.

(** The comparison loop of the leaf case of [addPath], after the lengths
    were found equal. *)
Fixpoint sameNames (old new : list string) : bool :=
  match old, new with
  | o :: old', w :: new' => String.eqb o w && sameNames old' new'
  | _, _ => true
  end.

(** [append(wildcards, thisToken)], or the one-element slice when nil. *)
Definition appendName (wildcards : option (list string)) (tok : string)
  : list string :=
  match wildcards with
  | None => [tok]
  | Some ws => ws ++ [tok]
  end.

(** [s[1:]]; a panic on the empty string. *)
Definition tail1 (s : string) : res string :=
  match s with
  | EmptyString => Panic IndexOutOfRange
  | String _ s' => Ok s'
  end.

(** The token at the head of a non-empty [pth] whose first byte is [c], and
    where it ends. *)
Definition tokenOf (c : ascii) (pth : string) : string * nat :=
  if Ascii.eqb c slash then ("/", 1)
  else match IndexByte pth slash with
       | None => (pth, String.length pth)
       | Some k => (str_take k pth, k)
       end.

(** The escape step of a static token: the byte the token is indexed by,
    the token without its backslash, and whether a backslash was dropped. *)
Definition unescapeToken (inStaticToken : bool) (c : ascii) (thisToken : string)
  : ascii * string * bool :=
  match thisToken with
  | String t0 (String t1 rest) =>
      if negb inStaticToken && Ascii.eqb t0 backslash
         && (Ascii.eqb t1 star || Ascii.eqb t1 colon || Ascii.eqb t1 backslash)
      then (t1, String t1 rest, true)
      else (c, thisToken, false)
  | _ => (c, thisToken, false)
  end.

(** [addPath].  The Go function returns a pointer to the leaf, which its
    caller then writes to; here the caller's writes are the function
    [onLeaf], applied to the leaf where the Go code returns it, and the
    result is the node with everything below it updated.  [fuel] bounds the
    depth of the recursion. *)
Fixpoint addPath (fuel : nat) (onLeaf : node -> res node) (n : node)
    (pth : string) (wildcards : option (list string)) (inStaticToken : bool)
  : res node :=
  match fuel with
  | O => OutOfFuel
  | S fuel' =>
  match pth with
  | EmptyString =>
      n1 <- match wildcards with
            | None => Ok n
            | Some ws =>
                match leafWildcardNames n with
                | Some old =>
                    if negb (length old =? length ws)%nat
                    then Panic WildcardLengthDiffers
                    else if sameNames old ws then Ok n
                    else Panic AmbiguousWildcards
                | None => Ok (setLeafWildcardNames n (Some ws))
                end
            end ;;
      onLeaf n1
  | String c _ =>
      let nextSlash := IndexByte pth slash in
      let '(thisToken, tokenEnd) := tokenOf c pth in
      let remainingPath := str_drop tokenEnd pth in
      if Ascii.eqb c star && negb inStaticToken then
        let thisToken := str_drop 1 thisToken in
        let catchAll := match catchAllChild n with
                        | Some ca => ca
                        | None => mkNode "" thisToken 0 [] [] None None
                                    false true None None
                        end in
        if negb (String.eqb (str_drop 1 pth) (path catchAll))
        then Panic CatchAllNameMismatch
        else if notNil nextSlash then Panic SlashAfterCatchAll
        else
          let wildcards := appendName wildcards thisToken in
          leaf <- onLeaf (setLeafWildcardNames catchAll (Some wildcards)) ;;
          Ok (setCatchAllChild n (Some leaf))
      else if Ascii.eqb c colon && negb inStaticToken then
        let thisToken := str_drop 1 thisToken in
        let wildcards := appendName wildcards thisToken in
        let wildcard := match wildcardChild n with
                        | Some w => w
                        | None => newNode "wildcard"
                        end in
        w' <- addPath fuel' onLeaf wildcard remainingPath (Some wildcards) false ;;
        Ok (setWildcardChild n (Some w'))
      else
        let '(c, thisToken, unescaped) :=
          unescapeToken inStaticToken c thisToken in
        let inStaticToken := negb (Ascii.eqb c slash) in
        match indexOf c (staticIndices n) with
        | Some i =>
            split <- splitCommonPrefix n i thisToken ;;
            let '(n1, child, prefixSplit) := split in
            let n2 := setStaticChildAt n1 i
                        (setPriority child (S (priority child))) in
            sorted <- sortStaticChild n2 i ;;
            let '(n3, j) := sorted in
            let prefixSplit := if unescaped then S prefixSplit else prefixSplit in
            match staticChild n3 !! j with
            | None => Panic IndexOutOfRange
            | Some child =>
                child' <- addPath fuel' onLeaf child (str_drop prefixSplit pth)
                            wildcards inStaticToken ;;
                Ok (setStaticChildAt n3 j child')
            end
        | None =>
            child' <- addPath fuel' onLeaf (newNode thisToken) remainingPath
                        wildcards inStaticToken ;;
            Ok (setStatic n (staticIndices n ++ [c]) (staticChild n ++ [child']))
        end
  end
  end.

(** ** Registration *)

Definition MiddlewareFunc : Type := HandlerFunc -> HandlerFunc.

(** The loop runs from the last middleware to the first. *)
Definition handlerWithMiddlewares (handler : HandlerFunc)
    (stack : list MiddlewareFunc) : HandlerFunc :=
  foldr (fun mw h => mw h) handler stack.

(** Modelled from the spec: the router type [TreeMux] is declared outside
    the files at hand; these are the fields that [Group.Handle] reads (the
    mutex is left out: registration is sequential here). *)
Record TreeMux := mkTreeMux {
  root : node;
  HeadCanUseGet : bool;
  RedirectTrailingSlash : bool;
  EscapeAddedRoutes : bool
}.

Definition setRoot (t : TreeMux) (r : node) : TreeMux :=
  mkTreeMux r (HeadCanUseGet t) (RedirectTrailingSlash t) (EscapeAddedRoutes t).

(** A group: its path prefix and middleware stack.  Its [mux] pointer is the
    router that [Handle] is given and returns. *)
Record Group := mkGroup {
  groupPath : string;
  stack : list MiddlewareFunc
}.

Definition checkPath (pth : string) : res unit :=
  match pth with
  | String c _ => if negb (Ascii.eqb c slash) then Panic MustStartWithSlash
                  else Ok tt
  | EmptyString => Ok tt
  end.

(** [strings.Replace(s, old, new, -1)] for a non-empty [old]; [skip] counts
    the bytes of a replaced occurrence still to be passed over. *)
Fixpoint replaceFrom (old new : string) (skip : nat) (s : string) : string :=
  match s with
  | EmptyString => EmptyString
  | String c s' =>
      match skip with
      | S k => replaceFrom old new k s'
      | O =>
          if HasPrefix s old
          then new +:+ replaceFrom old new (String.length old - 1) s'
          else String c (replaceFrom old new 0 s')
      end
  end.

Definition Replace (s old new : string) : string := replaceFrom old new 0 s.

Definition unescapeSpecial (s : string) : string :=
  let s := Replace s "/%2A" "/*" in
  let s := Replace s "/%5C:" "/\:" in
  let s := Replace s "/%5C%5C:" "/%5C:" in
  let s := Replace s "/%5C%2A" "/%2A" in
  let s := Replace s "/%5C%5C%2A" "/%5C%2A" in
  s.

(** The last byte of a string. *)
Fixpoint lastByte (s : string) : option ascii :=
  match s with
  | EmptyString => None
  | String c EmptyString => Some c
  | String _ s' => lastByte s'
  end.

(** What the closure [addOne] of [Handle] does to the leaf that [addPath]
    returns. *)
Definition addOneLeaf (t : TreeMux) (method : string) (handler : HandlerFunc)
    (slashFlag : bool) (fullPath : string) (leaf : node) : res node :=
  node1 <- (if String.eqb (route leaf) "" then Ok (setRoute leaf fullPath)
            else if negb (String.eqb (route leaf) fullPath)
                 then Panic RouteMismatch
                 else Ok leaf) ;;
  let node2 := if slashFlag then setAddSlash node1 true else node1 in
  node3 <- setHandler node2 method handler false ;;
  match nodeHandlerMap node3 with
  | None => Panic NilDereference
  | Some hm =>
      if HeadCanUseGet t && String.eqb method MethodGet
         && negb (notNil (hmGet hm MethodHead))
      then setHandler node3 MethodHead handler true
      else Ok node3
  end.

(** The closure [addOne] of [Handle]. *)
Definition addOne (t : TreeMux) (method : string) (handler : HandlerFunc)
    (slashFlag : bool) (fullPath : string) : res TreeMux :=
  p <- tail1 fullPath ;;
  r <- addPath (S (String.length p))
         (addOneLeaf t method handler slashFlag fullPath)
         (root t) p None false ;;
  Ok (setRoot t r).

(** The path under which [Handle] stores a pattern: the trailing slash of a
    pattern longer than one byte is cut when [RedirectTrailingSlash] is set. *)
Definition storedPath (t : TreeMux) (pth : string) : bool * string :=
  if (1 <? String.length pth)%nat
     && bool_decide (lastByte pth = Some slash)
     && RedirectTrailingSlash t
  then (true, str_take (String.length pth - 1) pth)
  else (false, pth).

Definition Handle (g : Group) (t : TreeMux) (method pth : string)
    (handler : HandlerFunc) : res TreeMux :=
  let handler := if (0 <? length (stack g))%nat
                 then handlerWithMiddlewares handler (stack g)
                 else handler in
  _ <- checkPath pth ;;
  let pth := groupPath g +:+ pth in
  if (String.length pth =? 0)%nat then Panic EmptyPathMapped
  else
    let '(slashFlag, pth) := storedPath t pth in
    t1 <- (if EscapeAddedRoutes t then
             match RequestURIString pth with
             | None => Panic URLParsingError
             | Some u =>
                 let escapedPath := unescapeSpecial u in
                 if negb (String.eqb escapedPath pth)
                 then addOne t method handler slashFlag escapedPath
                 else Ok t
             end
           else Ok t) ;;
    addOne t1 method handler slashFlag pth.

(** The verb-named wrappers of [Handle]. *)
Definition GET (g : Group) (t : TreeMux) (pth : string) (handler : HandlerFunc)
  : res TreeMux := Handle g t "GET" pth handler.
Definition POST (g : Group) (t : TreeMux) (pth : string) (handler : HandlerFunc)
  : res TreeMux := Handle g t "POST" pth handler.
Definition PUT (g : Group) (t : TreeMux) (pth : string) (handler : HandlerFunc)
  : res TreeMux := Handle g t "PUT" pth handler.
Definition DELETE (g : Group) (t : TreeMux) (pth : string) (handler : HandlerFunc)
  : res TreeMux := Handle g t "DELETE" pth handler.
Definition PATCH (g : Group) (t : TreeMux) (pth : string) (handler : HandlerFunc)
  : res TreeMux := Handle g t "PATCH" pth handler.
Definition HEAD (g : Group) (t : TreeMux) (pth : string) (handler : HandlerFunc)
  : res TreeMux := Handle g t "HEAD" pth handler.
Definition OPTIONS (g : Group) (t : TreeMux) (pth : string)
    (handler : HandlerFunc) : res TreeMux := Handle g t "OPTIONS" pth handler.

(** [joinPath]: the path of a sub-group, one trailing slash cut. *)
Definition joinPath (base pth : string) : res string :=
  _ <- checkPath pth ;;
  let pth := base +:+ pth in
  if (0 <? String.length pth)%nat && bool_decide (lastByte pth = Some slash)
  then Ok (str_take (String.length pth - 1) pth)
  else Ok pth.

(** [Group.NewGroup]: the sub-group shares the router and starts with a
    copy of the middleware stack. *)
Definition NewGroup (g : Group) (pth : string) : res Group :=
  p <- joinPath (groupPath g) pth ;;
  Ok (mkGroup p (stack g)).

(** [Group.Use]: the middleware is appended to the stack. *)
Definition Use (g : Group) (fn : MiddlewareFunc) : Group :=
  mkGroup (groupPath g) (stack g ++ [fn]).

(** Modelled from the spec: the router's lookup, [match(verb, path)], is
    outside the files at hand.  Serving calls the matcher on the root.  The
    request path is normalised the way [Handle] normalises a pattern, so
    that a registered pattern is a request path for itself, as the spec's
    round trip of registration and match has it; and as [Handle] inserts
    [fullPath[1:]], the path is searched without its first byte. *)
Definition lookup (t : TreeMux) (verb pth : string) : res result :=
  p <- tail1 (snd (storedPath t pth)) ;;
  search (root t) verb p.

(** Modelled from the spec: the constructor of the router is outside the
    files at hand; this is the router without routes, an empty root. *)
Definition emptyMux (headCanUseGet redirectTrailingSlash escapeAddedRoutes : bool)
  : TreeMux :=
  mkTreeMux (newNode "/") headCanUseGet redirectTrailingSlash escapeAddedRoutes.

(** A registration request and a run of them. *)
Record registration := mkRegistration {
  regGroup : Group;
  regMethod : string;
  regPath : string;
  regHandler : HandlerFunc
}.

Fixpoint registerAll (t : TreeMux) (rs : list registration) : res TreeMux :=
  match rs with
  | [] => Ok t
  | r :: rs' =>
      t' <- Handle (regGroup r) t (regMethod r) (regPath r) (regHandler r) ;;
      registerAll t' rs'
  end.

(** ** Parameter accessors *)

Definition Params : Type := list Param.

Fixpoint ParamsGet (ps : Params) (name : string) : string * bool :=
  match ps with
  | [] => ("", false)
  | param :: ps' =>
      if String.eqb (Name param) name then (Value param, true)
      else ParamsGet ps' name
  end.

Definition ParamsText (ps : Params) (name : string) : string :=
  fst (ParamsGet ps name).

(** The errors of [strconv.ParseUint]. *)
Inductive NumError := ErrSyntax | ErrRange.

Definition maxUint64 : N := 18446744073709551615%N.

(** The value of a decimal digit. *)
Definition digitOf (c : ascii) : option N :=
  let k := N_of_ascii c in
  if ((48 <=? k) && (k <=? 57))%N then Some (k - 48)%N else None.

(** The digit loop of [strconv.ParseUint(s, 10, 64)] of the Go library: a
    byte that is not a digit is a syntax error, a value above [maxUint64]
    a range error, whichever comes first. *)
Fixpoint parseDigits (s : string) (acc : N) : NumError + N :=
  match s with
  | EmptyString => inr acc
  | String c s' =>
      match digitOf c with
      | None => inl ErrSyntax
      | Some d =>
          let acc' := (acc * 10 + d)%N in
          if (maxUint64 <? acc')%N then inl ErrRange
          else parseDigits s' acc'
      end
  end.

Definition ParseUint (s : string) : NumError + N :=
  match s with
  | EmptyString => inl ErrSyntax
  | _ => parseDigits s 0
  end.

(** The conversion [uint32(n)]. *)
Definition uint32 (n : N) : N := (n mod 2 ^ 32)%N.

Definition ParamsUint32 (ps : Params) (name : string) : NumError + N :=
  match ParseUint (ParamsText ps name) with
  | inl err => inl err
  | inr n => inr (uint32 n)
  end.

Definition ParamsUint64 (ps : Params) (name : string) : NumError + N :=
  ParseUint (ParamsText ps name).

(** [Params.Map]: [None] is the nil map of an empty list; later entries
    overwrite earlier ones of the same name. *)
Definition ParamsMap (ps : Params) : option (gmap string string) :=
  if (length ps =? 0)%nat then None
  else Some (foldl (fun m param => <[Name param := Value param]> m) ∅ ps).

(** ** Notions used to state the properties *)

(** The value a decimal string denotes: [None] when the string is empty or
    holds a byte that is not a digit. *)
Fixpoint decimalValueFrom (s : string) (acc : N) : option N :=
  match s with
  | EmptyString => Some acc
  | String c s' =>
      match digitOf c with
      | Some d => decimalValueFrom s' (acc * 10 + d)%N
      | None => None
      end
  end.

Definition decimalValue (s : string) : option N :=
  match s with
  | EmptyString => None
  | _ => decimalValueFrom s 0
  end.


Definition firstByte (s : string) : option ascii :=
  match s with
  | EmptyString => None
  | String c _ => Some c
  end.

(** A segment lies within one token: it is the slash alone or holds none. *)
Definition withinToken (s : string) : Prop :=
  s = "/" \/ IndexByte s slash = None.

(** A string of ASCII bytes only: the [range] loop visits every index. *)
Fixpoint plain (s : string) : bool :=
  match s with
  | EmptyString => true
  | String c s' => (nat_of_ascii c <? 128)%nat && plain s'
  end.

(** The length of the longest common prefix of two strings, counted from
    [i], that is never the whole of [childPath]: what the loop of
    [splitCommonPrefix] finds on a child segment of ASCII bytes. *)
Fixpoint commonBytes (childPath tok : string) (i : nat) : nat :=
  match childPath with
  | EmptyString => i - 1
  | String c childPath' =>
      match tok with
      | EmptyString => i
      | String d tok' =>
          if Ascii.eqb d c then commonBytes childPath' tok' (S i) else i
      end
  end.

(** A static child fits the slot it is stored in: its segment starts with
    the slot's index byte, lies within one token and is ASCII. *)
Definition slotOK (x : ascii) (c : node) : Prop :=
  firstByte (path c) = Some x /\ withinToken (path c)
  /\ plain (path c) = true.

(** A node without children of any kind. *)
Definition childless (n : node) : Prop :=
  staticIndices n = [] /\ staticChild n = []
  /\ wildcardChild n = None /\ catchAllChild n = None.

(** [below n m]: [m] is [n] or a node under it. *)
Inductive below : node -> node -> Prop :=
  | below_here n : below n n
  | below_static n c m : c ∈ staticChild n -> below c m -> below n m
  | below_wildcard n w m : wildcardChild n = Some w -> below w m -> below n m
  | below_catchAll n ca m : catchAllChild n = Some ca -> below ca m -> below n m.

(** The static children of [n] have pairwise distinct leading bytes, the
    ones recorded in [staticIndices]. *)
Definition distinctLeading (n : node) : Prop :=
  NoDup (staticIndices n)
  /\ Forall2 (fun x c => firstByte (path c) = Some x)
       (staticIndices n) (staticChild n).

(** A node at wildcard depth [k] (the number of wildcard and catch-all edges
    above it) is well formed: its two static arrays have one length, no
    index occurs twice, every static child's segment starts with the byte
    it is indexed by and lies within one token, wildcard names when recorded are [k] in number and a
    terminus has them, a catch-all child is a terminus, and the same holds
    below. *)
#[local] Unset Elimination Schemes.
Inductive WF : nat -> node -> Prop :=
  | WF_node k n :
      Forall2 (fun x c => slotOK x c /\ WF k c)
        (staticIndices n) (staticChild n) ->
      NoDup (staticIndices n) ->
      (forall w, wildcardChild n = Some w -> WF (S k) w) ->
      (forall ca, catchAllChild n = Some ca ->
         nodeHandlerMap ca <> None /\ length (names_of ca) = S k
         /\ childless ca) ->
      (forall names, leafWildcardNames n = Some names -> length names = k) ->
      (nodeHandlerMap n <> None -> length (names_of n) = k) ->
      WF k n.
#[local] Set Elimination Schemes.

(** What the matcher relies on: all of [WF] but what it says of the
    segments of the static children. *)
#[local] Unset Elimination Schemes.
Inductive WFs : nat -> node -> Prop :=
  | WFs_node k n :
      Forall2 (fun _ c => WFs k c) (staticIndices n) (staticChild n) ->
      NoDup (staticIndices n) ->
      (forall w, wildcardChild n = Some w -> WFs (S k) w) ->
      (forall ca, catchAllChild n = Some ca ->
         nodeHandlerMap ca <> None /\ length (names_of ca) = S k
         /\ childless ca) ->
      (forall names, leafWildcardNames n = Some names -> length names = k) ->
      (nodeHandlerMap n <> None -> length (names_of n) = k) ->
      WFs k n.
#[local] Set Elimination Schemes.

(** A pattern without wildcard, catch-all or escape markers. *)
Fixpoint literal (s : string) : bool :=
  match s with
  | EmptyString => true
  | String c s' =>
      negb (Ascii.eqb c star) && negb (Ascii.eqb c colon)
      && negb (Ascii.eqb c backslash) && literal s'
  end.

(** The descent of [addPath] read without writing: the node that inserting
    [pth] below [n] would return as leaf, when every node on the way is
    there already and no segment has to be split. *)
Fixpoint readPath (n : node) (pth : string) (inStaticToken : bool) {struct n}
  : option node :=
  match pth with
  | EmptyString => Some n
  | String c _ =>
      let '(thisToken, tokenEnd) := tokenOf c pth in
      let remainingPath := str_drop tokenEnd pth in
      if Ascii.eqb c star && negb inStaticToken then
        match catchAllChild n with
        | Some ca =>
            if String.eqb (str_drop 1 pth) (path ca)
               && negb (notNil (IndexByte pth slash))
            then Some ca else None
        | None => None
        end
      else if Ascii.eqb c colon && negb inStaticToken then
        match wildcardChild n with
        | Some w => readPath w remainingPath false
        | None => None
        end
      else
        let '(c, thisToken, unescaped) :=
          unescapeToken inStaticToken c thisToken in
        withStaticChild c
          (fun child =>
             if HasPrefix thisToken (path child) then
               let k := String.length (path child) in
               readPath child (str_drop (if unescaped then S k else k) pth)
                 (negb (Ascii.eqb c slash))
             else None)
          None None (staticChild n) (staticIndices n)
  end.

(** [matches n pth l caps]: the request path [pth] leads from [n] to the
    terminus [l] along static, wildcard and catch-all edges, the wildcards on
    the way capturing the raw texts [caps], listed from [n] downwards. *)
Inductive matches : node -> string -> node -> list string -> Prop :=
  | matches_here n :
      nodeHandlerMap n <> None -> matches n "" n []
  | matches_static n i c child pth l caps :
      firstByte pth = Some c ->
      staticIndices n !! i = Some c ->
      staticChild n !! i = Some child ->
      HasPrefix pth (path child) = true ->
      matches child (str_drop (String.length (path child)) pth) l caps ->
      matches n pth l caps
  | matches_wildcard n w pth l caps :
      wildcardChild n = Some w ->
      pth <> "" -> segmentOf pth <> "" ->
      matches w (afterSegment pth) l caps ->
      matches n pth l (segmentOf pth :: caps)
  | matches_catchAll n ca pth :
      catchAllChild n = Some ca ->
      pth <> "" ->
      matches n pth ca [pth].

(** The parameters of a match that ends at [l], [k] wildcard names above
    the node it started from, with the captures [caps] listed from that
    node downwards: capture and name are paired position by position, and
    the list runs from the innermost pair to the outermost. *)
Definition paramsOf (k : nat) (l : node) (caps : list string) : list Param :=
  rev (zip_with mkParam (drop k (names_of l)) (unescapeOrRaw <$> caps)).

(** The handler a node holds for a verb. *)
Definition handlerOf (l : node) (method : string) : HandlerFunc :=
  match nodeHandlerMap l with
  | Some hm => hmGet hm method
  | None => None
  end.

(** [r] answers a request for the matches in the class [M]: what it found
    is a match of the class, with its handler and parameters; it found
    nothing only if the class is empty, and no handler only if no match of
    the class has one. *)
Definition answers (k : nat) (method : string)
    (M : node -> list string -> Prop) (r : result) : Prop :=
  match found r with
  | None => handler r = None /\ params r = []
  | Some l =>
      exists caps, M l caps /\ nodeHandlerMap l <> None
        /\ handler r = handlerOf l method
        /\ length (names_of l) = k + length caps
        /\ params r = paramsOf k l caps
  end
  /\ (found r = None -> forall l caps, ~ M l caps)
  /\ (handler r = None -> forall l caps, M l caps -> handlerOf l method = None).

(** The handler-table fields of a node that only a registration at that very
    node changes. *)
Definition keeps (l l' : node) : Prop :=
  route l' = route l /\ nodeHandlerMap l' = nodeHandlerMap l.

(** What the caller of [addPath] may do to the leaf: it leaves the tree
    below the leaf, its segment, priority and wildcard names alone, and
    makes it a terminus. *)
Definition leafUpdate (onLeaf : node -> res node) : Prop :=
  forall l,
    match onLeaf l with
    | Ok l' =>
        path l' = path l /\ priority l' = priority l
        /\ staticIndices l' = staticIndices l
        /\ staticChild l' = staticChild l
        /\ wildcardChild l' = wildcardChild l
        /\ catchAllChild l' = catchAllChild l
        /\ leafWildcardNames l' = leafWildcardNames l
        /\ nodeHandlerMap l' <> None
    | Panic _ => True
    | OutOfFuel => False
    end.

(** The static children of a node with the bytes they are indexed by. *)
Definition statics (n : node) : list (ascii * node) :=
  zip (staticIndices n) (staticChild n).

(** After an insertion whose caller updates the leaf with [onLeaf], the
    route of [p], which led to [l], still leads to a node with the route
    and handlers of [l], unless it leads to the very leaf of the insertion,
    where it finds what [onLeaf] made of such a node. *)
Definition survives (onLeaf : node -> res node) (n' : node) (p : string)
    (ist : bool) (l : node) : Prop :=
  exists l', readPath n' p ist = Some l'
    /\ (keeps l l' \/ exists l0, keeps l l0 /\ onLeaf l0 = Ok l').

(** The router serves [verb] at the stored pattern [fullPath] with the
    handler [h], stored there by an explicit registration: the route of
    the pattern leads to a node of that route that holds [h] for the verb. *)
Definition registered (t : TreeMux) (verb fullPath : string) (h : H) : Prop :=
  exists p l hm,
    tail1 fullPath = Ok p
    /\ readPath (root t) p false = Some l
    /\ route l = fullPath
    /\ nodeHandlerMap l = Some hm
    /\ hmGet hm verb = Some h
    /\ (verb = MethodHead -> implicitHead hm = false).

(** A registration whose full pattern is ASCII. *)
Definition plainRoute (r : registration) : Prop :=
  plain (groupPath (regGroup r) +:+ regPath r) = true.

(** The panics of [addPath] itself, before the caller touches the leaf. *)
Definition structural (k : panic) : Prop :=
  k = CatchAllNameMismatch \/ k = SlashAfterCatchAll
  \/ k = WildcardLengthDiffers \/ k = AmbiguousWildcards.

(** The static child stored under the index byte [c], if any. *)
Definition slotOf (n : node) (c : ascii) : option node :=
  withStaticChild c Some None None (staticChild n) (staticIndices n).

(** Two nodes that are the same terminus: they carry the same route, the
    same handlers and the same wildcard names. *)
Definition sameTerminus (l l' : node) : Prop :=
  route l = route l' /\ nodeHandlerMap l = nodeHandlerMap l'
  /\ leafWildcardNames l = leafWildcardNames l'.

(** Two outcomes of the matcher that a caller cannot tell apart. *)
Definition sameAnswer (x y : res result) : Prop :=
  match x, y with
  | Ok r, Ok r' =>
      handler r = handler r' /\ params r = params r'
      /\ match found r, found r' with
         | Some l, Some l' => sameTerminus l l'
         | None, None => True
         | _, _ => False
         end
  | Panic a, Panic b => a = b
  | OutOfFuel, OutOfFuel => True
  | _, _ => False
  end.

(** The static children are in the order [sortStaticChild] keeps: no child
    has a higher priority than one before it. *)
Definition byPriority (cs : list node) : Prop :=
  forall a b ca cb, a < b -> cs !! a = Some ca -> cs !! b = Some cb ->
    priority cb <= priority ca.

(** The table that a run of [Set] calls builds from the empty one. *)
Definition tableOf (sets : list (string * HandlerFunc)) : handlerMap :=
  foldl (fun h s => hmSet h (fst s) (snd s)) newHandlerMap sets.

(** Two outcomes of the matcher that differ at most in the values of the
    parameters: the same node, the same handler, the same parameter names
    in the same order. *)
Definition sameMatch (x y : res result) : Prop :=
  match x, y with
  | Ok r, Ok r' =>
      found r = found r' /\ handler r = handler r'
      /\ Name <$> params r = Name <$> params r'
  | Panic a, Panic b => a = b
  | OutOfFuel, OutOfFuel => True
  | _, _ => False
  end.

(** The names of the wildcards and the catch-all of a pattern, in the order
    they appear in it: a token, the text between two slashes, that starts
    with a colon or a star gives its text after that marker.
    [atTokenStart] tells whether the byte at hand starts a token. *)
Fixpoint namesFrom (pth : string) (atTokenStart : bool) : list string :=
  match pth with
  | EmptyString => []
  | String c rest =>
      if Ascii.eqb c slash then namesFrom rest true
      else if atTokenStart && (Ascii.eqb c colon || Ascii.eqb c star)
      then segmentOf rest :: namesFrom rest false
      else namesFrom rest false
  end.

(** The names of a stored pattern, which starts with a slash. *)
Definition patternNames (fullPath : string) : list string :=
  match fullPath with
  | EmptyString => []
  | String _ p => namesFrom p true
  end.

(** A node that is a terminus or holds wildcard names holds the names of
    the pattern that is its route, from the first of the pattern to the
    last. *)
Definition namedByRoute (n : node) : Prop :=
  nodeHandlerMap n <> None \/ leafWildcardNames n <> None ->
  route n <> "" /\ names_of n = patternNames (route n).

(** Every node of the tree is named by its route. *)
#[local] Unset Elimination Schemes.
Inductive Named : node -> Prop :=
  | Named_node n :
      namedByRoute n ->
      Forall Named (staticChild n) ->
      (forall w, wildcardChild n = Some w -> Named w) ->
      (forall ca, catchAllChild n = Some ca -> Named ca) ->
      Named n.
#[local] Set Elimination Schemes.

End Model.

End Treemux.

Import Treemux.

(** ** A decoder for the examples *)

(** [url.PathUnescape] of the Go library, for running the matcher on
    concrete requests: [%XY] with two hexadecimal digits is the byte they
    denote, any other [%] is an error, every other byte stands for itself. *)
Definition hexValue (c : ascii) : option nat :=
  let n := nat_of_ascii c in
  if (48 <=? n)%nat && (n <=? 57)%nat then Some (n - 48)
  else if (65 <=? n)%nat && (n <=? 70)%nat then Some (n - 55)
  else if (97 <=? n)%nat && (n <=? 102)%nat then Some (n - 87)
  else None.

Fixpoint percentDecode (s : string) : option string :=
  match s with
  | EmptyString => Some EmptyString
  | String c s' =>
      if Ascii.eqb c "%"%char then
        match s' with
        | String a (String b s'') =>
            match hexValue a, hexValue b with
            | Some x, Some y =>
                option_map (String (ascii_of_nat (16 * x + y)))
                  (percentDecode s'')
            | _, _ => None
            end
        | _ => None
        end
      else option_map (String c) (percentDecode s')
  end.

(** [url.ParseRequestURI] followed by [URL.String] on a path that needs no
    escaping: the path itself. *)
Definition plainRequestURI (s : string) : option string := Some s.


(** Two letters of two bytes each that share their first byte: U+00E9 and
    U+00E8 in UTF-8. *)
Definition eAcute : string :=
  String (ascii_of_nat 195) (String (ascii_of_nat 169) EmptyString).
Definition eGrave : string :=
  String (ascii_of_nat 195) (String (ascii_of_nat 168) EmptyString).

(** A text that is not UTF-8: the byte 0xC3, which announces a sequence of
    two bytes, followed by the letters A and 2. *)
Definition loneLead : string := String (ascii_of_nat 195) "A2".

(** Routers for the examples: handlers are numbers, the group is the root
    group without middleware, the router starts empty with [HeadCanUseGet]
    and [RedirectTrailingSlash] set, as [New] sets them, and does not
    escape added routes. *)
Definition exampleGroup : @Group nat := mkGroup "" [].

Definition exampleRoute (verb pth : string) (h : nat) : @registration nat :=
  mkRegistration exampleGroup verb pth (Some h).

Definition exampleMux (rs : list (@registration nat)) : res (@TreeMux nat) :=
  registerAll plainRequestURI (emptyMux true true false) rs.

(** Nodes for the examples: a node whose second static child has outgrown
    the first, and a node with one static child whose segment is the one
    letter U+00E9. *)
Definition exampleNode : @node nat :=
  mkNode "" "/" 0 ["a"%char; "b"%char]
    [setPriority (newNode "a") 1; setPriority (newNode "b") 2]
    None None false false None None.

Definition exampleRuneNode : @node nat :=
  setStatic (newNode "/") [ascii_of_nat 195] [newNode eAcute].
(** * Properties *)

(** ** Strings *)

Lemma append_cons (c : ascii) (a b : string) :
  String c a +:+ b = String c (a +:+ b).
Proof. reflexivity. Qed.

Lemma append_nil_l (b : string) : "" +:+ b = b.
Proof. reflexivity. Qed.

Lemma str_take_drop (k : nat) (s : string) : str_take k s +:+ str_drop k s = s.
Proof.
  revert s; induction k as [|k IH]; intros [|c s]; simpl; try reflexivity.
  now rewrite append_cons, IH.
Qed.

Lemma length_append (a b : string) :
  String.length (a +:+ b) = String.length a + String.length b.
Proof.
  induction a as [|c a IH]; [reflexivity|].
  rewrite append_cons; simpl; now rewrite IH.
Qed.

Lemma length_str_drop (k : nat) (s : string) :
  String.length (str_drop k s) = String.length s - k.
Proof. revert s; induction k as [|k IH]; intros [|c s]; simpl; auto with lia. Qed.

Lemma length_str_take (k : nat) (s : string) :
  String.length (str_take k s) = k `min` String.length s.
Proof.
  revert s; induction k as [|k IH]; intros [|c s]; simpl; auto.
Qed.

Lemma str_drop_append (a b : string) : str_drop (String.length a) (a +:+ b) = b.
Proof.
  induction a as [|c a IH]; [now destruct b|].
  rewrite append_cons; simpl; apply IH.
Qed.

Lemma str_take_append (a b : string) : str_take (String.length a) (a +:+ b) = a.
Proof.
  induction a as [|c a IH]; [now destruct b|].
  rewrite append_cons; simpl; now rewrite IH.
Qed.

Lemma str_drop_drop (j k : nat) (s : string) :
  str_drop j (str_drop k s) = str_drop (k + j) s.
Proof.
  revert s; induction k as [|k IH]; intros s; simpl; [reflexivity|].
  destruct s as [|c s]; [now destruct j | apply IH].
Qed.

Lemma append_nil_r (s : string) : s +:+ "" = s.
Proof.
  induction s as [|c s IH]; [reflexivity | now rewrite append_cons, IH].
Qed.

Lemma append_assoc (a b c : string) : (a +:+ b) +:+ c = a +:+ (b +:+ c).
Proof.
  induction a as [|x a IH]; [reflexivity | now rewrite !append_cons, IH].
Qed.

Lemma ascii_eqb_true (a b : ascii) : Ascii.eqb a b = true <-> a = b.
Proof. apply Ascii.eqb_eq. Qed.

Lemma ascii_eqb_false (a b : ascii) : Ascii.eqb a b = false <-> a <> b.
Proof. apply Ascii.eqb_neq. Qed.

Lemma HasPrefix_app (s pre : string) :
  HasPrefix s pre = true <-> exists rest, s = pre +:+ rest.
Proof.
  revert s; induction pre as [|c pre IH]; intros s; simpl.
  - split; [intros _; now exists s | reflexivity].
  - destruct s as [|d s].
    + split; [discriminate | intros [rest Hr]; discriminate].
    + rewrite andb_true_iff, ascii_eqb_true, IH. split.
      * intros [-> [rest ->]]. now exists rest.
      * intros [rest Hr]. rewrite append_cons in Hr. injection Hr as -> ->.
        split; [reflexivity | now exists rest].
Qed.

Lemma HasPrefix_take (s pre : string) :
  HasPrefix s pre = true -> str_take (String.length pre) s = pre.
Proof. intros [rest ->]%HasPrefix_app. apply str_take_append. Qed.

(** The prefix test of [search] is [strings.HasPrefix]. *)
Lemma prefix_test (s pre : string) :
  (String.length pre <=? String.length s)%nat
  && String.eqb pre (str_take (String.length pre) s) = HasPrefix s pre.
Proof.
  destruct (HasPrefix s pre) eqn:Hp.
  - pose proof (HasPrefix_take _ _ Hp) as Ht. rewrite Ht, String.eqb_refl.
    apply HasPrefix_app in Hp as [rest ->]. rewrite length_append.
    rewrite andb_true_r. apply Nat.leb_le. lia.
  - apply not_true_iff_false. intros [Hl He]%andb_true_iff.
    apply String.eqb_eq in He. apply not_true_iff_false in Hp. apply Hp.
    apply HasPrefix_app. exists (str_drop (String.length pre) s).
    rewrite He at 1. symmetry. apply str_take_drop.
Qed.

(** ** Numeric accessors *)

Lemma decimalValueFrom_ge (s : string) (acc k : N) :
  decimalValueFrom s acc = Some k -> (acc <= k)%N.
Proof.
  revert acc; induction s as [|c s IH]; simpl; intros acc Hv.
  - injection Hv as ->. lia.
  - destruct (digitOf c) as [d|]; [|discriminate].
    apply IH in Hv. lia.
Qed.

Lemma parseDigits_value (s : string) (acc k : N) :
  decimalValueFrom s acc = Some k -> (k <= maxUint64)%N ->
  parseDigits s acc = inr k.
Proof.
  revert acc; induction s as [|c s IH]; simpl; intros acc Hv Hk.
  - now injection Hv as ->.
  - destruct (digitOf c) as [d|]; [|discriminate].
    pose proof (decimalValueFrom_ge _ _ _ Hv) as Hge.
    destruct (N.ltb_spec maxUint64 (acc * 10 + d)); [lia|].
    now apply IH.
Qed.

Lemma parseDigits_not_decimal (s : string) (acc : N) :
  decimalValueFrom s acc = None -> exists e, parseDigits s acc = inl e.
Proof.
  revert acc; induction s as [|c s IH]; simpl; intros acc Hv; [discriminate|].
  destruct (digitOf c) as [d|]; [|now exists ErrSyntax].
  destruct (N.ltb_spec maxUint64 (acc * 10 + d)); [now exists ErrRange|].
  now apply IH.
Qed.

Lemma ParamsGet_absent (ps : Params) (name : string) :
  snd (ParamsGet ps name) = false -> ParamsText ps name = "".
Proof.
  unfold ParamsText. induction ps as [|p ps IH]; simpl; [reflexivity|].
  destruct (String.eqb (Name p) name); [discriminate | exact IH].
Qed.

(** C10: [Params.Uint32] succeeds on every value that is a decimal string
    below 2^64 and returns it modulo 2^32, so that 4294967296 reads as 0
    without a range error; an absent parameter or a value that is not a
    decimal string is an error. *)
Theorem Uint32_truncates (ps : Params) (name : string) :
  (forall k, decimalValue (ParamsText ps name) = Some k ->
     (k <= maxUint64)%N ->
     ParamsUint32 ps name = inr (k mod 2 ^ 32)%N)
  /\ (snd (ParamsGet ps name) = false -> ParamsUint32 ps name = inl ErrSyntax)
  /\ (decimalValue (ParamsText ps name) = None ->
      exists e, ParamsUint32 ps name = inl e)
  /\ ParamsUint32 [mkParam "id" "4294967296"] "id" = inr 0%N
  /\ ParamsUint32 [mkParam "id" "4294967297"] "id" = inr 1%N.
Proof.
  unfold ParamsUint32, ParseUint, decimalValue. repeat split.
  - intros k Hv Hk. destruct (ParamsText ps name) as [|c s]; [discriminate|].
    now rewrite (parseDigits_value _ _ _ Hv Hk).
  - intros Ha. now rewrite (ParamsGet_absent _ _ Ha).
  - intros Hv. destruct (ParamsText ps name) as [|c s]; [now exists ErrSyntax|].
    destruct (parseDigits_not_decimal _ _ Hv) as [e ->]. now exists e.
Qed.

Lemma Uint32_truncates_witness :
  ParamsUint32 [mkParam "id" "4294967301"] "id" = inr 5%N
  /\ ParamsUint32 [mkParam "id" "7"] "nr" = inl ErrSyntax
  /\ exists e, ParamsUint32 [mkParam "id" "12a"] "id" = inl e.
Proof.
  pose proof (Uint32_truncates [mkParam "id" "4294967301"] "id") as (Hv & _).
  pose proof (Uint32_truncates [mkParam "id" "7"] "nr") as (_ & Ha & _).
  pose proof (Uint32_truncates [mkParam "id" "12a"] "id") as (_ & _ & He & _).
  split; [|split].
  - apply (Hv 4294967301%N); [reflexivity | vm_compute; discriminate].
  - apply Ha. reflexivity.
  - apply He. reflexivity.
Defined.

(** ** The tree *)

Section Properties.
Context {H : Type}.
Variable PathUnescape : string -> option string.
Variable RequestURIString : string -> option string.

(** [URL.String] escapes every byte that is not ASCII: what it makes of an
    ASCII path is ASCII. *)
Hypothesis RequestURI_plain :
  forall s u, plain s = true -> RequestURIString s = Some u -> plain u = true.

Local Abbreviation node := (@node H).
Local Abbreviation result := (@result H).
Local Abbreviation handlerMap := (@handlerMap H).
Local Abbreviation HandlerFunc := (@HandlerFunc H).
Local Abbreviation TreeMux := (@TreeMux H).
Local Abbreviation Group := (@Group H).
Local Abbreviation registration := (@registration H).
Local Abbreviation newNode := (@newNode H).
Local Abbreviation newHandlerMap := (@newHandlerMap H).
Local Abbreviation noMatch := (@noMatch H).
Local Abbreviation emptyMux := (@emptyMux H).
Local Abbreviation search := (search PathUnescape).
Local Abbreviation afterStatic := (afterStatic PathUnescape).
Local Abbreviation searchCatchAll := (searchCatchAll PathUnescape).
Local Abbreviation unescapeOrRaw := (unescapeOrRaw PathUnescape).
Local Abbreviation paramsOf := (paramsOf PathUnescape).
Local Abbreviation answers := (answers PathUnescape).
Local Abbreviation registered := (@registered H).
Local Abbreviation lookup := (lookup PathUnescape).
Local Abbreviation Handle := (Handle RequestURIString).
Local Abbreviation registerAll := (registerAll RequestURIString).
Local Abbreviation plainRoute := (@plainRoute H).

#[local] Arguments tokenOf : simpl never.
#[local] Arguments unescapeToken : simpl never.
#[local] Arguments splitCommonPrefix : simpl never.
#[local] Arguments IndexByte : simpl never.

(** *** Bytes *)

Lemma IndexByte_cons_ne (c d : ascii) (s : string) :
  c <> d -> IndexByte (String c s) d = S <$> IndexByte s d.
Proof.
  intros Hne. unfold IndexByte at 1. fold (IndexByte s d).
  apply ascii_eqb_false in Hne. rewrite Hne.
  now destruct (IndexByte s d).
Qed.

Lemma IndexByte_take_neq (s : string) (c : ascii) (k : nat) :
  IndexByte s c = Some k -> str_take k s <> s.
Proof.
  intros Hi Heq. assert (String.length (str_take k s) = String.length s) as Hl
    by now rewrite Heq.
  rewrite length_str_take in Hl.
  assert (k < String.length s); [|lia].
  clear Heq Hl. revert k Hi; induction s as [|d s IH]; intros k Hi;
    [discriminate|].
  unfold IndexByte in Hi; fold (IndexByte s c) in Hi. simpl.
  destruct (Ascii.eqb d c); [injection Hi as <-; lia|].
  destruct (IndexByte s c) as [j|]; [|discriminate].
  injection Hi as <-. specialize (IH j eq_refl). lia.
Qed.


(** *** Catch-all insertion *)

Lemma tokenOf_star (rest : string) :
  tokenOf star (String star rest) =
  match IndexByte rest slash with
  | Some k => (String star (str_take k rest), S k)
  | None => (String star rest, S (String.length rest))
  end.
Proof.
  unfold tokenOf, IndexByte. simpl. fold (IndexByte rest slash).
  now destruct (IndexByte rest slash).
Qed.

(** C7: at a node where the path left to insert starts with the catch-all
    marker outside a static token, insertion panics, without reaching a
    leaf, when the catch-all child stored there has another name, and when
    a slash follows the marker. *)
Theorem catchAll_insertion_fails (fuel : nat) (onLeaf : node -> res node)
    (n : node) (rest : string) (wildcards : option (list string)) :
  (forall ca, catchAllChild n = Some ca -> path ca <> rest ->
     addPath (S fuel) onLeaf n (String star rest) wildcards false
     = Panic CatchAllNameMismatch)
  /\ (IndexByte rest slash <> None ->
      addPath (S fuel) onLeaf n (String star rest) wildcards false
      = Panic CatchAllNameMismatch
      \/ addPath (S fuel) onLeaf n (String star rest) wildcards false
         = Panic SlashAfterCatchAll).
Proof.
  split.
  - intros ca Hca Hne. simpl. rewrite tokenOf_star, Hca.
    destruct (IndexByte rest slash); simpl;
      (destruct (String.eqb_spec rest (path ca)) as [->|_]; [done|reflexivity]).
  - intros Hs. simpl. rewrite tokenOf_star.
    assert (IndexByte (String star rest) slash = S <$> IndexByte rest slash) as ->
      by now apply IndexByte_cons_ne.
    destruct (IndexByte rest slash) as [k|] eqn:Hk; [clear Hs|done].
    simpl. destruct (catchAllChild n) as [ca|].
    + destruct (String.eqb rest (path ca)); simpl; auto.
    + simpl. destruct (String.eqb rest (str_take k rest)); simpl; auto.
Qed.

(** *** The loop over the static indices *)

Lemma indexOf_Some (c : ascii) (indices : list ascii) (i : nat) :
  indexOf c indices = Some i ->
  indices !! i = Some c /\ forall j, j < i -> indices !! j <> Some c.
Proof.
  revert i; induction indices as [|x l IH]; simpl; intros i Hi; [discriminate|].
  destruct (Ascii.eqb c x) eqn:E.
  - injection Hi as <-. apply ascii_eqb_true in E as ->. split; [reflexivity|lia].
  - destruct (indexOf c l) as [k|]; [|discriminate]. injection Hi as <-.
    destruct (IH k eq_refl) as [Hk Hlt]. split; [exact Hk|].
    intros [|j] Hj; simpl.
    + apply ascii_eqb_false in E. congruence.
    + apply Hlt. lia.
Qed.

Lemma indexOf_None (c : ascii) (indices : list ascii) :
  indexOf c indices = None -> c ∉ indices.
Proof.
  induction indices as [|x l IH]; simpl; intros Hi; [apply not_elem_of_nil|].
  destruct (Ascii.eqb c x) eqn:E; [discriminate|].
  destruct (indexOf c l); [discriminate|].
  apply ascii_eqb_false in E. apply not_elem_of_cons. auto.
Qed.

Lemma indexOf_lookup (c : ascii) (indices : list ascii) (i : nat) :
  NoDup indices -> indices !! i = Some c -> indexOf c indices = Some i.
Proof.
  intros Hnd; revert i; induction Hnd as [|x l Hx Hnd IH]; intros i Hi;
    [discriminate|].
  simpl. destruct i as [|i]; simpl in Hi.
  - injection Hi as ->. now rewrite Ascii.eqb_refl.
  - destruct (Ascii.eqb c x) eqn:E.
    + apply ascii_eqb_true in E as ->. apply list_elem_of_lookup_2 in Hi. done.
    + now rewrite (IH i Hi).
Qed.

Lemma withStaticChild_indexOf {A} (c : ascii) (f : node -> A) (missing none : A)
    (children : list node) (indices : list ascii) :
  withStaticChild c f missing none children indices =
  match indexOf c indices with
  | None => none
  | Some i => match children !! i with
              | Some child => f child
              | None => missing
              end
  end.
Proof.
  revert indices; induction children as [|ch children IH]; intros indices.
  - destruct indices as [|x l]; [reflexivity|].
    unfold withStaticChild.
    assert (existsb (fun y => Ascii.eqb y c) (x :: l)
            = match indexOf c (x :: l) with Some _ => true | None => false end)
      as ->.
    { generalize (x :: l). intros l'. induction l' as [|y l' IHl]; simpl; [reflexivity|].
      rewrite (Ascii.eqb_sym c y). destruct (Ascii.eqb y c); [reflexivity|].
      rewrite IHl. now destruct (indexOf c l'). }
    now destruct (indexOf c (x :: l)).
  - destruct indices as [|x l]; [reflexivity|]. simpl.
    rewrite (Ascii.eqb_sym c x). destruct (Ascii.eqb x c); [reflexivity|].
    rewrite IH. now destruct (indexOf c l).
Qed.

#[local] Arguments withStaticChild : simpl never.

(** *** Tokens *)

Lemma str_take_all (s : string) : str_take (String.length s) s = s.
Proof. induction s as [|c s IH]; simpl; [reflexivity | now rewrite IH]. Qed.

Lemma str_drop_all (s : string) : str_drop (String.length s) s = "".
Proof. induction s as [|c s IH]; simpl; [reflexivity | exact IH]. Qed.

Lemma IndexByte_lt (s : string) (c : ascii) (k : nat) :
  IndexByte s c = Some k -> k < String.length s.
Proof.
  revert k; induction s as [|d s IH]; intros k Hi; [discriminate|].
  unfold IndexByte in Hi; fold (IndexByte s c) in Hi. simpl.
  destruct (Ascii.eqb d c); [injection Hi as <-; lia|].
  destruct (IndexByte s c) as [j|]; [|discriminate].
  injection Hi as <-. specialize (IH j eq_refl). lia.
Qed.

Lemma IndexByte_take_self (s : string) (c : ascii) (k : nat) :
  IndexByte s c = Some k -> IndexByte (str_take k s) c = None.
Proof.
  revert k; induction s as [|d s IH]; intros k Hi; [discriminate|].
  unfold IndexByte in Hi; fold (IndexByte s c) in Hi.
  destruct (Ascii.eqb d c) eqn:E; [now injection Hi as <-|].
  destruct (IndexByte s c) as [j|]; [|discriminate]. injection Hi as <-.
  simpl. unfold IndexByte; fold (IndexByte (str_take j s) c).
  now rewrite E, (IH j eq_refl).
Qed.

Lemma tokenOf_spec (c : ascii) (rest : string) :
  exists tok e, tokenOf c (String c rest) = (tok, e)
    /\ tok = str_take e (String c rest)
    /\ 1 <= e <= S (String.length rest)
    /\ firstByte tok = Some c
    /\ withinToken tok
    /\ (firstByte (str_drop e (String c rest)) = None
        \/ firstByte (str_drop e (String c rest)) = Some slash
        \/ c = slash).
Proof.
  unfold tokenOf. destruct (Ascii.eqb c slash) eqn:E.
  - apply ascii_eqb_true in E as ->. exists "/", 1. simpl.
    repeat split; try lia; [now left | now right; right].
  - destruct (IndexByte (String c rest) slash) as [k|] eqn:Hk.
    + pose proof (IndexByte_lt _ _ _ Hk) as Hlt. simpl in Hlt.
      pose proof (IndexByte_take_self _ _ _ Hk) as Hts.
      rewrite IndexByte_cons_ne in Hk by now apply ascii_eqb_false.
      destruct (IndexByte rest slash) as [j|] eqn:Hj0; [|discriminate].
      injection Hk as <-.
      eexists _, _. split; [reflexivity|]. simpl. repeat split; try lia.
      * right. exact Hts.
      * right. left. clear -Hj0. revert j Hj0.
        induction rest as [|d r IH]; intros j Hj; [discriminate|].
        unfold IndexByte in Hj; fold (IndexByte r slash) in Hj.
        destruct (Ascii.eqb d slash) eqn:Ed.
        -- injection Hj as <-. simpl. now apply ascii_eqb_true in Ed as ->.
        -- destruct (IndexByte r slash) as [j'|] eqn:Ej; [|discriminate].
           injection Hj as <-. simpl. now apply IH.
    + exists (String c rest), (String.length (String c rest)).
      split; [reflexivity|]. rewrite str_take_all. simpl. repeat split; try lia.
      * right. exact Hk.
      * left. now rewrite str_drop_all.
Qed.

Lemma unescapeToken_spec (inStaticToken : bool) (c : ascii) (tok : string) :
  firstByte tok = Some c ->
  exists c' tok' unescaped, unescapeToken inStaticToken c tok = (c', tok', unescaped)
    /\ firstByte tok' = Some c'
    /\ (withinToken tok -> withinToken tok')
    /\ (if unescaped
        then tok = String backslash tok' /\ inStaticToken = false
             /\ (c' = star \/ c' = colon \/ c' = backslash)
        else tok' = tok /\ c' = c).
Proof.
  intros Hc. unfold unescapeToken.
  destruct tok as [|t0 [|t1 rest]]; try (eexists _, _, false; split; [reflexivity|done]).
  destruct (negb inStaticToken && Ascii.eqb t0 backslash
            && (Ascii.eqb t1 star || Ascii.eqb t1 colon || Ascii.eqb t1 backslash))
    eqn:E; [|eexists _, _, false; split; [reflexivity|done]].
  eexists _, _, true. split; [reflexivity|]. split; [reflexivity|].
  apply andb_true_iff in E as [[Hs Hb]%andb_true_iff Hm].
  apply ascii_eqb_true in Hb as ->. apply negb_true_iff in Hs as ->.
  split.
  { intros [[=]|Hn]. right. rewrite IndexByte_cons_ne in Hn by discriminate.
    now destruct (IndexByte (String t1 rest) slash). }
  repeat split.
  apply orb_true_iff in Hm as [[Hm|Hm]%orb_true_iff|Hm];
    apply ascii_eqb_true in Hm; auto.
Qed.

(** *** Splitting a segment *)

Lemma plain_cons (c : ascii) (s : string) :
  plain (String c s) = true -> runeWidth (String c s) = 1 /\ plain s = true.
Proof.
  simpl. intros [Hc Hs]%andb_true_iff. split; [|exact Hs].
  apply Nat.ltb_lt in Hc.
  assert (forall lo hi, 128 <= lo -> byteIn lo hi c = false) as Hout.
  { intros lo hi Hlo. unfold byteIn. apply andb_false_iff. left.
    apply Nat.leb_gt. lia. }
  destruct s as [|b1 rest]; [reflexivity|].
  rewrite !Hout by lia. reflexivity.
Qed.

Lemma plain_str_take (j : nat) (s : string) :
  plain s = true -> plain (str_take j s) = true.
Proof.
  revert j; induction s as [|c s IH]; intros [|j] Hp; try reflexivity.
  simpl in Hp |- *. apply andb_true_iff in Hp as [Hc Hs].
  rewrite Hc. cbn [andb]. now apply IH.
Qed.

Lemma plain_str_drop (j : nat) (s : string) :
  plain s = true -> plain (str_drop j s) = true.
Proof.
  revert j; induction s as [|c s IH]; intros [|j] Hp; try assumption;
    try reflexivity.
  simpl in Hp |- *. apply andb_true_iff in Hp as [_ Hs]. now apply IH.
Qed.

Lemma plain_append (a b : string) :
  plain (a +:+ b) = plain a && plain b.
Proof.
  induction a as [|c a IH]; [reflexivity|].
  rewrite append_cons. simpl. rewrite IH. now rewrite andb_assoc.
Qed.

(** On a child segment of ASCII bytes the range visits every index, and
    the loop finds the common prefix of the two strings. *)
Lemma commonPrefixLoop_plain (cp tok : string) (i last : nat) :
  plain cp = true -> last = i - 1 ->
  commonPrefixLoop cp (Some tok) 0 i last = Ok (commonBytes cp tok i).
Proof.
  revert tok i last; induction cp as [|c cp IH]; intros tok i last Hp ->;
    [reflexivity|].
  destruct (plain_cons _ _ Hp) as [Hw Hcp].
  cbn [commonPrefixLoop commonBytes]. destruct tok as [|d tok]; [reflexivity|].
  destruct (Ascii.eqb d c); [|reflexivity].
  rewrite Hw. cbn [tailOpt Nat.sub]. apply IH; [exact Hcp|lia].
Qed.

Lemma commonBytes_spec (cp tok : string) (i0 : nat) :
  HasPrefix tok cp = false ->
  exists j, commonBytes cp tok i0 = i0 + j
    /\ j < String.length cp /\ j <= String.length tok
    /\ str_take j tok = str_take j cp
    /\ (forall x, firstByte cp = Some x -> firstByte tok = Some x -> 1 <= j)
    /\ firstByte (str_drop j tok) <> firstByte (str_drop j cp).
Proof.
  revert tok i0; induction cp as [|c cp IH]; intros tok i0 Hp; [discriminate|].
  destruct tok as [|d tok]; simpl.
  - exists 0. repeat split; try lia; discriminate.
  - simpl in Hp. rewrite (Ascii.eqb_sym d c). destruct (Ascii.eqb c d) eqn:E.
    + apply ascii_eqb_true in E as ->. simpl in Hp.
      destruct (IH tok (S i0) Hp) as (j & Hj & Hlt & Hle & Ht & _ & Hne).
      exists (S j). simpl. rewrite Ht. repeat split; try lia. exact Hne.
    + exists 0. simpl. repeat split; try lia.
      * intros x [= ->] [= ->]. now rewrite Ascii.eqb_refl in E.
      * intros [= ->]. now rewrite Ascii.eqb_refl in E.
Qed.

Lemma firstByte_str_take (j : nat) (s : string) :
  1 <= j -> firstByte (str_take j s) = firstByte s.
Proof. destruct j; [lia|]. now destruct s. Qed.

Lemma str_drop_nonempty (j : nat) (s : string) :
  j < String.length s -> exists c rest, str_drop j s = String c rest.
Proof.
  revert s; induction j as [|j IH]; intros [|c s] Hl; simpl in *; try lia.
  - now exists c, s.
  - apply IH. lia.
Qed.

(** What [splitCommonPrefix] returns. *)
Lemma splitCommonPrefix_spec (n : node) (i : nat) (tok : string) (ch : node) :
  staticChild n !! i = Some ch -> plain (path ch) = true ->
  (HasPrefix tok (path ch) = true
   /\ splitCommonPrefix n i tok = Ok (n, ch, String.length (path ch)))
  \/ (HasPrefix tok (path ch) = false
      /\ exists j c0 rest,
           j < String.length (path ch) /\ j <= String.length tok
           /\ str_take j tok = str_take j (path ch)
           /\ str_drop j (path ch) = String c0 rest
           /\ (forall x, firstByte (path ch) = Some x ->
                 firstByte tok = Some x -> 1 <= j)
           /\ firstByte (str_drop j tok) <> Some c0
           /\ splitCommonPrefix n i tok =
              Ok (setStaticChildAt n i
                    (mkNode "" (str_take j tok) (priority ch) [c0]
                       [setPath ch (String c0 rest)] None None false false
                       None None),
                  mkNode "" (str_take j tok) (priority ch) [c0]
                    [setPath ch (String c0 rest)] None None false false
                    None None,
                  j)).
Proof.
  intros Hch Hplain. unfold splitCommonPrefix. rewrite Hch.
  destruct (HasPrefix tok (path ch)) eqn:Hp; [left; done | right].
  split; [reflexivity|].
  rewrite (commonPrefixLoop_plain _ _ 0 0 Hplain eq_refl). cbn [bind].
  destruct (commonBytes_spec _ _ 0 Hp) as (j & Hj & Hlt & Hle & Ht & H1 & Hne).
  simpl in Hj. rewrite Hj.
  destruct (str_drop_nonempty j (path ch) Hlt) as (c0 & rest & Hd).
  exists j, c0, rest. repeat split; try done.
  - now rewrite Hd in Hne.
  - simpl. rewrite Hd. reflexivity.
Qed.

(** *** Reordering the static children *)

Lemma adjacent_decompose {A} (l : list A) (j : nat) (a b : A) :
  l !! j = Some b -> l !! S j = Some a ->
  l = take j l ++ b :: a :: drop (S (S j)) l.
Proof.
  intros Hb Ha. rewrite <- (take_drop_middle l j b Hb) at 1.
  now rewrite (drop_S l a (S j) Ha).
Qed.

Lemma adjacent_swap {A} (l1 l2 : list A) (a b : A) :
  <[length l1 := a]> (<[S (length l1) := b]> (l1 ++ b :: a :: l2))
  = l1 ++ a :: b :: l2.
Proof.
  rewrite (insert_app_r_alt l1 _ (S (length l1))) by lia.
  replace (S (length l1) - length l1) with 1 by lia. simpl.
  rewrite insert_app_r_alt by lia.
  now replace (length l1 - length l1) with 0 by lia.
Qed.

Lemma zip_adjacent_swap {A B} (l : list A) (k : list B) (j : nat)
    (a b : A) (a' b' : B) :
  length l = length k ->
  l !! j = Some b -> l !! S j = Some a ->
  k !! j = Some b' -> k !! S j = Some a' ->
  zip (<[j := a]> (<[S j := b]> l)) (<[j := a']> (<[S j := b']> k))
  ≡ₚ zip l k.
Proof.
  intros Hlen Hb Ha Hb' Ha'.
  pose proof (lookup_lt_Some _ _ _ Ha) as Hlt.
  pose proof (adjacent_decompose l j a b Hb Ha) as El.
  pose proof (adjacent_decompose k j a' b' Hb' Ha') as Ek.
  assert (length (take j l) = j) as Hl1 by (rewrite length_take; lia).
  assert (length (take j k) = j) as Hk1 by (rewrite length_take; lia).
  revert El Ek Hl1 Hk1.
  generalize (take j l) (drop (S (S j)) l) (take j k) (drop (S (S j)) k).
  intros l1 l2 k1 k2 -> -> <- Hk1.
  rewrite adjacent_swap. rewrite <- Hk1, adjacent_swap.
  rewrite !zip_with_app by lia. simpl.
  apply Permutation_app_head, perm_swap.
Qed.

Lemma sortStaticChild_spec (n : node) (i : nat) :
  i < length (staticChild n) ->
  length (staticIndices n) = length (staticChild n) ->
  exists si sc j,
    sortStaticChild n i = Ok (setStatic n si sc, j)
    /\ j <= i
    /\ sc !! j = staticChild n !! i
    /\ si !! j = staticIndices n !! i
    /\ length si = length sc
    /\ zip si sc ≡ₚ statics n.
Proof.
  revert n; induction i as [|j IH]; intros n Hi Hlen.
  - exists (staticIndices n), (staticChild n), 0. simpl.
    repeat split; try done. now destruct n.
  - simpl.
    destruct (lookup_lt_is_Some_2 (staticChild n) (S j)) as [ci Hci]; [lia|].
    destruct (lookup_lt_is_Some_2 (staticChild n) j) as [cj Hcj]; [lia|].
    destruct (lookup_lt_is_Some_2 (staticIndices n) (S j)) as [xi Hxi]; [lia|].
    destruct (lookup_lt_is_Some_2 (staticIndices n) j) as [xj Hxj]; [lia|].
    rewrite Hci, Hcj.
    destruct (priority cj <? priority ci)%nat.
    + rewrite Hxi, Hxj.
      set (n2 := setStatic n _ _).
      destruct (IH n2) as (si & sc & j' & Hs & Hle & Hc & Hx & Hl & Hp).
      { simpl. rewrite !length_insert. lia. }
      { simpl. rewrite !length_insert. lia. }
      exists si, sc, j'. rewrite Hs. split; [reflexivity|].
      split; [lia|]. simpl in Hc, Hx.
      rewrite list_lookup_insert_eq in Hc by (rewrite length_insert; lia).
      rewrite list_lookup_insert_eq in Hx by (rewrite length_insert; lia).
      repeat split; try done; try congruence.
      rewrite Hp. unfold statics, n2. simpl.
      now apply zip_adjacent_swap.
    + exists (staticIndices n), (staticChild n), (S j).
      repeat split; try done. now destruct n.
Qed.

#[local] Arguments sortStaticChild : simpl never.

(** *** Well-formed nodes *)

Lemma Forall2_zip {A B} (P : A -> B -> Prop) (l : list A) (k : list B) :
  Forall2 P l k <->
  length l = length k /\ Forall (fun p => P p.1 p.2) (zip l k).
Proof.
  split.
  - induction 1 as [|x y l k Hxy Hlk [IH1 IH2]]; simpl; [by split|].
    split; [congruence | by constructor].
  - revert k; induction l as [|x l IH]; intros [|y k] [Hlen Hall];
      simpl in *; try discriminate; [constructor|].
    inversion Hall; subst. constructor; [done|]. apply IH. split; [lia|done].
Qed.

Lemma WF_inv (k : nat) (n : node) :
  WF k n ->
  Forall2 (fun x c => slotOK x c /\ WF k c)
    (staticIndices n) (staticChild n)
  /\ NoDup (staticIndices n)
  /\ (forall w, wildcardChild n = Some w -> WF (S k) w)
  /\ (forall ca, catchAllChild n = Some ca ->
        nodeHandlerMap ca <> None /\ length (names_of ca) = S k
        /\ childless ca)
  /\ (forall names, leafWildcardNames n = Some names -> length names = k)
  /\ (nodeHandlerMap n <> None -> length (names_of n) = k).
Proof. intros Hwf. inversion Hwf; subst. do 5 (split; [assumption|]). assumption. Qed.

Lemma WF_newNode (k : nat) (p : string) : WF k (newNode p).
Proof.
  constructor; simpl; try discriminate; [constructor|constructor|];
    intros Hn; now contradiction Hn.
Qed.

(** Well-formedness does not read the node's own segment, priority, route
    or slash flag. *)
Lemma WF_same_below (k : nat) (n n' : node) :
  WF k n ->
  staticIndices n' = staticIndices n ->
  staticChild n' = staticChild n ->
  wildcardChild n' = wildcardChild n ->
  catchAllChild n' = catchAllChild n ->
  (forall names, leafWildcardNames n' = Some names -> length names = k) ->
  (nodeHandlerMap n' <> None -> length (names_of n') = k) ->
  WF k n'.
Proof.
  intros (Hs & Hnd & Hw & Hc & Hn & Hh)%WF_inv Esi Esc Ew Ec En Hh'.
  constructor; rewrite ?Esi, ?Esc, ?Ew, ?Ec; assumption.
Qed.

Lemma WF_names_length (k : nat) (n : node) :
  WF k n -> k = 0 -> length (names_of n) = 0.
Proof.
  intros (_ & _ & _ & _ & Hn & _)%WF_inv ->. unfold names_of.
  destruct (leafWildcardNames n) as [names|]; [now apply Hn | reflexivity].
Qed.

Lemma WF_setStatic (k : nat) (n : node) (si : list ascii) (sc : list node) :
  WF k n ->
  length si = length sc ->
  Forall (fun p => slotOK p.1 p.2 /\ WF k p.2) (zip si sc) ->
  NoDup si ->
  WF k (setStatic n si sc).
Proof.
  intros (_ & _ & Hw & Hc & Hn & Hh)%WF_inv Hlen Hall Hnd.
  constructor; simpl; try assumption.
  apply Forall2_zip. split; assumption.
Qed.

Lemma WF_statics (k : nat) (n : node) :
  WF k n ->
  length (staticIndices n) = length (staticChild n)
  /\ Forall (fun p => slotOK p.1 p.2 /\ WF k p.2) (statics n).
Proof. intros (Hs & _)%WF_inv. apply Forall2_zip in Hs. exact Hs. Qed.

Lemma WF_static_child (k : nat) (n : node) (i : nat) (c : ascii) :
  WF k n -> staticIndices n !! i = Some c ->
  exists ch, staticChild n !! i = Some ch
    /\ slotOK c ch /\ WF k ch.
Proof.
  intros (Hs & _)%WF_inv Hi.
  destruct (Forall2_lookup_l _ _ _ _ _ Hs Hi) as (ch & Hch & Hp & Hw).
  exists ch. split; [exact Hch|]. split; assumption.
Qed.

Lemma setStaticChildAt_id (n : node) (i : nat) (ch : node) :
  staticChild n !! i = Some ch -> setStaticChildAt n i ch = n.
Proof.
  intros Hch. unfold setStaticChildAt, setStatic.
  rewrite (list_insert_id _ _ _ Hch). now destruct n.
Qed.

Lemma setStaticChildAt_twice (n : node) (i : nat) (a b : node) :
  setStaticChildAt (setStaticChildAt n i a) i b = setStaticChildAt n i b.
Proof.
  unfold setStaticChildAt, setStatic; simpl. now rewrite list_insert_insert_eq.
Qed.

Lemma WF_setStaticChildAt (k : nat) (n : node) (i : nat) (x : ascii)
    (ch : node) :
  WF k n -> staticIndices n !! i = Some x ->
  slotOK x ch -> WF k ch ->
  WF k (setStaticChildAt n i ch).
Proof.
  intros Hwf Hi Hp Hch.
  pose proof Hwf as (Hs & Hnd & Hw & Hc & Hn & Hh)%WF_inv.
  constructor; simpl; try assumption.
  rewrite <- (list_insert_id _ _ _ Hi). apply Forall2_insert; [exact Hs|].
  split; assumption.
Qed.

Lemma fst_zip_same_length {A B} (l : list A) (k : list B) :
  length l = length k -> (zip l k).*1 = l.
Proof. intros Hl. apply fst_zip. lia. Qed.

(** The node after the descent into the static child that the sort left in
    slot [j]. *)
Lemma WF_after_descent (k : nat) (n2 : node) (si : list ascii)
    (sc : list node) (j : nat) (child1 child' : node) :
  WF k n2 -> length si = length sc -> zip si sc ≡ₚ statics n2 ->
  sc !! j = Some child1 -> WF k child' -> path child' = path child1 ->
  WF k (setStaticChildAt (setStatic n2 si sc) j child').
Proof.
  intros Hwf Hlen Hperm Hj Hch Hp.
  destruct (WF_statics _ _ Hwf) as [Hlen2 Hall].
  assert (Forall2 (fun x c => slotOK x c /\ WF k c) si sc)
    as Hall'.
  { apply Forall2_zip. split; [done|]. now rewrite Hperm. }
  destruct (Forall2_lookup_r _ _ _ _ _ Hall' Hj) as (x & Hx & Hpx & _).
  apply WF_setStaticChildAt with x; simpl;
    [|exact Hx|unfold slotOK; rewrite Hp; exact Hpx|exact Hch].
  apply WF_setStatic; [exact Hwf|exact Hlen| |].
  - now rewrite Hperm.
  - rewrite <- (fst_zip_same_length si sc Hlen), Hperm.
    unfold statics. rewrite fst_zip_same_length by exact Hlen2.
    apply WF_inv in Hwf as (_ & Hnd & _). exact Hnd.
Qed.

Lemma firstByte_length (s : string) (c : ascii) :
  firstByte s = Some c -> 1 <= String.length s.
Proof. destruct s; [discriminate | simpl; lia]. Qed.

Lemma HasPrefix_length (s pre : string) :
  HasPrefix s pre = true -> String.length pre <= String.length s.
Proof. intros [rest ->]%HasPrefix_app. rewrite length_append. lia. Qed.

Lemma IndexByte_None_take (s : string) (c : ascii) (j : nat) :
  IndexByte s c = None -> IndexByte (str_take j s) c = None.
Proof.
  revert j; induction s as [|d s IH]; intros [|j] Hn; try reflexivity.
  unfold IndexByte in Hn; fold (IndexByte s c) in Hn. simpl.
  unfold IndexByte; fold (IndexByte (str_take j s) c).
  destruct (Ascii.eqb d c); [discriminate|].
  destruct (IndexByte s c) eqn:E; [discriminate|]. now rewrite IH.
Qed.

Lemma IndexByte_None_drop (s : string) (c : ascii) (j : nat) :
  IndexByte s c = None -> IndexByte (str_drop j s) c = None.
Proof.
  revert j; induction s as [|d s IH]; intros [|j] Hn; try done.
  unfold IndexByte in Hn; fold (IndexByte s c) in Hn. simpl.
  destruct (Ascii.eqb d c); [discriminate|].
  destruct (IndexByte s c) eqn:E; [discriminate|]. now apply IH.
Qed.

Lemma splitCommonPrefix_WF (k : nat) (n : node) (i : nat) (tok : string)
    (c : ascii) :
  WF k n -> staticIndices n !! i = Some c -> firstByte tok = Some c ->
  plain tok = true ->
  exists child0 ps,
    splitCommonPrefix n i tok = Ok (setStaticChildAt n i child0, child0, ps)
    /\ WF k child0 /\ slotOK c child0
    /\ 1 <= ps <= String.length tok.
Proof.
  intros Hwf Hi Htok Hplain.
  destruct (WF_static_child k n i c Hwf Hi)
    as (ch & Hch & (Hchp & Hcht & Hchpl) & Hchwf).
  destruct (splitCommonPrefix_spec n i tok ch Hch Hchpl)
    as [[Hp Hs]|(Hp & j & c0 & rest0 & Hj & Hjt & Ht & Hd & H1 & Hmis & Hs)].
  - exists ch, (String.length (path ch)).
    rewrite setStaticChildAt_id by exact Hch.
    split; [exact Hs|]. split; [exact Hchwf|].
    split; [split; [exact Hchp|split; [exact Hcht|exact Hchpl]]|]. split.
    + now apply firstByte_length in Hchp.
    + now apply HasPrefix_length.
  - eexists _, j. split; [exact Hs|]. simpl.
    specialize (H1 c Hchp Htok).
    assert (IndexByte (path ch) slash = None) as Hns.
    { destruct Hcht as [E|E]; [|exact E]. rewrite E in Hj. simpl in Hj. lia. }
    split; [|split; [|split; [exact H1|exact Hjt]]].
    + constructor; simpl; try discriminate.
      * constructor; [|constructor]. split.
        -- split; [reflexivity|]. split.
           ++ right. simpl. rewrite <- Hd. now apply IndexByte_None_drop.
           ++ change (plain (String c0 rest0) = true). rewrite <- Hd.
              now apply plain_str_drop.
        -- apply WF_inv in Hchwf as (Hs1 & Hs2 & Hs3 & Hs4 & Hs5 & Hs6).
           constructor; simpl; assumption.
      * apply NoDup_singleton.
      * intros Hn. now contradiction Hn.
    + split; [|split]; simpl.
      * now rewrite firstByte_str_take.
      * right. rewrite Ht. now apply IndexByte_None_take.
      * now apply plain_str_take.
Qed.

Lemma length_appendName (ws : option (list string)) (tok : string) :
  length (appendName ws tok) = S (length (default [] ws)).
Proof. destruct ws as [l|]; simpl; [rewrite length_app; simpl; lia | done]. Qed.

Lemma addPath_WF (onLeaf : node -> res node) :
  leafUpdate onLeaf ->
  forall fuel n pth ws ist k,
    String.length pth < fuel -> WF k n -> length (default [] ws) = k ->
    plain pth = true ->
    match addPath fuel onLeaf n pth ws ist with
    | Ok n' => WF k n' /\ path n' = path n /\ priority n' = priority n
    | Panic _ => True
    | OutOfFuel => False
    end.
Proof.
  intros Hleaf. induction fuel as [|fuel IH];
    intros n pth ws ist k Hlen Hwf Hws Hpl; [lia|].
  destruct pth as [|c rest].
  - (* the leaf *)
    simpl. destruct ws as [wsl|]; simpl in *.
    + destruct (leafWildcardNames n) as [old|] eqn:En.
      * destruct (length old =? length wsl)%nat eqn:El; simpl; [|done].
        destruct (sameNames old wsl); simpl; [|done].
        specialize (Hleaf n). destruct (onLeaf n) as [l'| |]; [|done|done].
        destruct Hleaf as (Hp & Hpr & Hsi & Hsc & Hw & Hc & Hn & Hh).
        split; [|done]. apply Nat.eqb_eq in El.
        apply WF_same_below with n; try done.
        -- intros names. rewrite Hn, En. intros [= <-]. lia.
        -- intros _. unfold names_of. rewrite Hn, En. simpl. lia.
      * simpl. specialize (Hleaf (setLeafWildcardNames n (Some wsl))).
        destruct (onLeaf _) as [l'| |]; [|done|done].
        destruct Hleaf as (Hp & Hpr & Hsi & Hsc & Hw & Hc & Hn & Hh).
        split; [|done].
        apply WF_same_below with n; try done.
        -- intros names. rewrite Hn. simpl. now intros [= <-].
        -- intros _. unfold names_of. now rewrite Hn.
    + specialize (Hleaf n). destruct (onLeaf n) as [l'| |]; [|done|done].
      destruct Hleaf as (Hp & Hpr & Hsi & Hsc & Hw & Hc & Hn & Hh).
      split; [|done]. subst k.
      apply WF_same_below with n; try done.
      -- intros names. rewrite Hn.
         apply WF_inv in Hwf as (_ & _ & _ & _ & Hnn & _). apply Hnn.
      -- intros _. unfold names_of. rewrite Hn. now apply (WF_names_length 0).
  - simpl. destruct (tokenOf_spec c rest) as (tok & e & Ht & Htok & He & Hfb & Hwt & _).
    rewrite Ht.
    assert (plain tok = true) as Hpltok by (rewrite Htok; now apply plain_str_take).
    assert (forall m, plain (str_drop m (String c rest)) = true) as Hpldrop
      by (intros m; now apply plain_str_drop).
    pose proof Hwf as (Hs & Hnd & Hw & Hc & Hn & Hh)%WF_inv.
    destruct (Ascii.eqb c star && negb ist) eqn:Ecatch.
    + (* a catch-all *)
      set (cat := match catchAllChild n with Some ca => ca | None => _ end).
      destruct (negb (String.eqb rest (path cat))); [exact I|].
      destruct (notNil (IndexByte (String c rest) slash)); [exact I|].
      specialize (Hleaf (setLeafWildcardNames cat
                           (Some (appendName ws (str_drop 1 tok))))).
      destruct (onLeaf _) as [leaf| |]; simpl; [|exact I|exact Hleaf].
      destruct Hleaf as (Hp' & Hpr' & Hsi' & Hsc' & Hw' & Hc' & Hn' & Hh').
      split; [|split; reflexivity].
      constructor; simpl; try assumption.
      intros ca [= <-]. split; [exact Hh'|]. split.
      { unfold names_of. rewrite Hn'. simpl. rewrite length_appendName. lia. }
      unfold childless. rewrite Hsi', Hsc', Hw', Hc'. simpl. unfold cat.
      destruct (catchAllChild n) as [ca|] eqn:Eca;
        [apply (Hc ca eq_refl) | repeat split].
    + destruct (Ascii.eqb c colon && negb ist) eqn:Ewild.
      * (* a wildcard *)
        set (wild := match wildcardChild n with Some w => w | None => _ end).
        assert (WF (S k) wild) as Hwild.
        { unfold wild. destruct (wildcardChild n) as [w|] eqn:Ew;
            [now apply Hw | apply WF_newNode]. }
        specialize (IH wild (str_drop e (String c rest))
                      (Some (appendName ws (str_drop 1 tok))) false (S k)).
        destruct (addPath fuel onLeaf wild _ _ _) as [w'| |]; simpl.
        -- destruct IH as (Hw1 & _); [| exact Hwild | | apply Hpldrop | ].
           ++ rewrite length_str_drop. simpl in *. lia.
           ++ simpl. rewrite length_appendName. lia.
           ++ split; [|split; reflexivity].
              constructor; simpl; try assumption.
              intros w [= <-]. exact Hw1.
        -- exact I.
        -- apply IH; [| exact Hwild | | apply Hpldrop].
           ++ rewrite length_str_drop. simpl in *. lia.
           ++ simpl. rewrite length_appendName. lia.
      * (* a static token *)
        destruct (unescapeToken_spec ist c tok Hfb)
          as (c' & tok' & un & Hu & Hfb' & Hwt' & Hun).
        specialize (Hwt' Hwt).
        assert (plain tok' = true) as Hpltok'.
        { destruct un; [|destruct Hun as [-> _]; exact Hpltok].
          destruct Hun as (Heq & _). rewrite Heq in Hpltok. exact Hpltok. }
        rewrite Hu.
        destruct (indexOf c' (staticIndices n)) as [i|] eqn:Ei.
        -- destruct (indexOf_Some _ _ _ Ei) as [Hi _].
           destruct (splitCommonPrefix_WF k n i tok' c' Hwf Hi Hfb' Hpltok')
             as (child0 & ps & Hsplit & Hwf0 & Hp0 & Hps).
           rewrite Hsplit. simpl. rewrite setStaticChildAt_twice.
           set (child1 := setPriority child0 (S (priority child0))).
           assert (WF k child1) as Hwf1.
           { apply WF_inv in Hwf0 as (Hs1 & Hs2 & Hs3 & Hs4 & Hs5 & Hs6).
             constructor; simpl; assumption. }
           assert (WF k (setStaticChildAt n i child1)) as Hwf2
             by (apply WF_setStaticChildAt with c'; assumption).
           pose proof (lookup_lt_Some _ _ _ Hi) as Hilt.
           pose proof (Forall2_length _ _ _ Hs) as Hlen2.
           destruct (sortStaticChild_spec (setStaticChildAt n i child1) i)
             as (si & sc & j & Hsort & Hle & Hscj & Hsij & Hl & Hperm).
           { simpl. rewrite length_insert. lia. }
           { simpl. rewrite length_insert. lia. }
           rewrite Hsort. simpl.
           simpl in Hscj. rewrite list_lookup_insert_eq in Hscj by lia.
           rewrite Hscj.
           set (ps' := if un then S ps else ps).
           specialize (IH child1 (str_drop ps' (String c rest)) ws
                         (negb (Ascii.eqb c' slash)) k).
           assert (String.length (str_drop ps' (String c rest)) < fuel) as Hfuel.
           { rewrite length_str_drop. unfold ps'. simpl in *.
             destruct un; lia. }
           destruct (addPath fuel onLeaf child1 _ _ _) as [child'| |]; simpl.
           ++ destruct IH as (Hw1 & Hp1 & _);
                [exact Hfuel|exact Hwf1|exact Hws|apply Hpldrop|].
              split; [|split; reflexivity].
              apply (WF_after_descent k (setStaticChildAt n i child1) si sc j child1);
                assumption.
           ++ exact I.
           ++ apply IH; [exact Hfuel|exact Hwf1|exact Hws|apply Hpldrop].
        -- (* a new static child *)
           specialize (IH (newNode tok') (str_drop e (String c rest)) ws
                         (negb (Ascii.eqb c' slash)) k).
           assert (String.length (str_drop e (String c rest)) < fuel) as Hfuel.
           { rewrite length_str_drop. simpl in *. lia. }
           destruct (addPath fuel onLeaf (newNode tok') _ _ _) as [child'| |];
             simpl.
           ++ destruct IH as (Hw1 & Hp1 & _);
                [exact Hfuel|apply WF_newNode|exact Hws|apply Hpldrop|].
              split; [|split; reflexivity].
              pose proof (Forall2_length _ _ _ Hs) as Hlen2.
              apply WF_setStatic; [exact Hwf| | |].
              ** rewrite !length_app. simpl. lia.
              ** rewrite zip_with_app by exact Hlen2. apply Forall_app. split.
                 --- apply Forall2_zip in Hs. apply Hs.
                 --- simpl. constructor; [|constructor]. simpl.
                     split; [|exact Hw1]. unfold slotOK. rewrite Hp1.
                     split; [exact Hfb'|split; [exact Hwt'|exact Hpltok']].
              ** apply NoDup_app. split; [exact Hnd|]. split.
                 --- intros x Hx Hx'. apply list_elem_of_singleton in Hx'. subst x.
                     now apply indexOf_None in Ei.
                 --- apply NoDup_singleton.
           ++ exact I.
           ++ apply IH; [exact Hfuel|apply WF_newNode|exact Hws|apply Hpldrop].
Qed.

(** *** Registration keeps the tree well formed *)

Lemma setHandler_fields (n : node) (verb : string) (handler : HandlerFunc)
    (implicit : bool) (n' : node) :
  setHandler n verb handler implicit = Ok n' ->
  route n' = route n /\ path n' = path n /\ priority n' = priority n
  /\ staticIndices n' = staticIndices n /\ staticChild n' = staticChild n
  /\ wildcardChild n' = wildcardChild n /\ catchAllChild n' = catchAllChild n
  /\ leafWildcardNames n' = leafWildcardNames n
  /\ nodeHandlerMap n' <> None.
Proof.
  unfold setHandler. destruct (_ && _); [discriminate|].
  intros [= <-]. simpl. repeat split; discriminate.
Qed.

Lemma setHandler_not_OutOfFuel (n : node) (verb : string)
    (handler : HandlerFunc) (implicit : bool) :
  setHandler n verb handler implicit <> OutOfFuel.
Proof. unfold setHandler. destruct (_ && _); discriminate. Qed.

Lemma leafUpdate_addOneLeaf (t : TreeMux) (method : string)
    (handler : HandlerFunc) (slashFlag : bool) (fullPath : string) :
  leafUpdate (addOneLeaf t method handler slashFlag fullPath).
Proof.
  intros l. unfold addOneLeaf.
  set (node1 := if String.eqb (route l) "" then _ else _).
  assert (match node1 with
          | Ok n1 => path n1 = path l /\ priority n1 = priority l
              /\ staticIndices n1 = staticIndices l
              /\ staticChild n1 = staticChild l
              /\ wildcardChild n1 = wildcardChild l
              /\ catchAllChild n1 = catchAllChild l
              /\ leafWildcardNames n1 = leafWildcardNames l
          | Panic _ => True
          | OutOfFuel => False
          end) as H1.
  { unfold node1. destruct (String.eqb (route l) ""); simpl; [repeat split|].
    destruct (negb _); simpl; repeat split. }
  destruct node1 as [n1| |]; simpl; [|exact I|exact H1].
  destruct H1 as (Hp & Hpr & Hsi & Hsc & Hw & Hc & Hn).
  set (node2 := if slashFlag then setAddSlash n1 true else n1).
  assert (path node2 = path l /\ priority node2 = priority l
          /\ staticIndices node2 = staticIndices l
          /\ staticChild node2 = staticChild l
          /\ wildcardChild node2 = wildcardChild l
          /\ catchAllChild node2 = catchAllChild l
          /\ leafWildcardNames node2 = leafWildcardNames l) as H2.
  { unfold node2. destruct slashFlag; simpl; repeat split; assumption. }
  clearbody node2. destruct H2 as (Hp2 & Hpr2 & Hsi2 & Hsc2 & Hw2 & Hc2 & Hn2).
  destruct (setHandler node2 method handler false) as [n3| |] eqn:E3; simpl;
    [|exact I|now apply setHandler_not_OutOfFuel in E3].
  apply setHandler_fields in E3
    as (_ & Hp3 & Hpr3 & Hsi3 & Hsc3 & Hw3 & Hc3 & Hn3 & Hh3).
  destruct (nodeHandlerMap n3) as [hm|] eqn:Ehm; [|exact I].
  destruct (_ && _).
  - destruct (setHandler n3 MethodHead handler true) as [n4| |] eqn:E4;
      [|exact I|now apply setHandler_not_OutOfFuel in E4].
    apply setHandler_fields in E4
      as (_ & Hp4 & Hpr4 & Hsi4 & Hsc4 & Hw4 & Hc4 & Hn4 & Hh4).
    repeat split; try congruence.
  - repeat split; try congruence.
Qed.

Lemma plain_replaceFrom (old new : string) (skip : nat) (s : string) :
  plain new = true -> plain s = true ->
  plain (replaceFrom old new skip s) = true.
Proof.
  intros Hnew. revert skip; induction s as [|c s IH]; intros skip Hs;
    [reflexivity|].
  simpl in Hs. apply andb_true_iff in Hs as [Hc Hs]. simpl.
  destruct skip as [|k]; [|now apply IH].
  destruct (HasPrefix (String c s) old).
  - rewrite plain_append, Hnew. now apply IH.
  - simpl. rewrite Hc. now apply IH.
Qed.

Lemma plain_unescapeSpecial (s : string) :
  plain s = true -> plain (unescapeSpecial s) = true.
Proof.
  intros Hs. unfold unescapeSpecial, Replace.
  repeat (apply plain_replaceFrom; [reflexivity|]). exact Hs.
Qed.

Lemma plain_storedPath (t : TreeMux) (s : string) :
  plain s = true -> plain (snd (storedPath t s)) = true.
Proof.
  intros Hs. unfold storedPath.
  destruct (_ && _); cbn [snd]; [now apply plain_str_take|exact Hs].
Qed.

Lemma addOne_WF (t : TreeMux) (method : string) (handler : HandlerFunc)
    (slashFlag : bool) (fullPath : string) :
  WF 0 (root t) -> plain fullPath = true ->
  match addOne t method handler slashFlag fullPath with
  | Ok t' => WF 0 (root t')
             /\ HeadCanUseGet t' = HeadCanUseGet t
             /\ RedirectTrailingSlash t' = RedirectTrailingSlash t
             /\ EscapeAddedRoutes t' = EscapeAddedRoutes t
  | Panic _ => True
  | OutOfFuel => False
  end.
Proof.
  intros Hwf Hpl. unfold addOne.
  destruct fullPath as [|c0 p]; [exact I|]. unfold tail1. cbn [bind].
  simpl in Hpl. apply andb_true_iff in Hpl as [_ Hpl].
  pose proof (addPath_WF _ (leafUpdate_addOneLeaf t method handler slashFlag
                              (String c0 p))
                (S (String.length p)) (root t) p None false 0) as Ha.
  destruct (addPath _ _ _ _ _ _) as [r| |]; cbn [bind].
  - destruct Ha as (Hr & _); [lia|exact Hwf|reflexivity|exact Hpl|].
    split; [exact Hr|]. repeat split.
  - exact I.
  - apply Ha; [lia|exact Hwf|reflexivity|exact Hpl].
Qed.

Lemma Handle_WF (g : Group) (t : TreeMux) (method pth : string)
    (handler : HandlerFunc) :
  WF 0 (root t) -> plain (groupPath g +:+ pth) = true ->
  match Handle g t method pth handler with
  | Ok t' => WF 0 (root t')
             /\ HeadCanUseGet t' = HeadCanUseGet t
             /\ RedirectTrailingSlash t' = RedirectTrailingSlash t
             /\ EscapeAddedRoutes t' = EscapeAddedRoutes t
  | Panic _ => True
  | OutOfFuel => False
  end.
Proof.
  intros Hwf Hpl. unfold Handle.
  destruct (checkPath pth) as [[]| |] eqn:Ec; simpl; [|exact I|].
  2:{ unfold checkPath in Ec. destruct pth; [discriminate|].
      destruct (negb _) in Ec; discriminate. }
  destruct (_ =? 0)%nat; [exact I|].
  apply (plain_storedPath t) in Hpl.
  destruct (storedPath t _) as [slashFlag p]. cbn [snd] in Hpl.
  set (h := if (0 <? length (stack g))%nat then _ else _).
  set (t1 := if EscapeAddedRoutes t then _ else _).
  assert (match t1 with
          | Ok t' => WF 0 (root t')
              /\ HeadCanUseGet t' = HeadCanUseGet t
              /\ RedirectTrailingSlash t' = RedirectTrailingSlash t
              /\ EscapeAddedRoutes t' = EscapeAddedRoutes t
          | Panic _ => True
          | OutOfFuel => False
          end) as H1.
  { unfold t1. destruct (EscapeAddedRoutes t) eqn:Ee;
      [|split; [exact Hwf|repeat split; assumption]].
    destruct (RequestURIString p) as [u|] eqn:Eu; [|exact I].
    destruct (negb _); [|split; [exact Hwf|repeat split; assumption]].
    pose proof (addOne_WF t method h slashFlag (unescapeSpecial u) Hwf
                  (plain_unescapeSpecial _ (RequestURI_plain _ _ Hpl Eu))) as Hx.
    rewrite Ee in Hx. exact Hx. }
  destruct t1 as [t'| |]; simpl; [|exact I|exact H1].
  destruct H1 as (Hwf' & Hf1 & Hf2 & Hf3).
  pose proof (addOne_WF t' method h slashFlag p Hwf' Hpl) as H2.
  destruct (addOne t' method h slashFlag p) as [t''| |]; [|exact I|exact H2].
  destruct H2 as (Hwf'' & Hg1 & Hg2 & Hg3).
  split; [exact Hwf''|]. repeat split; congruence.
Qed.

Lemma WF_emptyMux (a b c : bool) : WF 0 (root (emptyMux a b c)).
Proof. apply WF_newNode. Qed.

Lemma registerAll_app (t : TreeMux) (rs1 rs2 : list registration) :
  registerAll t (rs1 ++ rs2) = (t1 <- registerAll t rs1 ;; registerAll t1 rs2).
Proof.
  revert t; induction rs1 as [|r rs1 IH]; intros t; simpl; [reflexivity|].
  destruct (Handle _ _ _ _ _) as [t'| |]; simpl; [apply IH|reflexivity..].
Qed.

Lemma registerAll_WF (t : TreeMux) (rs : list registration) :
  WF 0 (root t) -> Forall plainRoute rs ->
  match registerAll t rs with
  | Ok t' => WF 0 (root t')
  | Panic _ => True
  | OutOfFuel => False
  end.
Proof.
  revert t; induction rs as [|r rs IH]; intros t Hwf Hpl; simpl; [exact Hwf|].
  apply Forall_cons in Hpl as [Hr Hpl].
  pose proof (Handle_WF (regGroup r) t (regMethod r) (regPath r)
                (regHandler r) Hwf Hr) as Hh.
  destruct (Handle _ _ _ _ _) as [t'| |]; simpl; [|exact I|exact Hh].
  apply IH; [apply Hh|exact Hpl].
Qed.

Lemma WF_below (k : nat) (n m : node) :
  WF k n -> below n m -> distinctLeading m.
Proof.
  intros Hwf Hb. revert k Hwf. induction Hb as [n|n c m Hc Hb IH|n w m Hw Hb IH
                                                |n ca m Hca Hb IH]; intros k Hwf;
    pose proof Hwf as (Hs & Hnd & Hw' & Hc' & _)%WF_inv.
  - split; [exact Hnd|]. eapply Forall2_impl; [exact Hs|]. simpl.
    unfold slotOK. tauto.
  - apply list_elem_of_lookup in Hc as [i Hi].
    destruct (Forall2_lookup_r _ _ _ _ _ Hs Hi) as (x & _ & _ & Hwc).
    now apply (IH k).
  - apply (IH (S k)). now apply Hw'.
  - destruct (Hc' ca Hca) as (_ & _ & Hsi & Hsc & Hwn & Hcn).
    clear IH. inversion Hb; subst.
    + split; rewrite Hsi; [constructor | rewrite Hsc; constructor].
    + rewrite Hsc in *. now apply elem_of_nil in H0.
    + congruence.
    + congruence.
Qed.

(** *** What the matcher answers *)

Lemma answers_weaken (k : nat) (method : string)
    (M M' : node -> list string -> Prop) (r : result) :
  answers k method M r -> notNil (handler r) = true ->
  (forall l caps, M l caps -> M' l caps) ->
  answers k method M' r.
Proof.
  intros (Hs & Hf & Hh) Hn Himp. unfold answers.
  destruct (found r) as [l|] eqn:Ef.
  - destruct Hs as (caps & Hm & Hrest). split; [exists caps; split; auto|].
    split; [discriminate|]. intros Hnone. now rewrite Hnone in Hn.
  - destruct Hs as [Hnone _]. now rewrite Hnone in Hn.
Qed.

Lemma answers_ext (k : nat) (method : string)
    (M M' : node -> list string -> Prop) (r : result) :
  answers k method M r -> (forall l caps, M l caps <-> M' l caps) ->
  answers k method M' r.
Proof.
  intros (Hs & Hf & Hh) Hiff. unfold answers. split; [|split].
  - destruct (found r) as [l|]; [|exact Hs].
    destruct Hs as (caps & Hm & Hrest). exists caps. split; [now apply Hiff|auto].
  - intros Hn l caps Hm. apply (Hf Hn l caps). now apply Hiff.
  - intros Hn l caps Hm. apply (Hh Hn l caps). now apply Hiff.
Qed.

(** The choice the matcher makes between what it has ([r1], without a
    handler) and what the next kind of child offers ([r2]). *)
Lemma answers_choose (k : nat) (method : string)
    (M1 M2 : node -> list string -> Prop) (r1 r2 : result) :
  answers k method M1 r1 -> handler r1 = None -> answers k method M2 r2 ->
  answers k method (fun l caps => M1 l caps \/ M2 l caps)
    (if notNil (handler r2) || (negb (notNil (found r1)) && notNil (found r2))
     then r2 else r1).
Proof.
  intros (Hs1 & Hf1 & Hh1) Hn1 (Hs2 & Hf2 & Hh2).
  destruct (handler r2) as [h2|] eqn:Eh2; simpl.
  - unfold answers. split; [|split].
    + destruct (found r2) as [l|]; [|destruct Hs2; congruence].
      destruct Hs2 as (caps & Hm & Hrest). exists caps. rewrite Eh2. auto.
    + intros Hn. destruct (found r2); [discriminate|]. destruct Hs2; congruence.
    + rewrite Eh2. discriminate.
  - destruct (found r1) as [l1|] eqn:Ef1; simpl.
    + unfold answers. rewrite Ef1. split; [|split].
      * destruct Hs1 as (caps & Hm & Hrest). exists caps. auto.
      * discriminate.
      * intros _ l caps [Hm|Hm]; [now apply (Hh1 Hn1 l caps) | now apply (Hh2 eq_refl l caps)].
    + destruct (found r2) as [l2|] eqn:Ef2; simpl.
      * unfold answers. rewrite Ef2, Eh2. split; [|split].
        -- destruct Hs2 as (caps & Hm & Hrest). exists caps. auto.
        -- discriminate.
        -- intros _ l caps [Hm|Hm]; [now apply (Hf1 eq_refl) in Hm | now apply (Hh2 eq_refl l caps)].
      * unfold answers. rewrite Ef1. split; [exact Hs1|]. split.
        -- intros _ l caps [Hm|Hm]; [now apply (Hf1 eq_refl) in Hm | now apply (Hf2 eq_refl) in Hm].
        -- intros _ l caps [Hm|Hm]; [now apply (Hh1 Hn1 l caps) | now apply (Hh2 eq_refl l caps)].
Qed.

Lemma answers_noMatch (k : nat) (method : string)
    (M : node -> list string -> Prop) :
  (forall l caps, ~ M l caps) -> answers k method M noMatch.
Proof.
  intros Hno. unfold answers. simpl. split; [split; reflexivity|].
  split; intros _ l caps Hm; now apply Hno in Hm.
Qed.

Lemma paramName_lookup (l : node) (i : nat) (k : nat) :
  length (names_of l) = S (k + i) ->
  exists name, paramName l i = Ok name /\ names_of l !! k = Some name.
Proof.
  intros Hlen. unfold paramName. rewrite Hlen.
  destruct (decide (i < S (k + i))) as [_|Hn]; [|lia].
  replace (S (k + i) - 1 - i) with k by lia.
  destruct (lookup_lt_is_Some_2 (names_of l) k) as [name Hname]; [lia|].
  rewrite Hname. now exists name.
Qed.

Lemma length_paramsOf (k : nat) (l : node) (caps : list string) :
  length (names_of l) = k + length caps ->
  length (paramsOf k l caps) = length caps.
Proof.
  intros Hlen. unfold paramsOf.
  rewrite length_rev, length_zip_with, length_drop, length_fmap. lia.
Qed.

Lemma paramsOf_cons (k : nat) (l : node) (seg name : string)
    (caps : list string) :
  names_of l !! k = Some name ->
  paramsOf k l (seg :: caps)
  = paramsOf (S k) l caps ++ [mkParam name (unescapeOrRaw seg)].
Proof.
  intros Hname. unfold paramsOf.
  rewrite (drop_S _ _ _ Hname). reflexivity.
Qed.

(** The catch-all step. *)
Lemma searchCatchAll_answers (n : node) (k : nat) (method pth : string)
    (cur : result) (M : node -> list string -> Prop) :
  (forall ca, catchAllChild n = Some ca ->
     nodeHandlerMap ca <> None /\ length (names_of ca) = S k) ->
  answers k method M cur -> handler cur = None ->
  exists r, searchCatchAll n method pth cur = Ok r
    /\ answers k method
         (fun l caps => M l caps \/ (catchAllChild n = Some l /\ caps = [pth])) r.
Proof.
  intros Hca Hcur Hnone. unfold searchCatchAll.
  destruct (catchAllChild n) as [ca|] eqn:Eca.
  - destruct (Hca ca eq_refl) as [Hhm Hlen].
    destruct (nodeHandlerMap ca) as [hm|] eqn:Ehm; [clear Hhm|done].
    destruct (paramName_lookup ca 0 k) as (name & Hpn & Hname); [lia|].
    set (r2 := mkResult (Some ca) (hmGet hm method)
                 [mkParam name (unescapeOrRaw pth)]).
    assert (answers k method (fun l caps => Some ca = Some l /\ caps = [pth]) r2)
      as H2.
    { unfold answers, r2, handlerOf. simpl. split; [|split].
      - exists [pth]. rewrite Ehm. repeat split; try done.
        + simpl. lia.
        + rewrite (paramsOf_cons k ca pth name [] Hname). unfold Treemux.paramsOf.
          simpl. now rewrite zip_with_nil_r.
      - discriminate.
      - intros Hn l caps [[= <-] _]. now rewrite Ehm. }
    pose proof (answers_choose k method _ _ cur r2 Hcur Hnone H2) as Hch.
    simpl in Hch. rewrite andb_true_r in Hch.
    destruct (notNil (hmGet hm method) || negb (notNil (found cur))) eqn:Ec.
    + rewrite Hpn. simpl. now exists r2.
    + exists cur. split; [|exact Hch].
      apply orb_false_iff in Ec as [Ec _].
      destruct cur as [f h p]. simpl in *. subst h.
      destruct (hmGet hm method); [discriminate|]. reflexivity.
  - exists cur. split; [reflexivity|].
    apply (answers_ext k method M); [exact Hcur|].
    intros l caps. split; [auto|]. intros [Hm|[[=] _]]. exact Hm.
Qed.

(** A wildcard's answer seen from its parent. *)
Lemma wildcard_answers (k : nat) (method : string) (w : node)
    (seg rest : string) (wc : result) (wcNode : node) :
  answers (S k) method (matches w rest) wc -> found wc = Some wcNode ->
  exists name, paramName wcNode (length (params wc)) = Ok name
    /\ answers k method
         (fun l caps => exists caps', caps = seg :: caps' /\ matches w rest l caps')
         (mkResult (Some wcNode) (handler wc)
            (params wc ++ [mkParam name (unescapeOrRaw seg)])).
Proof.
  intros (Hs & Hf & Hh) Ef. rewrite Ef in Hs.
  destruct Hs as (caps & Hm & Hhm & Hhd & Hlen & Hp).
  destruct (paramName_lookup wcNode (length (params wc)) k) as (name & Hpn & Hname).
  { rewrite Hp, length_paramsOf by exact Hlen. lia. }
  exists name. split; [exact Hpn|]. unfold answers. simpl. split; [|split].
  - exists (seg :: caps). split; [now exists caps|]. split; [exact Hhm|].
    split; [exact Hhd|]. split; [simpl; lia|].
    rewrite (paramsOf_cons k wcNode seg name caps Hname). now rewrite Hp.
  - discriminate.
  - intros Hn l caps' (caps0 & -> & Hm'). now apply (Hh Hn l caps0).
Qed.

Lemma search_nil (n : node) (method : string) :
  search n method "" =
  match nodeHandlerMap n with
  | None => Ok noMatch
  | Some hm => Ok (mkResult (Some n) (hmGet hm method) [])
  end.
Proof. now destruct n. Qed.

Lemma search_cons (n : node) (method : string) (c : ascii) (rest : string) :
  search n method (String c rest) =
  (st <- withStaticChild c
           (fun child =>
              if (String.length (path child) <=? String.length (String c rest))%nat
                 && String.eqb (path child)
                      (str_take (String.length (path child)) (String c rest))
              then search child method
                     (str_drop (String.length (path child)) (String c rest))
              else Ok noMatch)
           (Panic IndexOutOfRange) (Ok noMatch)
           (staticChild n) (staticIndices n) ;;
   afterStatic n method (String c rest) st).
Proof. destruct n. reflexivity. Qed.

#[local] Arguments Treemux.search : simpl never.

Lemma matches_cases (n : node) (c : ascii) (rest : string) (l : node)
    (caps : list string) :
  matches n (String c rest) l caps <->
  ((exists i child,
      staticIndices n !! i = Some c /\ staticChild n !! i = Some child
      /\ HasPrefix (String c rest) (path child) = true
      /\ matches child (str_drop (String.length (path child)) (String c rest))
           l caps)
   \/ (exists w caps',
         wildcardChild n = Some w /\ segmentOf (String c rest) <> ""
         /\ caps = segmentOf (String c rest) :: caps'
         /\ matches w (afterSegment (String c rest)) l caps'))
  \/ (catchAllChild n = Some l /\ caps = [String c rest]).
Proof.
  split.
  - intros Hm. inversion Hm; subst.
    + left. left. simpl in *. exists i, child. simplify_eq. auto.
    + left. right. exists w, caps0. auto.
    + right. auto.
  - intros [[(i & child & Hi & Hc & Hp & Hm)|(w & caps' & Hw & Hs & -> & Hm)]
           |[Hc ->]].
    + now apply (matches_static n i c child).
    + apply (matches_wildcard n w); [exact Hw|discriminate|exact Hs|exact Hm].
    + now apply matches_catchAll.
Qed.

Lemma length_pos_nonempty (s : string) :
  (0 <? String.length s)%nat = true <-> s <> "".
Proof. destruct s; simpl; split; try done. Qed.

Lemma WFs_inv (k : nat) (n : node) :
  WFs k n ->
  Forall2 (fun _ c => WFs k c) (staticIndices n) (staticChild n)
  /\ NoDup (staticIndices n)
  /\ (forall w, wildcardChild n = Some w -> WFs (S k) w)
  /\ (forall ca, catchAllChild n = Some ca ->
        nodeHandlerMap ca <> None /\ length (names_of ca) = S k
        /\ childless ca)
  /\ (forall names, leafWildcardNames n = Some names -> length names = k)
  /\ (nodeHandlerMap n <> None -> length (names_of n) = k).
Proof.
  intros Hwf. inversion Hwf; subst. do 5 (split; [assumption|]). assumption.
Qed.

Lemma WF_WFs (n : node) : forall k, WF k n -> WFs k n.
Proof.
  induction n as [rt p pr si sc wc cc sl ica hm ln IHs IHw _] using node_ind.
  intros k Hwf. apply WF_inv in Hwf as (Hs & Hnd & Hw & Hc & Hn & Hh).
  assert (Forall2 (fun _ c => WFs k c) si sc) as Hs'.
  { cbn [staticIndices staticChild] in Hs. clear Hnd Hw Hc Hn Hh IHw.
    revert IHs.
    induction Hs as [|x c si' sc' [_ Hc0] Hs IH]; intros IHs; constructor.
    - apply Forall_cons in IHs as [IHc _]. exact (IHc k Hc0).
    - apply IH. apply Forall_cons in IHs as [_ IHs]. exact IHs. }
  apply WFs_node; try assumption.
  intros w Ew. cbn [wildcardChild] in Ew. rewrite Ew in IHw.
  exact (IHw (S k) (Hw w Ew)).
Qed.

(** On a well-formed node the matcher returns, and what it returns answers
    the request for all the matches of the path. *)
Lemma search_answers (n : node) :
  forall k method pth, WFs k n ->
    exists r, search n method pth = Ok r
      /\ answers k method (matches n pth) r.
Proof.
  induction n as [rt p pr si sc wc cc sl ica hm ln IHs IHw _] using node_ind.
  intros k method pth Hwf.
  change sc with (staticChild (mkNode rt p pr si sc wc cc sl ica hm ln)) in IHs.
  change wc with (wildcardChild (mkNode rt p pr si sc wc cc sl ica hm ln)) in IHw.
  remember (mkNode rt p pr si sc wc cc sl ica hm ln) as n eqn:En in *.
  clear En rt p pr si sc wc cc sl ica hm ln.
  pose proof Hwf as (Hs & Hnd & Hw & Hc & Hn & Hh)%WFs_inv.
  destruct pth as [|c rest].
  - (* the end of the path *)
    rewrite search_nil. destruct (nodeHandlerMap n) as [hm'|] eqn:Ehm.
    + eexists; split; [reflexivity|]. unfold answers, handlerOf. simpl.
      split; [|split].
      * exists []. split; [apply matches_here; congruence|].
        rewrite Ehm. split; [discriminate|]. split; [reflexivity|].
        split; [rewrite Hh by congruence; simpl; lia|].
        unfold Treemux.paramsOf. simpl. now rewrite zip_with_nil_r.
      * discriminate.
      * intros Hnone l caps Hm. inversion Hm; subst; try done.
        now rewrite Ehm.
    + eexists; split; [reflexivity|]. apply answers_noMatch.
      intros l caps Hm. inversion Hm; subst; done.
  - rewrite search_cons. set (pth := String c rest) in *.
    set (Ms := fun l caps => exists i child,
                 staticIndices n !! i = Some c /\ staticChild n !! i = Some child
                 /\ HasPrefix pth (path child) = true
                 /\ matches child (str_drop (String.length (path child)) pth)
                      l caps).
    set (Mw := fun l caps => exists w caps',
                 wildcardChild n = Some w /\ segmentOf pth <> ""
                 /\ caps = segmentOf pth :: caps'
                 /\ matches w (afterSegment pth) l caps').
    (* the static step *)
    assert (exists st,
              withStaticChild c
                (fun child =>
                   if (String.length (path child) <=? String.length pth)%nat
                      && String.eqb (path child)
                           (str_take (String.length (path child)) pth)
                   then search child method
                          (str_drop (String.length (path child)) pth)
                   else Ok noMatch)
                (Panic IndexOutOfRange) (Ok noMatch)
                (staticChild n) (staticIndices n) = Ok st
              /\ answers k method Ms st) as (st & -> & Hst).
    { rewrite withStaticChild_indexOf.
      destruct (indexOf c (staticIndices n)) as [i|] eqn:Ei.
      - destruct (indexOf_Some _ _ _ Ei) as [Hi _].
        destruct (Forall2_lookup_l _ _ _ _ _ Hs Hi) as (child & Hch & Hwfc).
        rewrite Hch, prefix_test.
        assert (forall i' child', staticIndices n !! i' = Some c ->
                  staticChild n !! i' = Some child' -> child' = child) as Huniq.
        { intros i' child' Hi' Hch'.
          assert (i' = i) as -> by (eapply NoDup_lookup; eauto). congruence. }
        destruct (HasPrefix pth (path child)) eqn:Hp.
        + pose proof (proj1 (Forall_lookup _ _) IHs i child Hch k method
                        (str_drop (String.length (path child)) pth) Hwfc)
            as (st & Hst & Hans).
          exists st. split; [exact Hst|].
          apply (answers_ext _ _ _ _ _ Hans). intros l caps. split.
          * intros Hm. exists i, child. auto.
          * intros (i' & child' & Hi' & Hch' & _ & Hm).
            now rewrite (Huniq i' child' Hi' Hch') in Hm.
        + exists noMatch. split; [reflexivity|]. apply answers_noMatch.
          intros l caps (i' & child' & Hi' & Hch' & Hp' & _).
          rewrite (Huniq i' child' Hi' Hch') in Hp'. congruence.
      - exists noMatch. split; [reflexivity|]. apply answers_noMatch.
        intros l caps (i' & child' & Hi' & _).
        apply indexOf_None in Ei. apply Ei. eapply list_elem_of_lookup_2; eauto. }
    cbn [bind]. unfold Treemux.afterStatic.
    destruct (notNil (handler st)) eqn:Ehst.
    { exists st. split; [reflexivity|].
      apply (answers_weaken _ _ _ _ _ Hst Ehst).
      intros l caps Hm. apply matches_cases. left. left. exact Hm. }
    assert (handler st = None) as Hstn by (destruct (handler st); done).
    (* the wildcard step: either it returns, or it goes on to the catch-all *)
    assert (forall cur, answers k method (fun l caps => Ms l caps \/ Mw l caps) cur ->
              handler cur = None ->
              exists r, searchCatchAll n method pth cur = Ok r
                /\ answers k method (matches n pth) r) as Hfinish.
    { intros cur Hcur Hcn.
      destruct (searchCatchAll_answers n k method pth cur
                  (fun l caps => Ms l caps \/ Mw l caps)) as (r & Hr & Hans);
        [|exact Hcur|exact Hcn|].
      { intros ca Hca. destruct (Hc ca Hca) as (H1 & H2 & _). now split. }
      exists r. split; [exact Hr|].
      apply (answers_ext _ _ _ _ _ Hans). intros l caps.
      symmetry. apply matches_cases. }
    assert (answers k method (fun l caps => Ms l caps \/ Mw l caps) st
            \/ True) as _ by now right.
    destruct (wildcardChild n) as [w|] eqn:Ew; simpl in IHw.
    2:{ apply Hfinish; [|exact Hstn].
        apply (answers_ext _ _ _ _ _ Hst). intros l caps. split; [auto|].
        intros [Hm|(w & caps' & [=] & _)]. exact Hm. }
    destruct (0 <? String.length (segmentOf pth))%nat eqn:Eseg.
    2:{ apply Hfinish; [|exact Hstn].
        apply (answers_ext _ _ _ _ _ Hst). intros l caps. split; [auto|].
        intros [Hm|(w' & caps' & _ & Hne & _)]; [exact Hm|].
        apply length_pos_nonempty in Hne. congruence. }
    apply length_pos_nonempty in Eseg.
    destruct (IHw (S k) method (afterSegment pth) (Hw w eq_refl))
      as (wcr & Hwcr & Hwans).
    rewrite Hwcr. cbn [bind].
    assert (forall r2, answers k method
                      (fun l caps => exists caps', caps = segmentOf pth :: caps'
                         /\ matches w (afterSegment pth) l caps') r2 ->
              answers k method Mw r2) as Hlift.
    { intros r2 Hr2. apply (answers_ext _ _ _ _ _ Hr2). intros l caps. split.
      - intros (caps' & -> & Hm). exists w, caps'. auto.
      - intros (w' & caps' & [= <-] & _ & -> & Hm). now exists caps'. }
    destruct (found wcr) as [wcNode|] eqn:Efw.
    + destruct (wildcard_answers k method w (segmentOf pth) (afterSegment pth)
                  wcr wcNode Hwans Efw) as (name & Hpn & Hans2).
      apply Hlift in Hans2.
      pose proof (answers_choose k method _ _ st _ Hst Hstn Hans2) as Hch.
      simpl in Hch. rewrite andb_true_r in *.
      destruct (notNil (handler wcr) || negb (notNil (found st))) eqn:Econd.
      * rewrite Hpn. cbn [bind].
        destruct (notNil (handler wcr)) eqn:Ehw.
        -- eexists; split; [reflexivity|].
           apply (answers_weaken _ _ _ _ _ Hch); [exact Ehw|].
           intros l caps [Hm|Hm]; apply matches_cases; left; [left; exact Hm|right].
           destruct Hm as (w' & caps' & E' & Hrest). exists w', caps'.
           rewrite Ew. split; [exact E'|exact Hrest].
        -- apply Hfinish; [exact Hch|]. simpl.
           destruct (handler wcr); done.
      * apply Hfinish; [exact Hch|exact Hstn].
    + pose proof Hwans as (Hwn & Hwf' & _). rewrite Efw in Hwn.
      rewrite (proj1 Hwn). simpl. rewrite andb_false_r.
      apply Hfinish; [|exact Hstn].
      apply (answers_ext _ _ _ _ _ Hst). intros l caps. split; [auto|].
      intros [Hm|(w' & caps' & [= <-] & _ & _ & Hm)]; [exact Hm|].
      now apply (Hwf' Efw) in Hm.
Qed.

(** *** A split keeps every answer *)

Lemma sameAnswer_refl (x : res result) : sameAnswer x x.
Proof.
  destruct x as [r| |]; simpl; try done.
  repeat split. destruct (found r); [repeat split | exact I].
Qed.

Lemma searchCatchAll_same (n n' : node) (method pth : string)
    (cur cur' : result) :
  catchAllChild n' = catchAllChild n ->
  sameAnswer (Ok cur) (Ok cur') ->
  sameAnswer (searchCatchAll n method pth cur)
    (searchCatchAll n' method pth cur').
Proof.
  intros Ec (Hh & Hp & Hf). unfold Treemux.searchCatchAll. rewrite Ec.
  destruct (catchAllChild n) as [ca|]; [|simpl; auto].
  destruct (nodeHandlerMap ca) as [hm|]; [|reflexivity].
  assert (notNil (found cur) = notNil (found cur')) as ->
    by (destruct (found cur), (found cur'); simpl; tauto).
  destruct (_ || _).
  - apply sameAnswer_refl.
  - simpl. rewrite Hp. auto.
Qed.

Lemma afterStatic_same (n n' : node) (method pth : string) (st st' : result) :
  wildcardChild n' = wildcardChild n -> catchAllChild n' = catchAllChild n ->
  sameAnswer (Ok st) (Ok st') ->
  sameAnswer (afterStatic n method pth st) (afterStatic n' method pth st').
Proof.
  intros Ew Ec Hst. pose proof Hst as (Hh & Hp & Hf).
  unfold Treemux.afterStatic. rewrite Ew, <- Hh.
  destruct (notNil (handler st)); [exact Hst|].
  assert (notNil (found st) = notNil (found st')) as <-
    by (destruct (found st), (found st'); simpl; tauto).
  destruct (wildcardChild n) as [w|]; [|now apply searchCatchAll_same].
  destruct (0 <? _)%nat; [|now apply searchCatchAll_same].
  destruct (search w method (afterSegment pth)) as [wc| |]; simpl; try done.
  destruct (_ || _); [|now apply searchCatchAll_same].
  destruct (found wc) as [wcNode|]; [|reflexivity].
  destruct (paramName wcNode _) as [name| |]; simpl; try done.
  destruct (notNil (handler wc)); [apply sameAnswer_refl|].
  apply searchCatchAll_same; [exact Ec|apply (sameAnswer_refl (Ok _))].
Qed.

Lemma sameAnswer_bind_afterStatic (n n' : node) (method pth : string)
    (x y : res result) :
  wildcardChild n' = wildcardChild n -> catchAllChild n' = catchAllChild n ->
  sameAnswer x y ->
  sameAnswer (st <- x ;; afterStatic n method pth st)
    (st <- y ;; afterStatic n' method pth st).
Proof.
  intros Ew Ec Hxy. destruct x as [r| |], y as [r'| |]; simpl in *; try done.
  now apply afterStatic_same.
Qed.

(** The matcher does not read the segment of the node it starts from. *)
Lemma search_setPath (ch : node) (s : string) (method pth : string) :
  sameAnswer (search (setPath ch s) method pth) (search ch method pth).
Proof.
  destruct pth as [|c rest].
  - rewrite !search_nil. simpl. destruct (nodeHandlerMap ch); simpl; [|auto].
    repeat split.
  - replace (search (setPath ch s) method (String c rest))
      with (search ch method (String c rest)) by (destruct ch; reflexivity).
    apply sameAnswer_refl.
Qed.

Lemma indexOf_singleton (c d : ascii) :
  indexOf d [c] = if Ascii.eqb d c then Some 0 else None.
Proof. simpl. now destruct (Ascii.eqb d c). Qed.

Lemma HasPrefix_append (s a b : string) :
  HasPrefix s (a +:+ b) = HasPrefix s a && HasPrefix (str_drop (String.length a) s) b.
Proof.
  revert s; induction a as [|x a IH]; intros s; [reflexivity|].
  rewrite append_cons. destruct s as [|y s]; simpl; [reflexivity|].
  rewrite IH. now destruct (Ascii.eqb x y).
Qed.

(** The matcher on the intermediary node that a split creates. *)
Lemma search_intermediary (pre : string) (pr : nat) (c0 : ascii)
    (rest0 : string) (ch : node) (method q : string) :
  sameAnswer
    (search (mkNode "" pre pr [c0] [setPath ch (String c0 rest0)] None None
               false false None None) method q)
    (if HasPrefix q (String c0 rest0)
     then search ch method (str_drop (String.length (String c0 rest0)) q)
     else Ok noMatch).
Proof.
  destruct q as [|d q'].
  - rewrite search_nil. simpl. auto.
  - rewrite search_cons, withStaticChild_indexOf. cbn [staticIndices staticChild].
    rewrite indexOf_singleton.
    change (HasPrefix (String d q') (String c0 rest0))
      with (Ascii.eqb c0 d && HasPrefix q' rest0).
    rewrite (Ascii.eqb_sym c0 d).
    destruct (Ascii.eqb d c0) eqn:Ed; cbn [bind andb].
    + replace ([setPath ch (String c0 rest0)] !! 0)
        with (Some (setPath ch (String c0 rest0))) by reflexivity.
      cbv beta iota. rewrite prefix_test. cbn [path setPath].
      apply ascii_eqb_true in Ed as ->.
      change (HasPrefix (String c0 q') (String c0 rest0))
        with (Ascii.eqb c0 c0 && HasPrefix q' rest0).
      rewrite Ascii.eqb_refl. cbn [andb].
      destruct (HasPrefix q' rest0).
      * pose proof (search_setPath ch (String c0 rest0) method
                      (str_drop (String.length (String c0 rest0)) (String c0 q')))
          as Hsp.
        destruct (search (setPath ch _) method _) as [st| |],
                 (search ch method _) as [st'| |]; simpl in Hsp |- *; try done.
        unfold Treemux.afterStatic, Treemux.searchCatchAll. simpl.
        destruct (notNil (handler st)); exact Hsp.
      * simpl. auto.
    + simpl. auto.
Qed.

Lemma split_search (k : nat) (n : node) (i : nat) (c : ascii) (tok : string)
    (n1 child : node) (ps : nat) :
  WF k n -> staticIndices n !! i = Some c -> firstByte tok = Some c ->
  splitCommonPrefix n i tok = Ok (n1, child, ps) ->
  forall method pth, sameAnswer (search n1 method pth) (search n method pth).
Proof.
  intros Hwf Hi Htok Hsplit method pth.
  destruct (WF_static_child k n i c Hwf Hi)
    as (ch & Hch & (Hchp & _ & Hchpl) & Hchwf).
  destruct (splitCommonPrefix_spec n i tok ch Hch Hchpl)
    as [[Hp Hs]|(Hp & j & c0 & rest0 & Hj & Hjt & Ht & Hd & H1 & Hmis & Hs)];
    rewrite Hs in Hsplit; injection Hsplit as <- <- <-.
  { apply sameAnswer_refl. }
  set (newN := mkNode _ _ _ _ _ _ _ _ _ _ _).
  destruct pth as [|d rest].
  { rewrite !search_nil. simpl. destruct (nodeHandlerMap n); simpl; [|auto].
    repeat split. }
  rewrite !search_cons.
  apply sameAnswer_bind_afterStatic; [reflexivity..|].
  rewrite !withStaticChild_indexOf.
  change (staticIndices (setStaticChildAt n i newN)) with (staticIndices n).
  change (staticChild (setStaticChildAt n i newN))
    with (<[i:=newN]> (staticChild n)).
  destruct (indexOf d (staticIndices n)) as [i'|] eqn:Ei; [|apply sameAnswer_refl].
  destruct (decide (i' = i)) as [->|Hne].
  2:{ rewrite list_lookup_insert_ne by auto. apply sameAnswer_refl. }
  pose proof (lookup_lt_Some _ _ _ Hch) as Hlt.
  rewrite list_lookup_insert_eq by exact Hlt. rewrite Hch, !prefix_test.
  assert (path ch = str_take j tok +:+ String c0 rest0) as HP.
  { rewrite Ht, <- Hd. symmetry. apply str_take_drop. }
  assert (String.length (str_take j tok) = j) as Hlen
    by (rewrite length_str_take; lia).
  rewrite HP, HasPrefix_append. cbn [path newN]. rewrite Hlen.
  destruct (HasPrefix (String d rest) (str_take j tok)); [|simpl; auto].
  cbn [andb].
  eapply (eq_rect _ (fun y => sameAnswer _ y)).
  - apply search_intermediary.
  - destruct (HasPrefix _ (String c0 rest0)); [|reflexivity].
    rewrite str_drop_drop, length_append, Hlen. reflexivity.
Qed.

(** *** The slot of an index byte *)

Lemma withStaticChild_slotOf {A} (c : ascii) (f : node -> A) (none : A)
    (n : node) :
  withStaticChild c f none none (staticChild n) (staticIndices n) =
  match slotOf n c with
  | Some ch => f ch
  | None => none
  end.
Proof.
  unfold slotOf. rewrite !withStaticChild_indexOf.
  destruct (indexOf c (staticIndices n)); [|reflexivity].
  now destruct (staticChild n !! _).
Qed.

Lemma slotOf_Some (n : node) (c : ascii) (ch : node) :
  NoDup (staticIndices n) ->
  slotOf n c = Some ch <-> (c, ch) ∈ statics n.
Proof.
  intros Hnd. unfold slotOf, statics. rewrite withStaticChild_indexOf. split.
  - destruct (indexOf c (staticIndices n)) as [i|] eqn:Ei; [|discriminate].
    destruct (indexOf_Some _ _ _ Ei) as [Hi _].
    destruct (staticChild n !! i) as [ch'|] eqn:Hch; [|discriminate].
    intros [= <-]. apply elem_of_lookup_zip_with. exists i, c, ch'. auto.
  - intros (i & x & y & [= <- <-] & Hi & Hch)%elem_of_lookup_zip_with.
    now rewrite (indexOf_lookup _ _ _ Hnd Hi), Hch.
Qed.

Lemma slotOf_None (n : node) (c : ascii) :
  length (staticIndices n) = length (staticChild n) ->
  slotOf n c = None <-> c ∉ staticIndices n.
Proof.
  intros Hlen. unfold slotOf. rewrite withStaticChild_indexOf. split.
  - destruct (indexOf c (staticIndices n)) as [i|] eqn:Ei;
      [|intros _; now apply indexOf_None].
    destruct (indexOf_Some _ _ _ Ei) as [Hi _].
    destruct (lookup_lt_is_Some_2 (staticChild n) i) as [ch Hch].
    { rewrite <- Hlen. eapply lookup_lt_Some, Hi. }
    now rewrite Hch.
  - intros Hc. destruct (indexOf c (staticIndices n)) as [i|] eqn:Ei; [|done].
    destruct (indexOf_Some _ _ _ Ei) as [Hi _].
    exfalso. apply Hc. eapply list_elem_of_lookup_2, Hi.
Qed.

Lemma slotOf_ext (n n' : node) :
  NoDup (staticIndices n) -> NoDup (staticIndices n') ->
  length (staticIndices n) = length (staticChild n) ->
  length (staticIndices n') = length (staticChild n') ->
  statics n' ≡ₚ statics n ->
  forall c, slotOf n' c = slotOf n c.
Proof.
  intros Hnd Hnd' Hlen Hlen' Hperm c.
  destruct (slotOf n c) as [ch|] eqn:E.
  - apply slotOf_Some; [exact Hnd'|]. rewrite Hperm. now apply slotOf_Some.
  - apply slotOf_None; [exact Hlen'|]. apply slotOf_None in E; [|exact Hlen].
    intros Hin. apply E.
    rewrite <- (fst_zip_same_length _ _ Hlen).
    rewrite <- (fst_zip_same_length _ _ Hlen') in Hin.
    unfold statics in Hperm. now rewrite <- Hperm.
Qed.

Lemma slotOf_setStaticChildAt (n : node) (i : nat) (c x : ascii) (ch' : node) :
  NoDup (staticIndices n) ->
  length (staticIndices n) = length (staticChild n) ->
  staticIndices n !! i = Some c ->
  slotOf (setStaticChildAt n i ch') x
  = if Ascii.eqb x c then Some ch' else slotOf n x.
Proof.
  intros Hnd Hlen Hi. unfold slotOf. rewrite !withStaticChild_indexOf.
  change (staticIndices (setStaticChildAt n i ch')) with (staticIndices n).
  change (staticChild (setStaticChildAt n i ch'))
    with (<[i:=ch']> (staticChild n)).
  pose proof (lookup_lt_Some _ _ _ Hi) as Hlt.
  destruct (Ascii.eqb x c) eqn:E.
  - apply ascii_eqb_true in E as ->.
    rewrite (indexOf_lookup _ _ _ Hnd Hi).
    rewrite list_lookup_insert_eq by lia. reflexivity.
  - destruct (indexOf x (staticIndices n)) as [i'|] eqn:Ei; [|reflexivity].
    destruct (indexOf_Some _ _ _ Ei) as [Hi' _].
    rewrite list_lookup_insert_ne; [reflexivity|].
    intros ->. apply ascii_eqb_false in E. congruence.
Qed.

Lemma slotOf_append (n : node) (c x : ascii) (ch' : node) :
  length (staticIndices n) = length (staticChild n) ->
  c ∉ staticIndices n ->
  slotOf (setStatic n (staticIndices n ++ [c]) (staticChild n ++ [ch'])) x
  = if Ascii.eqb x c then Some ch' else slotOf n x.
Proof.
  intros Hlen Hc. unfold slotOf. rewrite !withStaticChild_indexOf.
  cbn [staticIndices staticChild setStatic].
  assert (forall l, indexOf x (l ++ [c]) =
            match indexOf x l with
            | Some i => Some i
            | None => if Ascii.eqb x c then Some (length l) else None
            end) as Happ.
  { induction l as [|y l IH]; simpl; [reflexivity|].
    destruct (Ascii.eqb x y); [reflexivity|]. rewrite IH.
    destruct (indexOf x l); [reflexivity|]. now destruct (Ascii.eqb x c). }
  rewrite Happ. destruct (indexOf x (staticIndices n)) as [i|] eqn:Ei.
  - destruct (indexOf_Some _ _ _ Ei) as [Hi _].
    pose proof (lookup_lt_Some _ _ _ Hi) as Hlt.
    rewrite lookup_app_l by lia.
    destruct (Ascii.eqb x c) eqn:E; [|reflexivity].
    apply ascii_eqb_true in E as ->. exfalso. apply Hc.
    eapply list_elem_of_lookup_2, Hi.
  - destruct (Ascii.eqb x c); [|reflexivity].
    rewrite Hlen, lookup_app_r by lia.
    now replace (length (staticChild n) - length (staticChild n)) with 0 by lia.
Qed.

(** The slots of the node after the descent into the static child that the
    sort left in slot [j]. *)
Lemma slotOf_after_descent (k : nat) (n : node) (i : nat) (c : ascii)
    (child1 child' : node) (si : list ascii) (sc : list node) (j : nat) :
  WF k n -> staticIndices n !! i = Some c ->
  length si = length sc ->
  zip si sc ≡ₚ statics (setStaticChildAt n i child1) ->
  si !! j = Some c ->
  forall x,
    slotOf (setStaticChildAt (setStatic (setStaticChildAt n i child1) si sc)
              j child') x
    = if Ascii.eqb x c then Some child' else slotOf n x.
Proof.
  intros Hwf Hi Hlen Hperm Hj x.
  pose proof Hwf as (Hs & Hnd & _)%WF_inv.
  pose proof (Forall2_length _ _ _ Hs) as Hlen0.
  set (n2 := setStaticChildAt n i child1) in *.
  assert (NoDup si) as Hnd'.
  { rewrite <- (fst_zip_same_length si sc Hlen), Hperm.
    unfold statics. rewrite fst_zip_same_length; [exact Hnd|].
    simpl. rewrite length_insert. exact Hlen0. }
  rewrite (slotOf_setStaticChildAt _ j c); [|exact Hnd'|exact Hlen|exact Hj].
  destruct (Ascii.eqb x c) eqn:E; [reflexivity|].
  rewrite (slotOf_ext n2 (setStatic n2 si sc)); simpl;
    [|exact Hnd|exact Hnd'|rewrite length_insert; exact Hlen0|exact Hlen|exact Hperm].
  unfold n2. rewrite (slotOf_setStaticChildAt _ i c) by assumption.
  now rewrite E.
Qed.

(** *** Reading a pattern's route *)

Lemma readPath_nil (n : node) (ist : bool) : readPath n "" ist = Some n.
Proof. now destruct n. Qed.

Lemma readPath_cons (n : node) (c : ascii) (rest : string) (ist : bool) :
  readPath n (String c rest) ist =
  let '(thisToken, tokenEnd) := tokenOf c (String c rest) in
  if Ascii.eqb c star && negb ist then
    match catchAllChild n with
    | Some ca =>
        if String.eqb rest (path ca)
           && negb (notNil (IndexByte (String c rest) slash))
        then Some ca else None
    | None => None
    end
  else if Ascii.eqb c colon && negb ist then
    match wildcardChild n with
    | Some w => readPath w (str_drop tokenEnd (String c rest)) false
    | None => None
    end
  else
    let '(c', tok', unescaped) := unescapeToken ist c thisToken in
    match slotOf n c' with
    | Some child =>
        if HasPrefix tok' (path child) then
          readPath child
            (str_drop (if unescaped then S (String.length (path child))
                       else String.length (path child)) (String c rest))
            (negb (Ascii.eqb c' slash))
        else None
    | None => None
    end.
Proof.
  destruct n. cbn [readPath]. destruct (tokenOf c (String c rest)) as [tok e].
  destruct (_ && _); [reflexivity|]. destruct (_ && _); [reflexivity|].
  destruct (unescapeToken ist c tok) as [[c' tok'] un].
  rewrite withStaticChild_slotOf. reflexivity.
Qed.

#[local] Arguments readPath : simpl never.

Lemma slotOf_newNode (p : string) (c : ascii) : slotOf (newNode p) c = None.
Proof. reflexivity. Qed.

Lemma readPath_childless (n : node) (q : string) (ist : bool) :
  childless n ->
  readPath n q ist = match q with "" => Some n | _ => None end.
Proof.
  intros (Hsi & Hsc & Hw & Hc). destruct q as [|c rest]; [apply readPath_nil|].
  rewrite readPath_cons. destruct (tokenOf _ _) as [tok e].
  rewrite Hw, Hc. destruct (_ && _); [reflexivity|].
  destruct (_ && _); [reflexivity|].
  destruct (unescapeToken _ _ _) as [[c' tok'] un].
  unfold slotOf. now rewrite Hsi, Hsc.
Qed.

(** Reading below a node only looks at its children. *)
Lemma readPath_same_children (n n' : node) (q : string) (ist : bool) :
  staticIndices n' = staticIndices n -> staticChild n' = staticChild n ->
  wildcardChild n' = wildcardChild n -> catchAllChild n' = catchAllChild n ->
  readPath n' q ist = match q with "" => Some n' | _ => readPath n q ist end.
Proof.
  intros Hsi Hsc Hw Hc. destruct q as [|c rest]; [apply readPath_nil|].
  rewrite !readPath_cons. unfold slotOf. now rewrite Hsi, Hsc, Hw, Hc.
Qed.

Lemma keeps_refl (l : node) : keeps l l.
Proof. by split. Qed.

Lemma keeps_trans (a b c : node) : keeps a b -> keeps b c -> keeps a c.
Proof. intros [H1 H2] [H3 H4]. split; congruence. Qed.

(** The same, up to the fields a registration elsewhere leaves alone. *)
Lemma readPath_keeps (n n' : node) (q : string) (ist : bool) :
  staticIndices n' = staticIndices n -> staticChild n' = staticChild n ->
  wildcardChild n' = wildcardChild n -> catchAllChild n' = catchAllChild n ->
  keeps n n' ->
  match readPath n q ist with
  | Some l => exists l', readPath n' q ist = Some l' /\ keeps l l'
  | None => readPath n' q ist = None
  end.
Proof.
  intros Hsi Hsc Hw Hc Hk.
  rewrite (readPath_same_children n n' q ist Hsi Hsc Hw Hc).
  destruct q as [|c rest].
  - rewrite readPath_nil. now exists n'.
  - destruct (readPath n _ ist) as [l|]; [|reflexivity].
    exists l. split; [reflexivity|apply keeps_refl].
Qed.

(** The bytes of a pattern around its first token. *)
Lemma token_bytes (ist : bool) (c : ascii) (rest : string) (tok : string)
    (e : nat) (c' : ascii) (tok' : string) (un : bool) :
  tokenOf c (String c rest) = (tok, e) ->
  unescapeToken ist c tok = (c', tok', un) ->
  String.length tok' + (if un then 1 else 0) = e
  /\ forall m,
       str_drop (if un then S m else m) (String c rest)
       = str_drop m tok' +:+ str_drop e (String c rest)
       \/ String.length tok' < m.
Proof.
  intros Ht Hu.
  destruct (tokenOf_spec c rest) as (tok0 & e0 & Ht0 & Htok & He & Hfb & _).
  rewrite Ht in Ht0. injection Ht0 as <- <-.
  destruct (unescapeToken_spec ist c tok Hfb)
    as (c0 & tok0 & un0 & Hu0 & _ & _ & Hun).
  rewrite Hu in Hu0. injection Hu0 as <- <- <-.
  assert (String.length tok = e) as Hlen.
  { rewrite Htok, length_str_take. simpl. lia. }
  assert (String c rest = tok +:+ str_drop e (String c rest)) as Hq.
  { rewrite Htok at 1. symmetry. apply str_take_drop. }
  assert (forall m s t, m <= String.length s ->
            str_drop m (s +:+ t) = str_drop m s +:+ t) as Hdrop.
  { induction m as [|m IH]; intros s t Hm; [reflexivity|].
    destruct s as [|x s]; simpl in *; [lia|]. apply IH. lia. }
  clear Htok. destruct un.
  - destruct Hun as (Htk & _ & _). subst tok. simpl in Hlen. split; [lia|].
    intros m. destruct (decide (String.length tok' < m)) as [|Hm]; [now right|left].
    rewrite Hq at 1. rewrite append_cons. simpl. apply Hdrop. lia.
  - destruct Hun as [-> _]. split; [lia|].
    intros m. destruct (decide (String.length tok < m)) as [|Hm]; [now right|left].
    rewrite Hq at 1. apply Hdrop. lia.
Qed.

Lemma slotOf_indexOf (n : node) (c : ascii) :
  slotOf n c = match indexOf c (staticIndices n) with
               | Some i => staticChild n !! i
               | None => None
               end.
Proof.
  unfold slotOf. rewrite withStaticChild_indexOf.
  destruct (indexOf c (staticIndices n)); [|reflexivity].
  now destruct (staticChild n !! _).
Qed.

Lemma HasPrefix_str_take (s : string) (j : nat) : HasPrefix s (str_take j s) = true.
Proof.
  apply HasPrefix_app. exists (str_drop j s). symmetry. apply str_take_drop.
Qed.

Lemma HasPrefix_refl (s : string) : HasPrefix s s = true.
Proof. apply HasPrefix_app. exists "". symmetry. apply append_nil_r. Qed.

Lemma literal_cons (c : ascii) (rest : string) :
  literal (String c rest) = true ->
  c <> star /\ c <> colon /\ c <> backslash /\ literal rest = true.
Proof.
  simpl. intros [[[H1 H2]%andb_true_iff H3]%andb_true_iff H4]%andb_true_iff.
  apply negb_true_iff, ascii_eqb_false in H1, H2, H3. auto.
Qed.

Lemma literal_str_drop (m : nat) (s : string) :
  literal s = true -> literal (str_drop m s) = true.
Proof.
  revert s; induction m as [|m IH]; intros [|c s] Hl; try done.
  simpl. apply IH. now apply literal_cons in Hl.
Qed.

Lemma firstByte_append (a b : string) :
  firstByte (a +:+ b) = match firstByte a with
                        | Some c => Some c
                        | None => firstByte b
                        end.
Proof. destruct a; reflexivity. Qed.

(** Where [addPath] takes the leaf from and what it hands to its caller. *)
Lemma addPath_leaf (onLeaf : node -> res node) :
  leafUpdate onLeaf ->
  forall fuel n q ws ist k,
    WF k n -> String.length q < fuel -> length (default [] ws) = k ->
    plain q = true ->
    (exists kind, addPath fuel onLeaf n q ws ist = Panic kind
       /\ structural kind /\ (literal q = false \/ ws <> None))
    \/ exists l0,
         match readPath n q ist with
         | Some l => keeps l l0
         | None => route l0 = "" /\ nodeHandlerMap l0 = None
         end
         /\ match onLeaf l0 with
            | Ok l' => exists n', addPath fuel onLeaf n q ws ist = Ok n'
                         /\ readPath n' q ist = Some l'
            | Panic k' => addPath fuel onLeaf n q ws ist = Panic k'
            | OutOfFuel => True
            end.
Proof.
  intros Hleaf. induction fuel as [|fuel IH];
    intros n q ws ist k Hwf Hlen Hws Hpl; [lia|].
  destruct q as [|c rest].
  - (* the leaf *)
    rewrite readPath_nil. simpl addPath.
    assert (forall n1, keeps n n1 ->
              exists l0, keeps n l0
                /\ match onLeaf l0 with
                   | Ok l' => exists n', (n1' <- Ok n1 ;; onLeaf n1') = Ok n'
                                /\ readPath n' "" ist = Some l'
                   | Panic k' => (n1' <- Ok n1 ;; onLeaf n1') = Panic k'
                   | OutOfFuel => True
                   end) as Hdone.
    { intros n1 Hk. exists n1. split; [exact Hk|]. simpl.
      destruct (onLeaf n1) as [l'| |]; [|reflexivity|exact I].
      exists l'. split; [reflexivity|apply readPath_nil]. }
    destruct ws as [wsl|]; [|right; apply Hdone, keeps_refl].
    destruct (leafWildcardNames n) as [old|].
    + destruct (negb (length old =? length wsl)%nat).
      { left. eexists. split; [reflexivity|]. split; [|now right].
        right; right; now left. }
      destruct (sameNames old wsl).
      * right. apply Hdone, keeps_refl.
      * left. eexists. split; [reflexivity|]. split; [|now right].
        right; right; now right.
    + right. apply Hdone. by split.
  - pose proof Hwf as (Hs & Hnd & Hw & Hc & Hn & Hh)%WF_inv.
    rewrite readPath_cons. simpl addPath.
    destruct (tokenOf_spec c rest) as (tok & e & Ht & Htok & He & Hfb & Hwt & Hnext).
    rewrite Ht.
    assert (plain tok = true) as Hpltok by (rewrite Htok; now apply plain_str_take).
    assert (forall m, plain (str_drop m (String c rest)) = true) as Hpldrop
      by (intros m; now apply plain_str_drop).
    destruct (Ascii.eqb c star && negb ist) eqn:Ecatch.
    + (* a catch-all *)
      assert (literal (String c rest) = false) as Hnl.
      { apply andb_true_iff in Ecatch as [->%ascii_eqb_true _]. reflexivity. }
      set (cat := match catchAllChild n with Some ca => ca | None => _ end).
      destruct (String.eqb rest (path cat)) eqn:Ename; simpl negb; cbv iota.
      2:{ left. eexists. split; [reflexivity|]. split; [now left|now left]. }
      destruct (notNil (IndexByte (String c rest) slash)) eqn:Eslash.
      { left. eexists. split; [reflexivity|]. split; [right; now left|now left]. }
      right. set (l0 := setLeafWildcardNames cat _). exists l0. split.
      * unfold cat. destruct (catchAllChild n) as [ca|]; [|by split].
        fold cat. rewrite Ename. simpl. by split.
      * pose proof (Hleaf l0) as Hl0.
        destruct (onLeaf l0) as [leaf| |]; [|reflexivity|exact I].
        eexists. split; [reflexivity|].
        rewrite readPath_cons, Ht, Ecatch. simpl.
        destruct Hl0 as (Hp' & _). rewrite Hp'. simpl.
        now rewrite Ename, Eslash.
    + destruct (Ascii.eqb c colon && negb ist) eqn:Ewild.
      * (* a wildcard *)
        assert (literal (String c rest) = false) as Hnl.
        { apply andb_true_iff in Ewild as [->%ascii_eqb_true _]. reflexivity. }
        set (wild := match wildcardChild n with Some w => w | None => _ end).
        assert (WF (S k) wild) as Hwild.
        { unfold wild. destruct (wildcardChild n) as [w|] eqn:Ew;
            [now apply Hw | apply WF_newNode]. }
        match goal with
        | |- context [addPath fuel onLeaf wild ?q' ?ws' false] =>
            destruct (IH wild q' ws' false (S k) Hwild)
              as [(kind & Hk & Hst & _)|(l0 & Hrel & Hres)]
        end.
        { rewrite length_str_drop. simpl in *. lia. }
        { simpl. rewrite length_appendName. lia. }
        { apply Hpldrop. }
        { left. exists kind. rewrite Hk. split; [reflexivity|]. split; [exact Hst|now left]. }
        right. exists l0. split.
        -- unfold wild in Hrel. destruct (wildcardChild n) as [w|]; [exact Hrel|].
           rewrite readPath_childless in Hrel by (repeat split).
           destruct (str_drop e _); [|exact Hrel].
           destruct Hrel as [Hr1 Hr2]. split; [exact Hr1|exact Hr2].
        -- destruct (onLeaf l0) as [l'| |]; [|now rewrite Hres|exact I].
           destruct Hres as (w' & Hadd & Hread). rewrite Hadd. simpl.
           eexists. split; [reflexivity|].
           now rewrite readPath_cons, Ht, Ecatch, Ewild.
      * (* a static token *)
        destruct (unescapeToken_spec ist c tok Hfb)
          as (c' & tok' & un & Hu & Hfb' & Hwt' & Hun).
        specialize (Hwt' Hwt). rewrite Hu.
        assert (plain tok' = true) as Hpltok'.
        { destruct un; [|destruct Hun as [-> _]; exact Hpltok].
          destruct Hun as (Heq & _). rewrite Heq in Hpltok. exact Hpltok. }
        destruct (token_bytes ist c rest tok e c' tok' un Ht Hu) as [Hte Hbytes].
        pose proof (Forall2_length _ _ _ Hs) as Hlen2.
        rewrite slotOf_indexOf.
        assert (forall m, literal (str_drop m (String c rest)) = false ->
                  literal (String c rest) = false) as Hlit.
        { intros m Hm. destruct (literal (String c rest)) eqn:E; [|reflexivity].
          now rewrite (literal_str_drop m _ E) in Hm. }
        destruct (indexOf c' (staticIndices n)) as [i|] eqn:Ei.
        -- destruct (indexOf_Some _ _ _ Ei) as [Hi _].
           destruct (WF_static_child k n i c' Hwf Hi)
             as (ch & Hch & (Hchp & Hcht & Hchpl) & Hchwf).
           rewrite Hch.
           (* what follows the split, whichever way it went *)
           assert (forall child0 ps,
                     splitCommonPrefix n i tok'
                     = Ok (setStaticChildAt n i child0, child0, ps) ->
                     WF k child0 -> slotOK c' child0 -> 1 <= ps ->
                     String.length (path child0) = ps ->
                     HasPrefix tok' (path child0) = true ->
                     (forall l0,
                        match readPath (setPriority child0 (S (priority child0)))
                                (str_drop (if un then S ps else ps) (String c rest))
                                (negb (Ascii.eqb c' slash)) with
                        | Some l1 => keeps l1 l0
                        | None => route l0 = "" /\ nodeHandlerMap l0 = None
                        end ->
                        match (if HasPrefix tok' (path ch)
                               then readPath ch
                                      (str_drop (if un then S (String.length (path ch))
                                                 else String.length (path ch))
                                         (String c rest))
                                      (negb (Ascii.eqb c' slash))
                               else None) with
                        | Some l => keeps l l0
                        | None => route l0 = "" /\ nodeHandlerMap l0 = None
                        end) ->
                     (exists kind,
                        (split <- splitCommonPrefix n i tok' ;;
                         let '(n1, child, prefixSplit) := split in
                         sorted <- sortStaticChild
                                     (setStaticChildAt n1 i
                                        (setPriority child (S (priority child)))) i ;;
                         let '(n3, j) := sorted in
                         match staticChild n3 !! j with
                         | Some child1 =>
                             child' <- addPath fuel onLeaf child1
                                         (str_drop (if un then S prefixSplit
                                                    else prefixSplit) (String c rest))
                                         ws (negb (Ascii.eqb c' slash)) ;;
                             Ok (setStaticChildAt n3 j child')
                         | None => Panic IndexOutOfRange
                         end) = Panic kind
                        /\ structural kind
                        /\ (literal (String c rest) = false \/ ws <> None))
                     \/ exists l0,
                          match (if HasPrefix tok' (path ch)
                                 then readPath ch
                                        (str_drop (if un then S (String.length (path ch))
                                                   else String.length (path ch))
                                           (String c rest))
                                        (negb (Ascii.eqb c' slash))
                                 else None) with
                          | Some l => keeps l l0
                          | None => route l0 = "" /\ nodeHandlerMap l0 = None
                          end
                          /\ match onLeaf l0 with
                             | Ok l' =>
                                 exists n',
                                   (split <- splitCommonPrefix n i tok' ;;
                                    let '(n1, child, prefixSplit) := split in
                                    sorted <- sortStaticChild
                                                (setStaticChildAt n1 i
                                                   (setPriority child (S (priority child)))) i ;;
                                    let '(n3, j) := sorted in
                                    match staticChild n3 !! j with
                                    | Some child1 =>
                                        child' <- addPath fuel onLeaf child1
                                                    (str_drop (if un then S prefixSplit
                                                               else prefixSplit) (String c rest))
                                                    ws (negb (Ascii.eqb c' slash)) ;;
                                        Ok (setStaticChildAt n3 j child')
                                    | None => Panic IndexOutOfRange
                                    end) = Ok n'
                                   /\ readPath n' (String c rest) ist = Some l'
                             | Panic k' =>
                                   (split <- splitCommonPrefix n i tok' ;;
                                    let '(n1, child, prefixSplit) := split in
                                    sorted <- sortStaticChild
                                                (setStaticChildAt n1 i
                                                   (setPriority child (S (priority child)))) i ;;
                                    let '(n3, j) := sorted in
                                    match staticChild n3 !! j with
                                    | Some child1 =>
                                        child' <- addPath fuel onLeaf child1
                                                    (str_drop (if un then S prefixSplit
                                                               else prefixSplit) (String c rest))
                                                    ws (negb (Ascii.eqb c' slash)) ;;
                                        Ok (setStaticChildAt n3 j child')
                                    | None => Panic IndexOutOfRange
                                    end) = Panic k'
                             | OutOfFuel => True
                             end) as Hcont.
           { intros child0 ps Hsplit Hwf0 Hslot0 Hps1 Hplen Hpre Hrel.
             rewrite Hsplit. cbn [bind]. rewrite setStaticChildAt_twice.
             set (child1 := setPriority child0 (S (priority child0))) in *.
             assert (WF k child1) as Hwf1.
             { apply WF_inv in Hwf0 as (Hs1 & Hs2 & Hs3 & Hs4 & Hs5 & Hs6).
               constructor; simpl; assumption. }
             pose proof (lookup_lt_Some _ _ _ Hi) as Hilt.
             destruct (sortStaticChild_spec (setStaticChildAt n i child1) i)
               as (si & sc & j & Hsort & Hle & Hscj & Hsij & Hl & Hperm).
             { simpl. rewrite length_insert. lia. }
             { simpl. rewrite length_insert. lia. }
             rewrite Hsort. cbn [bind].
             change (staticChild (setStatic (setStaticChildAt n i child1) si sc))
               with sc.
             simpl in Hscj. rewrite list_lookup_insert_eq in Hscj by lia.
             rewrite Hscj.
             set (q1 := str_drop (if un then S ps else ps) (String c rest)) in *.
             assert (String.length q1 < fuel) as Hfuel.
             { unfold q1. rewrite length_str_drop. simpl in *. destruct un; lia. }
             pose proof (addPath_WF onLeaf Hleaf fuel child1 q1 ws
                           (negb (Ascii.eqb c' slash)) k Hfuel Hwf1 Hws
                           (Hpldrop _)) as Hpath.
             destruct (IH child1 q1 ws (negb (Ascii.eqb c' slash)) k Hwf1 Hfuel Hws
                         (Hpldrop _))
               as [(kind & Hk & Hst & Hnl)|(l0 & Hrel0 & Hres)].
             - left. exists kind. rewrite Hk. split; [reflexivity|].
               split; [exact Hst|]. destruct Hnl as [Hnl|Hnl]; [left|now right].
               now apply (Hlit _ Hnl).
             - right. exists l0. split; [now apply Hrel|].
               destruct (onLeaf l0) as [l'| |]; [|now rewrite Hres|exact I].
               destruct Hres as (child' & Hadd & Hread). rewrite Hadd in Hpath |- *.
               destruct Hpath as (_ & Hpc & _).
               cbn [bind]. eexists. split; [reflexivity|].
               rewrite readPath_cons, Ht, Ecatch, Ewild, Hu.
               simpl in Hsij.
               rewrite (slotOf_after_descent k n i c' child1 child' si sc j Hwf Hi Hl
                          Hperm); [|congruence].
               rewrite Ascii.eqb_refl, Hpc. cbn [path child1 setPriority].
               rewrite Hpre, Hplen. exact Hread. }
           destruct (splitCommonPrefix_spec n i tok' ch Hch Hchpl)
             as [[Hp Hsp]|(Hp & j & c0 & rest0 & Hj & Hjt & Htk & Hd & H1 & Hmis & Hsp)].
           ++ (* the child's segment is a prefix of the token *)
              apply (Hcont ch (String.length (path ch))); try assumption.
              ** now rewrite setStaticChildAt_id.
              ** split; [exact Hchp|split; [exact Hcht|exact Hchpl]].
              ** now apply firstByte_length in Hchp.
              ** reflexivity.
              ** intros l0 Hrel. rewrite Hp.
                 pose proof (readPath_keeps ch (setPriority ch (S (priority ch)))
                               (str_drop (if un then S (String.length (path ch))
                                          else String.length (path ch)) (String c rest))
                               (negb (Ascii.eqb c' slash)) eq_refl eq_refl eq_refl
                               eq_refl (keeps_refl _)) as Hkp.
                 destruct (readPath ch _ _) as [l|].
                 --- destruct Hkp as (l1 & Hl1 & Hk1). rewrite Hl1 in Hrel.
                     eapply keeps_trans; eassumption.
                 --- now rewrite Hkp in Hrel.
           ++ (* the segment is split *)
              specialize (H1 c' Hchp Hfb').
              assert (IndexByte (path ch) slash = None) as Hns.
              { destruct Hcht as [E|E]; [|exact E]. rewrite E in Hj. simpl in Hj. lia. }
              assert (c' <> slash) as Hc'.
              { intros ->. destruct (path ch) as [|x r]; [discriminate|].
                injection Hchp as ->.
                unfold IndexByte in Hns. now rewrite Ascii.eqb_refl in Hns. }
              assert (c0 <> slash) as Hc0.
              { intros ->. apply (IndexByte_None_drop _ _ j) in Hns.
                rewrite Hd in Hns. unfold IndexByte in Hns.
                now rewrite Ascii.eqb_refl in Hns. }
              eapply (Hcont _ j); [exact Hsp|..].
              ** constructor; simpl; try discriminate.
                 --- constructor; [|constructor]. split.
                     +++ split; [reflexivity|]. split.
                         *** right. simpl. rewrite <- Hd.
                             now apply IndexByte_None_drop.
                         *** change (plain (String c0 rest0) = true).
                             rewrite <- Hd. now apply plain_str_drop.
                     +++ apply WF_inv in Hchwf as (Hs1 & Hs2 & Hs3 & Hs4 & Hs5 & Hs6).
                         constructor; simpl; assumption.
                 --- apply NoDup_singleton.
                 --- intros Hx. now contradiction Hx.
              ** split; simpl; [now rewrite firstByte_str_take|]. split.
                 --- right. rewrite Htk. now apply IndexByte_None_take.
                 --- now apply plain_str_take.
              ** exact H1.
              ** simpl. rewrite length_str_take. lia.
              ** simpl. apply HasPrefix_str_take.
              ** intros l0 Hrel. rewrite Hp.
                 destruct (Hbytes j) as [Hq1|Hq1]; [|lia].
                 rewrite Hq1 in Hrel.
                 apply ascii_eqb_false in Hc'. rewrite Hc' in Hrel. simpl negb in Hrel.
                 destruct (str_drop j tok' +:+ str_drop e (String c rest))
                   as [|d r] eqn:Eq1.
                 { rewrite readPath_nil in Hrel. destruct Hrel as [Hr1 Hr2].
                   simpl in Hr1, Hr2. by split. }
                 assert (d <> c0) as Hd0.
                 { assert (firstByte (str_drop j tok' +:+ str_drop e (String c rest))
                           = Some d) as Hfd by now rewrite Eq1.
                   rewrite firstByte_append in Hfd.
                   destruct (firstByte (str_drop j tok')) as [a|] eqn:Ea.
                   - injection Hfd as ->. congruence.
                   - destruct Hnext as [Hnx|[Hnx|Hnx]].
                     + congruence.
                     + rewrite Hnx in Hfd. injection Hfd as <-. congruence.
                     + subst c. destruct un.
                       * destruct Hun as (Htk' & _). rewrite Htk' in Hfb.
                         discriminate.
                       * destruct Hun as [_ ->].
                         rewrite Ascii.eqb_refl in Hc'. discriminate. }
                 rewrite readPath_cons in Hrel.
                 destruct (tokenOf d (String d r)) as [tok1 e1].
                 rewrite !andb_false_r in Hrel.
                 assert (unescapeToken true d tok1 = (d, tok1, false)) as Hu1.
                 { unfold unescapeToken. now destruct tok1 as [|? [|? ?]]. }
                 rewrite Hu1, slotOf_indexOf in Hrel. cbn [staticIndices setPriority] in Hrel.
                 rewrite indexOf_singleton in Hrel.
                 apply ascii_eqb_false in Hd0. rewrite Hd0 in Hrel. exact Hrel.
        -- (* a new static child *)
           set (q1 := str_drop e (String c rest)) in *.
           assert (String.length q1 < fuel) as Hfuel.
           { unfold q1. rewrite length_str_drop. simpl in *. lia. }
           pose proof (addPath_WF onLeaf Hleaf fuel (newNode tok') q1 ws
                         (negb (Ascii.eqb c' slash)) k Hfuel (WF_newNode k tok') Hws
                         (Hpldrop _))
             as Hpath.
           destruct (IH (newNode tok') q1 ws (negb (Ascii.eqb c' slash)) k
                       (WF_newNode k tok') Hfuel Hws (Hpldrop _))
             as [(kind & Hk & Hst & Hnl)|(l0 & Hrel0 & Hres)].
           ++ left. exists kind. rewrite Hk. split; [reflexivity|].
              split; [exact Hst|]. destruct Hnl as [Hnl|Hnl]; [left|now right].
              now apply (Hlit _ Hnl).
           ++ right. exists l0. split.
              ** rewrite readPath_childless in Hrel0 by (repeat split).
                 destruct q1; [|exact Hrel0]. destruct Hrel0 as [Hr1 Hr2].
                 by split.
              ** destruct (onLeaf l0) as [l'| |]; [|now rewrite Hres|exact I].
                 destruct Hres as (child' & Hadd & Hread). rewrite Hadd in Hpath |- *.
                 destruct Hpath as (_ & Hpc & _). simpl in Hpc.
                 cbn [bind]. eexists. split; [reflexivity|].
                 rewrite readPath_cons, Ht, Ecatch, Ewild, Hu.
                 rewrite slotOf_append; [|exact Hlen2|now apply indexOf_None].
                 rewrite Ascii.eqb_refl, Hpc, HasPrefix_refl.
                 replace (if un then S (String.length tok') else String.length tok')
                   with e by (destruct un; lia).
                 exact Hread.
Qed.

(** *** Routes survive other insertions *)

Lemma IndexByte_drop (s : string) (c : ascii) (k m : nat) :
  IndexByte s c = Some k -> m <= k ->
  IndexByte (str_drop m s) c = Some (k - m).
Proof.
  revert k m; induction s as [|d s IH]; intros k m Hi Hm; [discriminate|].
  destruct m as [|m]; [simpl; now rewrite Nat.sub_0_r|].
  unfold IndexByte in Hi; fold (IndexByte s c) in Hi.
  destruct (Ascii.eqb d c); [injection Hi as <-; lia|].
  destruct (IndexByte s c) as [k'|] eqn:E; [|discriminate].
  injection Hi as <-. simpl. apply IH; [reflexivity|lia].
Qed.

Lemma str_take_drop_comm (s : string) (k m : nat) :
  m <= k -> str_take (k - m) (str_drop m s) = str_drop m (str_take k s).
Proof.
  revert k m; induction s as [|d s IH]; intros k m Hm.
  - destruct (k - m), m, k; reflexivity.
  - destruct m as [|m]; [simpl; now rewrite Nat.sub_0_r|].
    destruct k as [|k]; [lia|]. simpl. apply IH. lia.
Qed.

Lemma IndexByte_first_ne (s : string) (c : ascii) (k m : nat) (d : ascii) :
  IndexByte s c = Some k -> m < k -> firstByte (str_drop m s) = Some d -> d <> c.
Proof.
  revert k m; induction s as [|x s IH]; intros k m Hi Hm Hd; [discriminate|].
  unfold IndexByte in Hi; fold (IndexByte s c) in Hi.
  destruct (Ascii.eqb x c) eqn:E; [injection Hi as <-; lia|].
  destruct (IndexByte s c) as [k'|] eqn:E'; [|discriminate]. injection Hi as <-.
  destruct m as [|m]; simpl in Hd.
  - injection Hd as <-. now apply ascii_eqb_false.
  - apply (IH k' m); [reflexivity|lia|exact Hd].
Qed.

Lemma IndexByte_None_first (s : string) (c d : ascii) :
  IndexByte s c = None -> firstByte s = Some d -> d <> c.
Proof.
  destruct s as [|x s]; [discriminate|]. unfold IndexByte; fold (IndexByte s c).
  intros Hi [= <-]. destruct (Ascii.eqb x c) eqn:E; [discriminate|].
  now apply ascii_eqb_false.
Qed.

(** The token seen from a byte inside it. *)
Lemma tokenOf_inside (c : ascii) (rest tok : string) (e m : nat) :
  tokenOf c (String c rest) = (tok, e) -> c <> slash -> m < e ->
  exists d r, str_drop m (String c rest) = String d r /\ d <> slash
    /\ tokenOf d (String d r) = (str_drop m tok, e - m).
Proof.
  intros Ht Hc Hm. unfold tokenOf in Ht.
  apply ascii_eqb_false in Hc. rewrite Hc in Ht.
  destruct (IndexByte (String c rest) slash) as [k|] eqn:Ek;
    injection Ht as <- <-.
  - pose proof (IndexByte_lt _ _ _ Ek) as Hk.
    destruct (str_drop_nonempty m (String c rest)) as (d & r & Hd); [lia|].
    exists d, r. split; [exact Hd|].
    assert (d <> slash) as Hds.
    { apply (IndexByte_first_ne _ _ _ m d Ek Hm). now rewrite Hd. }
    split; [exact Hds|]. unfold tokenOf.
    apply ascii_eqb_false in Hds. rewrite Hds, <- Hd.
    rewrite (IndexByte_drop _ _ k m Ek) by lia.
    now rewrite str_take_drop_comm by lia.
  - destruct (str_drop_nonempty m (String c rest)) as (d & r & Hd); [exact Hm|].
    exists d, r. split; [exact Hd|].
    pose proof (IndexByte_None_drop _ _ m Ek) as Hn. rewrite Hd in Hn.
    assert (d <> slash) as Hds by (eapply IndexByte_None_first; eauto).
    split; [exact Hds|]. unfold tokenOf.
    apply ascii_eqb_false in Hds. rewrite Hds, Hn, <- Hd.
    now rewrite length_str_drop.
Qed.

Lemma unescapeToken_inStatic (c : ascii) (tok : string) :
  unescapeToken true c tok = (c, tok, false).
Proof. unfold unescapeToken. now destruct tok as [|? [|? ?]]. Qed.

(** Reading through the intermediary node of a split leads where reading
    through the unsplit child led. *)
Lemma readPath_intermediary (pre : string) (pr : nat) (rt : string)
    (c0 : ascii) (rest0 : string) (ch : node) (j : nat)
    (cp : ascii) (restp tokp : string) (ep : nat) (istp : bool)
    (c' : ascii) (tokp' : string) (unp : bool) :
  tokenOf cp (String cp restp) = (tokp, ep) ->
  unescapeToken istp cp tokp = (c', tokp', unp) ->
  c' <> slash ->
  str_drop j (path ch) = String c0 rest0 -> j < String.length (path ch) ->
  HasPrefix tokp' (path ch) = true ->
  readPath (mkNode rt pre pr [c0] [setPath ch (String c0 rest0)] None None
              false false None None)
    (str_drop (if unp then S j else j) (String cp restp)) true
  = readPath (setPath ch (String c0 rest0))
      (str_drop (if unp then S (String.length (path ch))
                 else String.length (path ch)) (String cp restp)) true.
Proof.
  intros Ht Hu Hc' Hd Hj Hp.
  destruct (tokenOf_spec cp restp) as (tok0 & e0 & Ht0 & Htok & He & Hfb & _).
  rewrite Ht in Ht0. injection Ht0 as <- <-.
  destruct (unescapeToken_spec istp cp tokp Hfb)
    as (c1 & tok1 & un1 & Hu1 & Hfb' & _ & Hun).
  rewrite Hu in Hu1. injection Hu1 as <- <- <-.
  destruct (token_bytes istp cp restp tokp ep c' tokp' unp Ht Hu) as [Hte _].
  pose proof (HasPrefix_length _ _ Hp) as Hpl.
  assert (cp <> slash) as Hcp.
  { intros ->. destruct unp.
    - destruct Hun as (Htk & _). rewrite Htk in Hfb. discriminate.
    - destruct Hun as [_ ->]. congruence. }
  set (m := if unp then S j else j).
  assert (m < ep) as Hm by (unfold m; destruct unp; lia).
  destruct (tokenOf_inside cp restp tokp ep m Ht Hcp Hm)
    as (d & r & Hdr & Hds & Htd).
  assert (str_drop m tokp = str_drop j tokp') as Hmt.
  { unfold m. destruct unp; [|now destruct Hun as [-> _]].
    destruct Hun as (-> & _). reflexivity. }
  apply HasPrefix_app in Hp as [more Hmore].
  assert (str_drop j tokp' = String c0 rest0 +:+ more) as Hjt.
  { rewrite Hmore, <- Hd.
    rewrite <- (str_take_drop j (path ch)) at 1.
    rewrite append_assoc.
    replace j with (String.length (str_take j (path ch))) at 1
      by (rewrite length_str_take; lia).
    apply str_drop_append. }
  rewrite Hdr, readPath_cons, Htd, !andb_false_r, unescapeToken_inStatic.
  rewrite Hmt, Hjt in *. clear Hmt.
  assert (d = c0) as ->.
  { pose proof (f_equal firstByte Hdr) as Hf. simpl in Hf.
    assert (firstByte (str_drop m (String cp restp)) = Some c0) as Hf'.
    { rewrite <- (str_take_drop ep (String cp restp)), <- Htok.
      assert (forall a s t, a <= String.length s ->
                str_drop a (s +:+ t) = str_drop a s +:+ t) as Hdrop.
      { induction a as [|a IH]; intros s t Ha; [reflexivity|].
        destruct s as [|x s]; simpl in *; [lia|]. apply IH. lia. }
      rewrite Hdrop by (rewrite Htok, length_str_take; simpl; lia).
      assert (str_drop m tokp = String c0 rest0 +:+ more) as ->.
      { unfold m. destruct unp; [|destruct Hun as [<- _]; exact Hjt].
        destruct Hun as (-> & _). exact Hjt. }
      reflexivity. }
    congruence. }
  rewrite slotOf_indexOf. cbn [staticIndices staticChild].
  rewrite indexOf_singleton, Ascii.eqb_refl.
  replace ([setPath ch (String c0 rest0)] !! 0)
    with (Some (setPath ch (String c0 rest0))) by reflexivity.
  cbn [path setPath].
  rewrite (proj2 (HasPrefix_app _ _) (ex_intro _ more eq_refl)).
  apply ascii_eqb_false in Hds. rewrite Hds. simpl negb.
  rewrite <- Hdr, str_drop_drop. f_equal. f_equal.
  assert (String.length (path ch) = j + String.length (String c0 rest0)) as HP.
  { rewrite <- Hd, length_str_drop. lia. }
  unfold m. destruct unp; lia.
Qed.

Lemma survives_keeps (onLeaf : node -> res node) (n' : node) (p : string)
    (ist : bool) (l l1 : node) :
  keeps l l1 -> survives onLeaf n' p ist l1 -> survives onLeaf n' p ist l.
Proof.
  intros Hk (l' & Hr & [Hk'|(l0 & Hk0 & Ho)]); exists l'; split; try exact Hr.
  - left. eapply keeps_trans; eassumption.
  - right. exists l0. split; [eapply keeps_trans; eassumption|exact Ho].
Qed.

Lemma survives_same (onLeaf : node -> res node) (n n' : node) (p : string)
    (ist : bool) (l : node) :
  readPath n' p ist = readPath n p ist -> readPath n p ist = Some l ->
  survives onLeaf n' p ist l.
Proof.
  intros He Hr. exists l. split; [congruence|left; apply keeps_refl].
Qed.

(** An insertion leaves the route of every other pattern in place. *)
Lemma addPath_survives (onLeaf : node -> res node) :
  leafUpdate onLeaf ->
  forall fuel n q ws istq k n',
    WF k n -> String.length q < fuel -> length (default [] ws) = k ->
    plain q = true ->
    addPath fuel onLeaf n q ws istq = Ok n' ->
    forall p ist l, readPath n p ist = Some l -> survives onLeaf n' p ist l.
Proof.
  intros Hleaf. induction fuel as [|fuel IH];
    intros n q ws istq k n' Hwf Hlen Hws Hpl Hadd p ist l Hread; [lia|].
  destruct q as [|c rest].
  - (* the leaf *)
    simpl in Hadd.
    assert (exists n1, keeps n n1 /\ onLeaf n1 = Ok n'
              /\ staticIndices n1 = staticIndices n
              /\ staticChild n1 = staticChild n
              /\ wildcardChild n1 = wildcardChild n
              /\ catchAllChild n1 = catchAllChild n) as (n1 & Hk & Ho & E1 & E2 & E3 & E4).
    { destruct ws as [wsl|]; [|exists n; by repeat split].
      destruct (leafWildcardNames n) as [old|].
      - destruct (negb _); [discriminate|]. destruct (sameNames old wsl);
          [|discriminate]. exists n. by repeat split.
      - eexists. split; [|split; [exact Hadd|by repeat split]]. by split. }
    pose proof (Hleaf n1) as Hl1. rewrite Ho in Hl1.
    destruct Hl1 as (_ & _ & F1 & F2 & F3 & F4 & _).
    destruct p as [|cp rp].
    + rewrite readPath_nil in Hread. injection Hread as <-.
      exists n'. split; [apply readPath_nil|]. right. now exists n1.
    + apply (survives_same _ n); [|exact Hread].
      rewrite (readPath_same_children n n'); [reflexivity|congruence..].
  - pose proof Hwf as (Hs & Hnd & Hw & Hc & Hn & Hh)%WF_inv.
    simpl addPath in Hadd.
    destruct (tokenOf_spec c rest) as (tok & e & Ht & Htok & He & Hfb & Hwt & Hnext).
    assert (plain tok = true) as Hpltok by (rewrite Htok; now apply plain_str_take).
    assert (forall m, plain (str_drop m (String c rest)) = true) as Hpldrop
      by (intros m; now apply plain_str_drop).
    rewrite Ht in Hadd.
    (* the empty pattern leads to the node itself *)
    assert (keeps n n' ->
            (forall cp rp, readPath n (String cp rp) ist = Some l ->
               survives onLeaf n' (String cp rp) ist l) ->
            survives onLeaf n' p ist l) as Hcases.
    { intros Hk Hne. destruct p as [|cp rp]; [|now apply Hne].
      rewrite readPath_nil in Hread. injection Hread as <-.
      exists n'. split; [apply readPath_nil|now left]. }
    destruct (Ascii.eqb c star && negb istq) eqn:Ecatch.
    + (* a catch-all *)
      set (cat := match catchAllChild n with Some ca => ca | None => _ end) in Hadd.
      destruct (String.eqb rest (path cat)) eqn:Ename; simpl negb in Hadd;
        cbv iota in Hadd; [|discriminate].
      destruct (notNil (IndexByte (String c rest) slash)) eqn:Eslash; [discriminate|].
      set (l0 := setLeafWildcardNames cat _) in Hadd.
      pose proof (Hleaf l0) as Hl0.
      destruct (onLeaf l0) as [leaf| |] eqn:Ho; [|discriminate..].
      simpl in Hadd. injection Hadd as <-.
      destruct Hl0 as (Hp' & _).
      apply Hcases; [by split|]. clear Hcases Hread. intros cp rp Hread.
      pose proof (readPath_cons (setCatchAllChild n (Some leaf)) cp rp ist) as Hn'.
      rewrite readPath_cons in Hread.
      destruct (tokenOf cp (String cp rp)) as [tokp ep].
      change (wildcardChild (setCatchAllChild n (Some leaf)))
        with (wildcardChild n) in Hn'.
      change (slotOf (setCatchAllChild n (Some leaf))) with (slotOf n) in Hn'.
      destruct (Ascii.eqb cp star && negb ist);
        [|exists l; split; [now rewrite Hn'|left; apply keeps_refl]].
      cbn [catchAllChild setCatchAllChild] in Hn'. rewrite Hp' in Hn'.
      cbn [path l0 setLeafWildcardNames] in Hn'.
      unfold cat in *. destruct (catchAllChild n) as [ca|]; [|discriminate].
      destruct (String.eqb rp (path ca)
                && negb (notNil (IndexByte (String cp rp) slash)));
        [|discriminate].
      injection Hread as <-.
      exists leaf. split; [exact Hn'|]. right. exists l0. split; [by split|exact Ho].
    + destruct (Ascii.eqb c colon && negb istq) eqn:Ewild.
      * (* a wildcard *)
        set (wild := match wildcardChild n with Some w => w | None => _ end) in Hadd.
        assert (WF (S k) wild) as Hwild.
        { unfold wild. destruct (wildcardChild n) as [w|] eqn:Ew;
            [now apply Hw | apply WF_newNode]. }
        match type of Hadd with
        | context [addPath fuel onLeaf wild ?q' ?ws' false] =>
            pose proof (IH wild q' ws' false (S k)) as IHw;
            destruct (addPath fuel onLeaf wild q' ws' false) as [w'| |] eqn:Hsub;
              [|discriminate..]
        end.
        simpl in Hadd. injection Hadd as <-.
        specialize (IHw w' Hwild).
        apply Hcases; [by split|]. clear Hcases Hread. intros cp rp Hread.
        pose proof (readPath_cons (setWildcardChild n (Some w')) cp rp ist) as Hn'.
        rewrite readPath_cons in Hread.
        destruct (tokenOf cp (String cp rp)) as [tokp ep].
        change (catchAllChild (setWildcardChild n (Some w')))
          with (catchAllChild n) in Hn'.
        change (slotOf (setWildcardChild n (Some w'))) with (slotOf n) in Hn'.
        destruct (Ascii.eqb cp star && negb ist);
          [exists l; split; [now rewrite Hn'|left; apply keeps_refl]|].
        destruct (Ascii.eqb cp colon && negb ist);
          [|exists l; split; [now rewrite Hn'|left; apply keeps_refl]].
        cbn [wildcardChild setWildcardChild] in Hn'.
        unfold wild in *. destruct (wildcardChild n) as [w|]; [|discriminate].
        unfold survives. rewrite Hn'.
        apply IHw; [| |apply Hpldrop|reflexivity|exact Hread].
        -- rewrite length_str_drop. simpl in *. lia.
        -- simpl. rewrite length_appendName. lia.
      * (* a static token *)
        destruct (unescapeToken_spec istq c tok Hfb)
          as (c' & tok' & un & Hu & Hfb' & Hwt' & Hun).
        specialize (Hwt' Hwt). rewrite Hu in Hadd.
        assert (plain tok' = true) as Hpltok'.
        { destruct un; [|destruct Hun as [-> _]; exact Hpltok].
          destruct Hun as (Heq & _). rewrite Heq in Hpltok. exact Hpltok. }
        pose proof (Forall2_length _ _ _ Hs) as Hlen2.
        (* a pattern that does not enter the slot of [c'] reads the same *)
        assert (forall n1, keeps n n1 ->
                  wildcardChild n1 = wildcardChild n ->
                  catchAllChild n1 = catchAllChild n ->
                  (forall x, slotOf n1 x = if Ascii.eqb x c' then slotOf n1 c'
                                           else slotOf n x) ->
                  (forall cp rp tokp ep tokp' unp ch,
                     tokenOf cp (String cp rp) = (tokp, ep) ->
                     unescapeToken ist cp tokp = (c', tokp', unp) ->
                     slotOf n c' = Some ch ->
                     HasPrefix tokp' (path ch) = true ->
                     readPath ch
                       (str_drop (if unp then S (String.length (path ch))
                                  else String.length (path ch)) (String cp rp))
                       (negb (Ascii.eqb c' slash)) = Some l ->
                     exists l',
                       match slotOf n1 c' with
                       | Some child =>
                           if HasPrefix tokp' (path child) then
                             readPath child
                               (str_drop (if unp then S (String.length (path child))
                                          else String.length (path child))
                                  (String cp rp))
                               (negb (Ascii.eqb c' slash))
                           else None
                       | None => None
                       end = Some l'
                       /\ (keeps l l' \/ exists l0, keeps l l0 /\ onLeaf l0 = Ok l')) ->
                  survives onLeaf n1 p ist l) as Hslot.
        { intros n1 Hk Ew Ec Hsl Hin. destruct p as [|cp rp].
          { rewrite readPath_nil in Hread. injection Hread as <-.
            exists n1. split; [apply readPath_nil|now left]. }
          pose proof (readPath_cons n1 cp rp ist) as Hn'.
          rewrite readPath_cons in Hread.
          destruct (tokenOf cp (String cp rp)) as [tokp ep] eqn:Etp.
          rewrite Ew, Ec in Hn'.
          destruct (Ascii.eqb cp star && negb ist);
            [exists l; split; [now rewrite Hn'|left; apply keeps_refl]|].
          destruct (Ascii.eqb cp colon && negb ist);
            [exists l; split; [now rewrite Hn'|left; apply keeps_refl]|].
          destruct (unescapeToken ist cp tokp) as [[cp' tokp'] unp] eqn:Eup.
          rewrite Hsl in Hn'.
          destruct (Ascii.eqb cp' c') eqn:Ecp;
            [|exists l; split; [now rewrite Hn'|left; apply keeps_refl]].
          apply ascii_eqb_true in Ecp as ->.
          destruct (slotOf n c') as [ch|] eqn:Esl; [|discriminate].
          destruct (HasPrefix tokp' (path ch)) eqn:Hpre; [|discriminate].
          unfold survives. rewrite Hn'.
          now apply (Hin cp rp tokp ep tokp' unp ch). }
        clear Hcases.
        destruct (indexOf c' (staticIndices n)) as [i|] eqn:Ei.
        -- destruct (indexOf_Some _ _ _ Ei) as [Hi _].
           destruct (WF_static_child k n i c' Hwf Hi)
             as (ch & Hch & (Hchp & Hcht & Hchpl) & Hchwf).
           assert (slotOf n c' = Some ch) as Hslc by now rewrite slotOf_indexOf, Ei.
           destruct (splitCommonPrefix_WF k n i tok' c' Hwf Hi Hfb' Hpltok')
             as (child0 & ps & Hsplit & Hwf0 & Hslot0 & Hps).
           rewrite Hsplit in Hadd. cbn [bind] in Hadd.
           rewrite setStaticChildAt_twice in Hadd.
           set (child1 := setPriority child0 (S (priority child0))) in *.
           assert (WF k child1) as Hwf1.
           { apply WF_inv in Hwf0 as (Hs1 & Hs2 & Hs3 & Hs4 & Hs5 & Hs6).
             constructor; simpl; assumption. }
           pose proof (lookup_lt_Some _ _ _ Hi) as Hilt.
           destruct (sortStaticChild_spec (setStaticChildAt n i child1) i)
             as (si & sc & j & Hsort & Hle & Hscj & Hsij & Hl & Hperm).
           { simpl. rewrite length_insert. lia. }
           { simpl. rewrite length_insert. lia. }
           rewrite Hsort in Hadd. cbn [bind] in Hadd.
           change (staticChild (setStatic (setStaticChildAt n i child1) si sc))
             with sc in Hadd.
           simpl in Hscj, Hsij. rewrite list_lookup_insert_eq in Hscj by lia.
           rewrite Hscj in Hadd.
           set (q1 := str_drop (if un then S ps else ps) (String c rest)) in *.
           assert (String.length q1 < fuel) as Hfuel.
           { unfold q1. rewrite length_str_drop. simpl in *. destruct un; lia. }
           pose proof (addPath_WF onLeaf Hleaf fuel child1 q1 ws
                         (negb (Ascii.eqb c' slash)) k Hfuel Hwf1 Hws
                         (Hpldrop _)) as Hpath.
           pose proof (IH child1 q1 ws (negb (Ascii.eqb c' slash)) k) as IHc.
           destruct (addPath fuel onLeaf child1 q1 ws _) as [child'| |] eqn:Hsub;
             [|discriminate..].
           cbn [bind] in Hadd. injection Hadd as <-.
           destruct Hpath as (_ & Hpc & _).
           specialize (IHc child' Hwf1 Hfuel Hws (Hpldrop _) eq_refl).
           pose proof (slotOf_after_descent k n i c' child1 child' si sc j Hwf Hi Hl
                         Hperm ltac:(congruence)) as Hso.
           apply Hslot; [by split|reflexivity|reflexivity| |].
           { intros x. rewrite !Hso, Ascii.eqb_refl. reflexivity. }
           intros cp rp tokp ep tokp' unp ch0 Etp Eup Hs0 Hpre Hrd.
           rewrite Hslc in Hs0. injection Hs0 as <-.
           rewrite Hso, Ascii.eqb_refl, Hpc. cbn [path child1 setPriority].
           (* how the split went *)
           destruct (splitCommonPrefix_spec n i tok' ch Hch Hchpl)
             as [[Hp Hsp]|(Hp & j0 & c0 & rest0 & Hj & Hjt & Htk & Hd & H1 & Hmis & Hsp)];
             rewrite Hsp in Hsplit.
           ++ assert (child0 = ch) as ->.
              { injection Hsplit as _ <- _. reflexivity. }
              rewrite Hpre.
              pose proof (readPath_keeps ch child1
                            (str_drop (if unp then S (String.length (path ch))
                                       else String.length (path ch)) (String cp rp))
                            (negb (Ascii.eqb c' slash)) eq_refl eq_refl eq_refl
                            eq_refl (keeps_refl _)) as Hkp.
              rewrite Hrd in Hkp. destruct Hkp as (l1 & Hl1 & Hk1).
              apply (survives_keeps _ _ _ _ _ _ Hk1). now apply IHc.
           ++ injection Hsplit as Hn1 <- <-. clear Hn1.
              specialize (H1 c' Hchp Hfb').
              assert (IndexByte (path ch) slash = None) as Hns.
              { destruct Hcht as [E|E]; [|exact E]. rewrite E in Hj. simpl in Hj. lia. }
              assert (c' <> slash) as Hc'.
              { intros ->. destruct (path ch) as [|x r]; [discriminate|].
                injection Hchp as ->.
                unfold IndexByte in Hns. now rewrite Ascii.eqb_refl in Hns. }
              cbn [path]. rewrite length_str_take.
              replace (j0 `min` String.length tok') with j0 by lia.
              assert (HasPrefix tokp' (str_take j0 tok') = true) as ->.
              { apply HasPrefix_app in Hpre as [more ->]. rewrite Htk.
                apply HasPrefix_app. exists (str_drop j0 (path ch) +:+ more).
                now rewrite <- append_assoc, str_take_drop. }
              pose proof (readPath_intermediary (str_take j0 tok')
                            (S (priority ch)) "" c0 rest0 ch j0 cp rp tokp ep ist
                            c' tokp' unp Etp Eup Hc' Hd Hj Hpre) as Hint.
              pose proof (readPath_keeps ch (setPath ch (String c0 rest0))
                            (str_drop (if unp then S (String.length (path ch))
                                       else String.length (path ch)) (String cp rp))
                            (negb (Ascii.eqb c' slash)) eq_refl eq_refl eq_refl
                            eq_refl (keeps_refl _)) as Hkp.
              rewrite Hrd in Hkp. destruct Hkp as (l1 & Hl1 & Hk1).
              apply ascii_eqb_false in Hc'. rewrite Hc' in *. simpl negb in *.
              apply (survives_keeps _ _ _ _ _ _ Hk1). apply IHc.
              unfold child1, setPriority.
              cbn [route path priority staticIndices staticChild wildcardChild
                   catchAllChild addSlash isCatchAll nodeHandlerMap
                   leafWildcardNames].
              rewrite Hint. exact Hl1.
        -- (* a new static child *)
           set (q1 := str_drop e (String c rest)) in *.
           destruct (addPath fuel onLeaf (newNode tok') q1 ws _) as [child'| |] eqn:Hsub;
             [|discriminate..].
           cbn [bind] in Hadd. injection Hadd as <-.
           assert (forall x,
                     slotOf (setStatic n (staticIndices n ++ [c'])
                               (staticChild n ++ [child'])) x
                     = if Ascii.eqb x c' then Some child' else slotOf n x) as Hso.
           { intros x. apply slotOf_append; [exact Hlen2|now apply indexOf_None]. }
           apply Hslot; [by split|reflexivity|reflexivity| |].
           { intros x. rewrite !Hso, Ascii.eqb_refl. reflexivity. }
           intros cp rp tokp ep tokp' unp ch0 Etp Eup Hs0 Hpre Hrd.
           rewrite slotOf_indexOf, Ei in Hs0. discriminate.
Qed.

(** *** The handler table *)

Lemma hmGet_hmSet_eq (hm : handlerMap) (v : string) (x : HandlerFunc) :
  hmGet (hmSet hm v x) v = x.
Proof.
  unfold hmGet, hmSet, hmSetField.
  destruct (String.eqb v MethodGet) eqn:E1; [reflexivity|].
  destruct (String.eqb v MethodPost) eqn:E2; [reflexivity|].
  destruct (String.eqb v MethodPut) eqn:E3; [reflexivity|].
  destruct (String.eqb v MethodDelete) eqn:E4; [reflexivity|].
  destruct (String.eqb v MethodHead) eqn:E5; [reflexivity|].
  destruct (String.eqb v MethodOptions) eqn:E6; [reflexivity|].
  destruct (String.eqb v MethodPatch) eqn:E7; [reflexivity|].
  cbn [hm_m]. now rewrite lookup_insert_eq.
Qed.

Lemma hmGet_hmSet_ne (hm : handlerMap) (v v' : string) (x : HandlerFunc) :
  v <> v' -> hmGet (hmSet hm v x) v' = hmGet hm v'.
Proof.
  intros Hne. unfold hmGet, hmSet, hmSetField.
  destruct (String.eqb_spec v' MethodGet) as [->|N1];
    [destruct (String.eqb_spec v MethodGet); [done|];
     repeat (destruct (String.eqb v _); [reflexivity|]); reflexivity|].
  destruct (String.eqb_spec v' MethodPost) as [->|N2];
    [destruct (String.eqb v MethodGet); [reflexivity|];
     destruct (String.eqb_spec v MethodPost); [done|];
     repeat (destruct (String.eqb v _); [reflexivity|]); reflexivity|].
  destruct (String.eqb_spec v' MethodPut) as [->|N3];
    [do 2 (destruct (String.eqb v _); [reflexivity|]);
     destruct (String.eqb_spec v MethodPut); [done|];
     repeat (destruct (String.eqb v _); [reflexivity|]); reflexivity|].
  destruct (String.eqb_spec v' MethodDelete) as [->|N4];
    [do 3 (destruct (String.eqb v _); [reflexivity|]);
     destruct (String.eqb_spec v MethodDelete); [done|];
     repeat (destruct (String.eqb v _); [reflexivity|]); reflexivity|].
  destruct (String.eqb_spec v' MethodHead) as [->|N5];
    [do 4 (destruct (String.eqb v _); [reflexivity|]);
     destruct (String.eqb_spec v MethodHead); [done|];
     repeat (destruct (String.eqb v _); [reflexivity|]); reflexivity|].
  destruct (String.eqb_spec v' MethodOptions) as [->|N6];
    [do 5 (destruct (String.eqb v _); [reflexivity|]);
     destruct (String.eqb_spec v MethodOptions); [done|];
     repeat (destruct (String.eqb v _); [reflexivity|]); reflexivity|].
  destruct (String.eqb_spec v' MethodPatch) as [->|N7];
    [do 6 (destruct (String.eqb v _); [reflexivity|]);
     destruct (String.eqb_spec v MethodPatch); [done|]; reflexivity|].
  assert (default None (<[v:=x]> (default ∅ (hm_m hm)) !! v')
          = match hm_m hm with
            | Some mm => default None (mm !! v')
            | None => None
            end) as Hm.
  { rewrite lookup_insert_ne by done.
    destruct (hm_m hm); [reflexivity|]. simpl. now rewrite lookup_empty. }
  repeat (destruct (String.eqb v _); [exact Hm|]). exact Hm.
Qed.

Lemma implicitHead_hmSet (hm : handlerMap) (v : string) (x : HandlerFunc) :
  implicitHead (hmSet hm v x) = implicitHead hm.
Proof.
  unfold hmSet, hmSetField.
  repeat (destruct (String.eqb v _); [reflexivity|]). reflexivity.
Qed.

Lemma hmGet_setImplicitHead (hm : handlerMap) (b : bool) (v : string) :
  hmGet (setImplicitHead hm b) v = hmGet hm v.
Proof. reflexivity. Qed.

(** What [setHandler] does to the table. *)
Lemma setHandler_spec (n : node) (verb : string) (handler : HandlerFunc)
    (implicit : bool) :
  let hm := default newHandlerMap (nodeHandlerMap n) in
  if notNil (hmGet hm verb)
     && (negb (String.eqb verb MethodHead) || negb (implicitHead hm))
  then setHandler n verb handler implicit = Panic AlreadyHandles
  else exists hm',
      setHandler n verb handler implicit = Ok (setHandlerMap n (Some hm'))
      /\ hmGet hm' verb = handler
      /\ (forall v, v <> verb -> hmGet hm' v = hmGet hm v)
      /\ implicitHead hm'
         = if String.eqb verb MethodHead then implicit else implicitHead hm.
Proof.
  unfold setHandler. destruct (nodeHandlerMap n) as [hm0|]; simpl;
    (destruct (_ && _); [reflexivity|]);
    (eexists; split; [reflexivity|]);
    (destruct (String.eqb verb MethodHead); simpl;
     (split; [apply hmGet_hmSet_eq|]);
     (split; [intros v Hv; now apply hmGet_hmSet_ne|]);
     try reflexivity; apply implicitHead_hmSet).
Qed.

(** What the closure of [Handle] does to the leaf. *)
Lemma addOneLeaf_spec (t : TreeMux) (m : string) (handler : HandlerFunc)
    (sf : bool) (P : string) (l0 : node) :
  let hm := default newHandlerMap (nodeHandlerMap l0) in
  let implicitStep :=
    HeadCanUseGet t && String.eqb m MethodGet
    && negb (notNil (hmGet hm MethodHead)) in
  if negb (String.eqb (route l0) "") && negb (String.eqb (route l0) P)
  then addOneLeaf t m handler sf P l0 = Panic RouteMismatch
  else if notNil (hmGet hm m)
          && (negb (String.eqb m MethodHead) || negb (implicitHead hm))
  then addOneLeaf t m handler sf P l0 = Panic AlreadyHandles
  else exists l' hm',
      addOneLeaf t m handler sf P l0 = Ok l'
      /\ route l' = (if String.eqb (route l0) "" then P else route l0)
      /\ nodeHandlerMap l' = Some hm'
      /\ hmGet hm' m = handler
      /\ (forall v, v <> m ->
            hmGet hm' v = if implicitStep && String.eqb v MethodHead
                          then handler else hmGet hm v)
      /\ implicitHead hm'
         = if String.eqb m MethodHead then false
           else if implicitStep then true else implicitHead hm.
Proof.
  intros hm implicitStep. unfold addOneLeaf.
  set (node1 := if String.eqb (route l0) "" then _ else _).
  destruct (negb (String.eqb (route l0) "") && negb (String.eqb (route l0) P))
    eqn:Eroute.
  { unfold node1. destruct (String.eqb (route l0) ""); [discriminate|].
    simpl in Eroute. now rewrite Eroute. }
  set (n1 := if String.eqb (route l0) "" then setRoute l0 P else l0).
  assert (node1 = Ok n1) as ->.
  { unfold node1, n1. destruct (String.eqb (route l0) ""); [reflexivity|].
    simpl in Eroute. now rewrite Eroute. }
  cbn [bind].
  set (n2 := if sf then setAddSlash n1 true else n1).
  assert (nodeHandlerMap n2 = nodeHandlerMap l0) as Hhm2.
  { unfold n2, n1. now destruct sf, (String.eqb (route l0) ""). }
  assert (route n2 = if String.eqb (route l0) "" then P else route l0) as Hr2.
  { unfold n2, n1. now destruct sf, (String.eqb (route l0) ""). }
  pose proof (setHandler_spec n2 m handler false) as Hs1.
  cbv zeta in Hs1. rewrite Hhm2 in Hs1. fold hm in Hs1.
  destruct (notNil (hmGet hm m) && _) eqn:Eblock; [now rewrite Hs1|].
  destruct Hs1 as (hm1 & -> & Hg1 & Ho1 & Hi1). cbn [bind nodeHandlerMap setHandlerMap].
  destruct (String.eqb_spec m MethodGet) as [->|Hget].
  - (* a GET: the implicit HEAD *)
    assert (hmGet hm1 MethodHead = hmGet hm MethodHead) as Hh1
      by (apply Ho1; discriminate).
    rewrite Hh1. unfold implicitStep.
    destruct (HeadCanUseGet t && true && negb (notNil (hmGet hm MethodHead)))
      eqn:Eimp.
    + pose proof (setHandler_spec (setHandlerMap n2 (Some hm1)) MethodHead
                    handler true) as Hs2.
      cbv zeta in Hs2. cbn [nodeHandlerMap setHandlerMap default] in Hs2.
      unfold id in Hs2.
      apply andb_true_iff in Eimp as [_ Hnil]. apply negb_true_iff in Hnil.
      rewrite Hh1, Hnil in Hs2. cbn [andb] in Hs2.
      destruct Hs2 as (hm2 & -> & Hg2 & Ho2 & Hi2).
      eexists _, hm2. split; [reflexivity|]. split; [exact Hr2|].
      split; [reflexivity|]. split; [rewrite Ho2 by discriminate; exact Hg1|].
      split; [|exact Hi2].
      intros v Hv. destruct (String.eqb_spec v MethodHead) as [->|Hvh];
        [exact Hg2|]. rewrite Ho2 by exact Hvh. now apply Ho1.
    + eexists _, hm1. split; [reflexivity|]. split; [exact Hr2|].
      split; [reflexivity|]. split; [exact Hg1|]. split; [|exact Hi1].
      intros v Hv. now apply Ho1.
  - unfold implicitStep. rewrite !andb_false_r. cbn [andb].
    eexists _, hm1. split; [reflexivity|]. split; [exact Hr2|].
    split; [reflexivity|]. split; [exact Hg1|]. split; [|exact Hi1].
    intros v Hv. now apply Ho1.
Qed.

(** A registration at a node leaves it with the registered handler. *)
Lemma addOneLeaf_registers (t : TreeMux) (m : string) (h : H) (sf : bool)
    (P : string) (l0 l' : node) :
  P <> "" -> addOneLeaf t m (Some h) sf P l0 = Ok l' ->
  route l' = P /\ exists hm', nodeHandlerMap l' = Some hm'
    /\ hmGet hm' m = Some h /\ (m = MethodHead -> implicitHead hm' = false).
Proof.
  intros HP Hadd. pose proof (addOneLeaf_spec t m (Some h) sf P l0) as Hs.
  cbv zeta in Hs.
  destruct (negb (String.eqb (route l0) "") && negb (String.eqb (route l0) P))
    eqn:Eroute; [congruence|].
  destruct (_ && _) in Hs; [congruence|].
  destruct Hs as (l1 & hm' & Hadd' & Hr & Hhm & Hg & _ & Hi).
  rewrite Hadd in Hadd'. injection Hadd' as <-. split.
  - rewrite Hr. destruct (String.eqb_spec (route l0) ""); [reflexivity|].
    simpl in Eroute. now apply negb_false_iff, String.eqb_eq in Eroute.
  - exists hm'. split; [exact Hhm|]. split; [exact Hg|].
    intros ->. exact Hi.
Qed.

(** A registration at a node leaves the explicit registrations it holds. *)
Lemma addOneLeaf_preserves (t : TreeMux) (m : string) (handler : HandlerFunc)
    (sf : bool) (Q : string) (l0 l' : node) (v : string) (h : H)
    (hm : handlerMap) :
  route l0 <> "" -> nodeHandlerMap l0 = Some hm -> hmGet hm v = Some h ->
  (v = MethodHead -> implicitHead hm = false) ->
  addOneLeaf t m handler sf Q l0 = Ok l' ->
  route l' = route l0 /\ exists hm', nodeHandlerMap l' = Some hm'
    /\ hmGet hm' v = Some h /\ (v = MethodHead -> implicitHead hm' = false).
Proof.
  intros Hr0 Hhm Hg Hex Hadd.
  pose proof (addOneLeaf_spec t m handler sf Q l0) as Hs. cbv zeta in Hs.
  rewrite Hhm in Hs. cbn [default] in Hs. unfold id in Hs.
  destruct (negb (String.eqb (route l0) "") && negb (String.eqb (route l0) Q));
    [congruence|].
  destruct (notNil (hmGet hm m) && _) eqn:Eblock; [congruence|].
  destruct Hs as (l1 & hm' & Hadd' & Hr & Hhm' & Hg' & Ho & Hi).
  rewrite Hadd in Hadd'. injection Hadd' as <-.
  apply String.eqb_neq in Hr0. rewrite Hr0 in Hr. split; [exact Hr|].
  exists hm'. split; [exact Hhm'|].
  assert (v <> m) as Hvm.
  { intros ->. rewrite Hg in Eblock. cbn [notNil andb] in Eblock.
    destruct (String.eqb_spec m MethodHead) as [->|_]; [|discriminate].
    rewrite (Hex eq_refl) in Eblock. discriminate. }
  split.
  - rewrite (Ho v Hvm).
    destruct (String.eqb_spec v MethodHead) as [->|_];
      [|now rewrite andb_false_r].
    rewrite Hg. cbn [notNil negb]. now rewrite !andb_false_r.
  - intros ->. rewrite Hi.
    destruct (String.eqb_spec m MethodHead) as [->|_]; [done|].
    rewrite Hg. cbn [notNil negb]. rewrite !andb_false_r. now apply Hex.
Qed.

(** A second registration of a verb at a node is refused. *)
Lemma addOneLeaf_refuses (t : TreeMux) (m : string) (handler : HandlerFunc)
    (sf : bool) (P : string) (l0 : node) (h : H) (hm : handlerMap) :
  route l0 = P -> nodeHandlerMap l0 = Some hm -> hmGet hm m = Some h ->
  (m = MethodHead -> implicitHead hm = false) ->
  addOneLeaf t m handler sf P l0 = Panic AlreadyHandles.
Proof.
  intros Hr0 Hhm Hg Hex.
  pose proof (addOneLeaf_spec t m handler sf P l0) as Hs. cbv zeta in Hs.
  rewrite Hhm in Hs. cbn [default] in Hs. unfold id in Hs.
  rewrite Hr0, String.eqb_refl, andb_false_r, Hg in Hs. cbn [notNil andb] in Hs.
  destruct (String.eqb_spec m MethodHead) as [->|_]; [|exact Hs].
  now rewrite (Hex eq_refl) in Hs.
Qed.

(** *** Registered routes *)

Lemma tail1_Ok (s p : string) : tail1 s = Ok p -> exists c, s = String c p.
Proof. destruct s as [|c s]; [discriminate|]. intros [= <-]. now exists c. Qed.

Lemma addOne_registers (t t' : TreeMux) (m : string) (h : H) (sf : bool)
    (P : string) :
  WF 0 (root t) -> plain P = true ->
  addOne t m (Some h) sf P = Ok t' -> registered t' m P h.
Proof.
  intros Hwf Hpl Hadd. unfold addOne in Hadd.
  destruct P as [|c0 p]; [discriminate|]. unfold tail1 in Hadd. cbn [bind] in Hadd.
  simpl in Hpl. apply andb_true_iff in Hpl as [_ Hpl].
  pose proof (leafUpdate_addOneLeaf t m (Some h) sf (String c0 p)) as Hleaf.
  destruct (addPath_leaf _ Hleaf (S (String.length p)) (root t) p None false 0 Hwf
              ltac:(lia) eq_refl Hpl) as [(kind & Hk & _)|(l0 & _ & Hres)].
  { rewrite Hk in Hadd. discriminate. }
  pose proof (Hleaf l0) as Hl0.
  destruct (addOneLeaf t m (Some h) sf (String c0 p) l0) as [l'| |] eqn:Ho.
  - destruct Hres as (n' & Han & Hread). rewrite Han in Hadd. cbn [bind] in Hadd.
    injection Hadd as <-.
    destruct (addOneLeaf_registers t m h sf (String c0 p) l0 l' ltac:(discriminate) Ho)
      as (Hr & hm' & Hhm & Hg & Hi).
    exists p, l', hm'. repeat split; assumption.
  - rewrite Hres in Hadd. discriminate.
  - contradiction.
Qed.

Lemma addOne_preserves (t t' : TreeMux) (m : string) (handler : HandlerFunc)
    (sf : bool) (Q : string) (v P : string) (h : H) :
  WF 0 (root t) -> plain Q = true -> registered t v P h ->
  addOne t m handler sf Q = Ok t' -> registered t' v P h.
Proof.
  intros Hwf Hpl (p & l & hm & Hp & Hread & Hr & Hhm & Hg & Hi) Hadd.
  unfold addOne in Hadd.
  destruct Q as [|c0 q]; [discriminate|]. unfold tail1 in Hadd. cbn [bind] in Hadd.
  simpl in Hpl. apply andb_true_iff in Hpl as [_ Hpl].
  pose proof (leafUpdate_addOneLeaf t m handler sf (String c0 q)) as Hleaf.
  destruct (addPath _ _ (root t) q None false) as [r| |] eqn:Han; [|discriminate..].
  cbn [bind] in Hadd. injection Hadd as <-.
  destruct (addPath_survives _ Hleaf (S (String.length q)) (root t) q None false 0 r
              Hwf ltac:(lia) eq_refl Hpl Han p false l Hread) as (l' & Hread' & [[Hk1 Hk2]|(l0 & [Hk1 Hk2] & Ho)]).
  - exists p, l', hm. repeat split; try assumption; congruence.
  - apply tail1_Ok in Hp as Hc. destruct Hc as [c ->].
    assert (route l0 <> "") as Hne by (rewrite Hk1, Hr; discriminate).
    assert (nodeHandlerMap l0 = Some hm) as Hhm0 by congruence.
    destruct (addOneLeaf_preserves t m handler sf (String c0 q) l0 l' v h hm
                Hne Hhm0 Hg Hi Ho) as (Hr' & hm' & Hhm' & Hg' & Hi').
    exists p, l', hm'. repeat split; try assumption. congruence.
Qed.

Lemma handlerWithMiddlewares_stack (g : Group) (handler : HandlerFunc) :
  (if (0 <? length (stack g))%nat
   then handlerWithMiddlewares handler (stack g) else handler)
  = handlerWithMiddlewares handler (stack g).
Proof. now destruct (stack g). Qed.

(** What [Handle] consists of when it succeeds. *)
Lemma Handle_Ok (g : Group) (t t' : TreeMux) (m pth : string)
    (handler : HandlerFunc) :
  Handle g t m pth handler = Ok t' ->
  exists t1,
    (t1 = t
     \/ exists u, RequestURIString (snd (storedPath t (groupPath g +:+ pth)))
                  = Some u
          /\ addOne t m (handlerWithMiddlewares handler (stack g))
               (fst (storedPath t (groupPath g +:+ pth))) (unescapeSpecial u)
             = Ok t1)
    /\ addOne t1 m (handlerWithMiddlewares handler (stack g))
         (fst (storedPath t (groupPath g +:+ pth)))
         (snd (storedPath t (groupPath g +:+ pth))) = Ok t'.
Proof.
  unfold Handle. rewrite handlerWithMiddlewares_stack.
  destruct (checkPath pth) as [[]| |]; [|discriminate..]. cbn [bind].
  destruct (_ =? 0)%nat; [discriminate|].
  destruct (storedPath t _) as [sf P]. cbn [fst snd].
  destruct (EscapeAddedRoutes t).
  - destruct (RequestURIString P) as [u|] eqn:Eu; [|discriminate].
    destruct (negb _).
    + destruct (addOne t m _ sf (unescapeSpecial u)) as [t1| |] eqn:E1;
        [|discriminate..].
      cbn [bind]. intros Hadd. exists t1. split; [right; eauto|exact Hadd].
    + cbn [bind]. intros Hadd. exists t. split; [now left|exact Hadd].
  - cbn [bind]. intros Hadd. exists t. split; [now left|exact Hadd].
Qed.

Lemma addOne_WF_Ok (t t' : TreeMux) (m : string) (handler : HandlerFunc)
    (sf : bool) (P : string) :
  WF 0 (root t) -> plain P = true -> addOne t m handler sf P = Ok t' ->
  WF 0 (root t') /\ RedirectTrailingSlash t' = RedirectTrailingSlash t.
Proof.
  intros Hwf Hpl Hadd. pose proof (addOne_WF t m handler sf P Hwf Hpl) as Hx.
  rewrite Hadd in Hx. destruct Hx as (Hw & _ & Hr & _). split; assumption.
Qed.

Lemma Handle_WF_Ok (g : Group) (t t' : TreeMux) (m pth : string)
    (handler : HandlerFunc) :
  WF 0 (root t) -> plain (groupPath g +:+ pth) = true ->
  Handle g t m pth handler = Ok t' ->
  WF 0 (root t') /\ RedirectTrailingSlash t' = RedirectTrailingSlash t
  /\ HeadCanUseGet t' = HeadCanUseGet t
  /\ EscapeAddedRoutes t' = EscapeAddedRoutes t.
Proof.
  intros Hwf Hpl Hadd. pose proof (Handle_WF g t m pth handler Hwf Hpl) as Hx.
  rewrite Hadd in Hx. destruct Hx as (Hw & Hh & Hr & He).
  split; [exact Hw|]. split; [exact Hr|]. split; assumption.
Qed.

Lemma Handle_registers (g : Group) (t t' : TreeMux) (m pth : string) (h h' : H) :
  WF 0 (root t) -> plain (groupPath g +:+ pth) = true ->
  Handle g t m pth (Some h) = Ok t' ->
  handlerWithMiddlewares (Some h) (stack g) = Some h' ->
  registered t' m (snd (storedPath t (groupPath g +:+ pth))) h'.
Proof.
  intros Hwf Hpl Hh Hmw. apply Handle_Ok in Hh as (t1 & Ht1 & Hadd).
  rewrite Hmw in *. apply (plain_storedPath t) in Hpl.
  assert (WF 0 (root t1)) as Hwf1.
  { destruct Ht1 as [->|(u & Hu & HQ)]; [exact Hwf|].
    apply (addOne_WF_Ok _ _ _ _ _ _ Hwf
             (plain_unescapeSpecial _ (RequestURI_plain _ _ Hpl Hu)) HQ). }
  exact (addOne_registers _ _ _ _ _ _ Hwf1 Hpl Hadd).
Qed.

Lemma Handle_preserves (g : Group) (t t' : TreeMux) (m pth : string)
    (handler : HandlerFunc) (v P : string) (h : H) :
  WF 0 (root t) -> plain (groupPath g +:+ pth) = true ->
  registered t v P h ->
  Handle g t m pth handler = Ok t' -> registered t' v P h.
Proof.
  intros Hwf Hpl Hreg Hh. apply Handle_Ok in Hh as (t1 & Ht1 & Hadd).
  apply (plain_storedPath t) in Hpl.
  assert (WF 0 (root t1) /\ registered t1 v P h) as [Hwf1 Hreg1].
  { destruct Ht1 as [->|(u & Hu & HQ)]; [split; assumption|].
    pose proof (plain_unescapeSpecial _ (RequestURI_plain _ _ Hpl Hu)) as Hq.
    split.
    - apply (addOne_WF_Ok _ _ _ _ _ _ Hwf Hq HQ).
    - apply (addOne_preserves _ _ _ _ _ _ _ _ _ Hwf Hq Hreg HQ). }
  apply (addOne_preserves _ _ _ _ _ _ _ _ _ Hwf1 Hpl Hreg1 Hadd).
Qed.

Lemma registerAll_preserves (t t' : TreeMux) (rs : list registration)
    (v P : string) (h : H) :
  WF 0 (root t) -> Forall plainRoute rs -> registered t v P h ->
  registerAll t rs = Ok t' ->
  registered t' v P h /\ WF 0 (root t')
  /\ RedirectTrailingSlash t' = RedirectTrailingSlash t.
Proof.
  revert t; induction rs as [|r rs IH]; intros t Hwf Hpl Hreg Hall;
    simpl in Hall.
  - injection Hall as <-. split; [exact Hreg|]. split; [exact Hwf|reflexivity].
  - destruct (Handle _ t _ _ _) as [t1| |] eqn:Hh; [|discriminate..].
    cbn [bind] in Hall. apply Forall_cons in Hpl as [Hr Hpl].
    destruct (Handle_WF_Ok _ _ _ _ _ _ Hwf Hr Hh) as (Hwf1 & Hr1 & _).
    destruct (IH t1 Hwf1 Hpl (Handle_preserves _ _ _ _ _ _ _ _ _ Hwf Hr Hreg Hh)
                Hall)
      as (Hreg' & Hwf' & Hr').
    split; [exact Hreg'|]. split; [exact Hwf'|congruence].
Qed.

Lemma registerAll_WF_Ok (t t' : TreeMux) (rs : list registration) :
  WF 0 (root t) -> Forall plainRoute rs -> registerAll t rs = Ok t' ->
  WF 0 (root t') /\ RedirectTrailingSlash t' = RedirectTrailingSlash t
  /\ HeadCanUseGet t' = HeadCanUseGet t
  /\ EscapeAddedRoutes t' = EscapeAddedRoutes t.
Proof.
  revert t; induction rs as [|r rs IH]; intros t Hwf Hpl Hall; simpl in Hall.
  - injection Hall as <-. split; [exact Hwf|]. repeat split.
  - destruct (Handle _ t _ _ _) as [t1| |] eqn:Hh; [|discriminate..].
    cbn [bind] in Hall. apply Forall_cons in Hpl as [Hr Hpl].
    destruct (Handle_WF_Ok _ _ _ _ _ _ Hwf Hr Hh) as (Hwf1 & Hr1 & Hh1 & He1).
    destruct (IH t1 Hwf1 Hpl Hall) as (Hwf' & Hr' & Hh' & He').
    split; [exact Hwf'|]. repeat split; congruence.
Qed.

(** *** A literal pattern is found at its own text *)

Lemma HasPrefix_trans (s t u : string) :
  HasPrefix s t = true -> HasPrefix t u = true -> HasPrefix s u = true.
Proof.
  intros [r1 ->]%HasPrefix_app [r2 ->]%HasPrefix_app.
  apply HasPrefix_app. exists (r2 +:+ r1). now rewrite append_assoc.
Qed.

Lemma literal_search (method : string) (h : H) (hm : handlerMap) (l : node) :
  nodeHandlerMap l = Some hm -> hmGet hm method = Some h ->
  forall m p, String.length p = m ->
  forall n k ist, WF k n -> literal p = true -> readPath n p ist = Some l ->
    search n method p = Ok (mkResult (Some l) (Some h) []).
Proof.
  intros Hhm Hg m. induction m as [m IH] using lt_wf_ind.
  intros p Hm n k ist Hwf Hlit Hread.
  destruct p as [|c rest].
  - rewrite readPath_nil in Hread. injection Hread as ->.
    now rewrite search_nil, Hhm, Hg.
  - rewrite readPath_cons in Hread.
    destruct (tokenOf_spec c rest) as (tok & e & Ht & Htok & He & Hfb & Hwt & Hnext).
    rewrite Ht in Hread.
    destruct (literal_cons _ _ Hlit) as (Hs & Hc & Hb & Hrest).
    apply ascii_eqb_false in Hs as Es. apply ascii_eqb_false in Hc as Ec.
    rewrite Es, Ec in Hread. cbn [andb] in Hread.
    destruct (unescapeToken_spec ist c tok Hfb) as (c' & tok' & un & Hu & Hfb' & _ & Hun).
    rewrite Hu in Hread.
    destruct un.
    { destruct Hun as (Heq & _). rewrite Heq in Hfb. simpl in Hfb. congruence. }
    destruct Hun as [-> ->].
    destruct (slotOf n c) as [child|] eqn:Hslot; [|discriminate].
    destruct (HasPrefix tok (path child)) eqn:Hpre; [|discriminate].
    assert (HasPrefix (String c rest) (path child) = true) as Hpre'.
    { apply (HasPrefix_trans _ tok); [|exact Hpre].
      rewrite Htok. apply HasPrefix_str_take. }
    destruct (WF_inv _ _ Hwf) as (_ & Hnd & _).
    apply (slotOf_Some _ _ _ Hnd) in Hslot as Hin.
    destruct (WF_statics _ _ Hwf) as [_ Hall].
    rewrite Forall_forall in Hall. destruct (Hall _ Hin) as [[Hfbc _] Hwfc].
    cbn [fst snd] in Hfbc, Hwfc.
    rewrite search_cons.
    rewrite withStaticChild_indexOf.
    rewrite slotOf_indexOf in Hslot.
    destruct (indexOf c (staticIndices n)) as [i|]; [|discriminate].
    rewrite Hslot. rewrite prefix_test, Hpre'. cbn [bind].
    assert (String.length (path child) >= 1) as Hlen.
    { destruct (path child); [discriminate|simpl; lia]. }
    rewrite (IH (String.length (str_drop (String.length (path child)) (String c rest))))
      with (n := child) (k := k) (ist := negb (Ascii.eqb c slash)).
    + reflexivity.
    + rewrite length_str_drop. simpl in Hm |- *. lia.
    + reflexivity.
    + exact Hwfc.
    + now apply literal_str_drop.
    + exact Hread.
Qed.

Lemma literal_str_take (m : nat) (s : string) :
  literal s = true -> literal (str_take m s) = true.
Proof.
  revert m; induction s as [|c s IH]; intros [|m] Hl; try reflexivity.
  simpl in Hl |- *. apply andb_true_iff in Hl as [Hc Hl].
  rewrite Hc. cbn [andb]. now apply IH.
Qed.

Lemma literal_storedPath (t : TreeMux) (p : string) :
  literal p = true -> literal (snd (storedPath t p)) = true.
Proof.
  intros Hl. unfold storedPath.
  destruct (_ && _); cbn [snd]; [now apply literal_str_take|exact Hl].
Qed.

Lemma storedPath_flag (t t' : TreeMux) (p : string) :
  RedirectTrailingSlash t' = RedirectTrailingSlash t ->
  storedPath t' p = storedPath t p.
Proof. intros Hr. unfold storedPath. now rewrite Hr. Qed.

(** A registered literal pattern answers a request for its own text. *)
Lemma registered_lookup (t : TreeMux) (verb P : string) (h : H) :
  WF 0 (root t) -> registered t verb P h -> literal P = true ->
  exists l, search (root t) verb (match P with String _ p => p | _ => "" end)
            = Ok (mkResult (Some l) (Some h) [])
       /\ route l = P.
Proof.
  intros Hwf (p & l & hm & Hp & Hread & Hr & Hhm & Hg & _) Hlit.
  apply tail1_Ok in Hp as [c ->]. exists l. split; [|exact Hr].
  apply literal_cons in Hlit as (_ & _ & _ & Hlit).
  exact (literal_search verb h hm l Hhm Hg _ p eq_refl _ _ _ Hwf Hlit Hread).
Qed.

(** *** The leaf a registration works on *)

Lemma literal_tail (c : ascii) (p : string) :
  literal p = false -> literal (String c p) = false.
Proof. intros Hl. simpl. rewrite Hl. apply andb_false_r. Qed.

(** [addOne] either stops in [addPath] on a wildcard conflict, or hands
    the leaf of the pattern to [addOneLeaf] and returns what that returns. *)
Lemma addOne_leaf (t : TreeMux) (m : string) (handler : HandlerFunc)
    (sf : bool) (c : ascii) (p : string) :
  WF 0 (root t) -> plain p = true ->
  (exists kind, addOne t m handler sf (String c p) = Panic kind
     /\ structural kind /\ literal p = false)
  \/ exists l0,
       match readPath (root t) p false with
       | Some l => keeps l l0
       | None => route l0 = "" /\ nodeHandlerMap l0 = None
       end
       /\ match addOneLeaf t m handler sf (String c p) l0 with
          | Ok l' => exists t', addOne t m handler sf (String c p) = Ok t'
                       /\ readPath (root t') p false = Some l'
          | Panic k' => addOne t m handler sf (String c p) = Panic k'
          | OutOfFuel => False
          end.
Proof.
  intros Hwf Hpl. unfold addOne, tail1. cbn [bind].
  pose proof (leafUpdate_addOneLeaf t m handler sf (String c p)) as Hleaf.
  destruct (addPath_leaf _ Hleaf (S (String.length p)) (root t) p None false 0 Hwf
              ltac:(lia) eq_refl Hpl) as [(kind & Hk & Hs & Hl)|(l0 & Hl0 & Hres)].
  - left. exists kind. rewrite Hk. split; [reflexivity|]. split; [exact Hs|].
    destruct Hl as [Hl|Hl]; [exact Hl|congruence].
  - right. exists l0. split; [exact Hl0|].
    pose proof (Hleaf l0) as Hl1.
    destruct (addOneLeaf t m handler sf (String c p) l0) as [l'| |].
    + destruct Hres as (n' & -> & Hread). cbn [bind]. eauto.
    + now rewrite Hres.
    + exact Hl1.
Qed.

(** A pattern that serves a verb by an explicit registration refuses that
    verb a second time. *)
Lemma addOne_refuses (t : TreeMux) (verb : string) (handler : HandlerFunc)
    (sf : bool) (P : string) (h : H) :
  WF 0 (root t) -> plain P = true -> registered t verb P h ->
  exists k, addOne t verb handler sf P = Panic k
    /\ (k = AlreadyHandles \/ structural k /\ literal P = false).
Proof.
  intros Hwf Hpl (p & l & hm & Hp & Hread & Hr & Hhm & Hg & Hi).
  apply tail1_Ok in Hp as [c ->].
  simpl in Hpl. apply andb_true_iff in Hpl as [_ Hpl].
  destruct (addOne_leaf t verb handler sf c p Hwf Hpl)
    as [(kind & Hk & Hs & Hl)|(l0 & Hl0 & Hres)].
  - exists kind. split; [exact Hk|]. right. split; [exact Hs|].
    now apply literal_tail.
  - rewrite Hread in Hl0. destruct Hl0 as [Hk1 Hk2].
    rewrite (addOneLeaf_refuses t verb handler sf (String c p) l0 h hm) in Hres.
    + exists AlreadyHandles. split; [exact Hres|now left].
    + congruence.
    + congruence.
    + exact Hg.
    + exact Hi.
Qed.

(** [Handle] on a router that does not escape added routes. *)
Lemma Handle_unescaped (g : Group) (t : TreeMux) (m pth : string)
    (handler : HandlerFunc) :
  EscapeAddedRoutes t = false ->
  Handle g t m pth handler =
  (_ <- checkPath pth ;;
   if (String.length (groupPath g +:+ pth) =? 0)%nat then Panic EmptyPathMapped
   else addOne t m (handlerWithMiddlewares handler (stack g))
          (fst (storedPath t (groupPath g +:+ pth)))
          (snd (storedPath t (groupPath g +:+ pth)))).
Proof.
  intros He. unfold Handle. rewrite handlerWithMiddlewares_stack, He.
  destruct (checkPath pth) as [[]| |]; try reflexivity. cbn [bind].
  destruct (_ =? 0)%nat; [reflexivity|].
  now destruct (storedPath t _).
Qed.

Lemma Handle_checks (g : Group) (t t' : TreeMux) (m pth : string)
    (handler : HandlerFunc) :
  Handle g t m pth handler = Ok t' ->
  checkPath pth = Ok tt
  /\ (String.length (groupPath g +:+ pth) =? 0)%nat = false.
Proof.
  unfold Handle. destruct (checkPath pth) as [[]| |]; [|discriminate..].
  cbn [bind]. destruct (_ =? 0)%nat; [discriminate|]. auto.
Qed.

Lemma storedPath_nonempty (t : TreeMux) (s : string) :
  (String.length s =? 0)%nat = false ->
  exists c p, snd (storedPath t s) = String c p.
Proof.
  intros Hs. unfold storedPath.
  destruct ((1 <? String.length s)%nat) eqn:Hl; cbn [andb].
  - destruct (bool_decide _ && _); cbn [snd].
    + destruct s as [|c [|d s]]; try discriminate.
      exists c. replace (String.length (String c (String d s)) - 1)
        with (S (String.length s)) by (simpl; lia).
      simpl. eauto.
    + destruct s as [|c s]; [discriminate|eauto].
  - cbn [snd]. destruct s as [|c s]; [discriminate|eauto].
Qed.

Lemma hmGet_newHandlerMap (v : string) : hmGet newHandlerMap v = None.
Proof.
  unfold hmGet, newHandlerMap. simpl.
  repeat (destruct (String.eqb v _); [reflexivity|]). reflexivity.
Qed.

(** The static child indexed by the first byte of the path answers first. *)
Lemma search_static_first (n child : node) (method pth : string) (c : ascii)
    (st : result) :
  firstByte pth = Some c -> slotOf n c = Some child ->
  HasPrefix pth (path child) = true ->
  search child method (str_drop (String.length (path child)) pth) = Ok st ->
  handler st <> None ->
  search n method pth = Ok st.
Proof.
  intros Hfb Hslot Hpre Hst Hh.
  destruct pth as [|c' rest]; [discriminate|]. injection Hfb as ->.
  rewrite search_cons, withStaticChild_indexOf.
  rewrite slotOf_indexOf in Hslot.
  destruct (indexOf c (staticIndices n)); [|discriminate].
  rewrite Hslot, prefix_test, Hpre, Hst. cbn [bind].
  unfold Treemux.afterStatic. destruct (handler st); [reflexivity|congruence].
Qed.

(** Every node of a well-formed tree is well formed at its own depth. *)
Lemma WF_below_WF (k : nat) (n m : node) :
  WF k n -> below n m -> exists k', WF k' m.
Proof.
  intros Hwf Hb. revert k Hwf.
  induction Hb as [n|n c m Hc _ IH|n w m Hw _ IH|n ca m Hca Hb IH]; intros k Hwf.
  - exists k. exact Hwf.
  - destruct (WF_inv _ _ Hwf) as (Hs & _).
    apply list_elem_of_lookup in Hc as [i Hi].
    destruct (Forall2_lookup_r _ _ _ _ _ Hs Hi) as (x & _ & _ & Hwfc).
    exact (IH k Hwfc).
  - destruct (WF_inv _ _ Hwf) as (_ & _ & Hw' & _).
    exact (IH (S k) (Hw' w Hw)).
  - destruct (WF_inv _ _ Hwf) as (_ & _ & _ & Hc' & _).
    destruct (Hc' ca Hca) as (Hhm & Hlen & Hs & Hsc & Hwc & Hcc).
    apply (IH (S k)). apply WF_node.
    + rewrite Hs, Hsc. constructor.
    + rewrite Hs. constructor.
    + intros w Hw. congruence.
    + intros ca' Hca'. congruence.
    + intros names Hn. unfold names_of in Hlen. rewrite Hn in Hlen.
      exact Hlen.
    + intros _. exact Hlen.
Qed.

(** *** Serving a registered literal pattern *)

Lemma lookup_leaf (t : TreeMux) (verb full : string) (c : ascii) (p : string)
    (l : node) (hm : handlerMap) (h : H) :
  WF 0 (root t) -> snd (storedPath t full) = String c p -> literal p = true ->
  readPath (root t) p false = Some l -> nodeHandlerMap l = Some hm ->
  hmGet hm verb = Some h ->
  lookup t verb full = Ok (mkResult (Some l) (Some h) []).
Proof.
  intros Hwf HP Hlit Hread Hhm Hg. unfold Treemux.lookup. rewrite HP.
  cbn [tail1 bind].
  exact (literal_search verb h hm l Hhm Hg _ p eq_refl _ _ _ Hwf Hlit Hread).
Qed.

Lemma addOne_Ok_leaf (t t' : TreeMux) (m : string) (handler : HandlerFunc)
    (sf : bool) (c : ascii) (p : string) :
  WF 0 (root t) -> plain p = true ->
  addOne t m handler sf (String c p) = Ok t' ->
  exists l0 l',
    match readPath (root t) p false with
    | Some l => keeps l l0
    | None => route l0 = "" /\ nodeHandlerMap l0 = None
    end
    /\ addOneLeaf t m handler sf (String c p) l0 = Ok l'
    /\ readPath (root t') p false = Some l'.
Proof.
  intros Hwf Hpl Hadd.
  destruct (addOne_leaf t m handler sf c p Hwf Hpl)
    as [(kind & Hk & _)|(l0 & Hl0 & Hres)]; [congruence|].
  exists l0. destruct (addOneLeaf t m handler sf (String c p) l0) as [l'| |].
  - destruct Hres as (t'' & Ht'' & Hread). exists l'.
    split; [exact Hl0|]. split; [reflexivity|]. congruence.
  - congruence.
  - contradiction.
Qed.

Lemma registerAll_emptyMux (a b c : bool) (rs : list registration) (t : TreeMux) :
  Forall plainRoute rs -> registerAll (emptyMux a b c) rs = Ok t ->
  WF 0 (root t) /\ HeadCanUseGet t = a /\ RedirectTrailingSlash t = b
  /\ EscapeAddedRoutes t = c.
Proof.
  intros Hpl Hr.
  destruct (registerAll_WF_Ok _ _ _ (WF_emptyMux a b c) Hpl Hr)
    as (Hwf & H1 & H2 & H3).
  split; [exact Hwf|]. split; [exact H2|]. split; [exact H1|exact H3].
Qed.


(** *** What the matcher relies on holds in every tree *)

Lemma WFs_newNode (k : nat) (p : string) : WFs k (newNode p).
Proof.
  constructor; simpl; try discriminate; [constructor|constructor|];
    intros Hn; now contradiction Hn.
Qed.

Lemma WFs_same_below (k : nat) (n n' : node) :
  WFs k n ->
  staticIndices n' = staticIndices n ->
  staticChild n' = staticChild n ->
  wildcardChild n' = wildcardChild n ->
  catchAllChild n' = catchAllChild n ->
  (forall names, leafWildcardNames n' = Some names -> length names = k) ->
  (nodeHandlerMap n' <> None -> length (names_of n') = k) ->
  WFs k n'.
Proof.
  intros (Hs & Hnd & Hw & Hc & Hn & Hh)%WFs_inv Esi Esc Ew Ec En Hh'.
  constructor; rewrite ?Esi, ?Esc, ?Ew, ?Ec; assumption.
Qed.

Lemma WFs_setStatic (k : nat) (n : node) (si : list ascii) (sc : list node) :
  WFs k n -> Forall2 (fun _ c => WFs k c) si sc -> NoDup si ->
  WFs k (setStatic n si sc).
Proof.
  intros (_ & _ & Hw & Hc & Hn & Hh)%WFs_inv Hall Hnd.
  constructor; simpl; assumption.
Qed.

(** What [splitCommonPrefix] returns when it returns. *)
Lemma splitCommonPrefix_shape (k : nat) (n : node) (i : nat) (tok : string)
    (n1 mid : node) (ps : nat) :
  WFs k n -> splitCommonPrefix n i tok = Ok (n1, mid, ps) ->
  n1 = setStaticChildAt n i mid /\ WFs k mid /\ i < length (staticChild n).
Proof.
  intros Hwf. unfold Treemux.splitCommonPrefix.
  destruct (staticChild n !! i) as [ch|] eqn:Hch; [|discriminate].
  pose proof Hwf as (Hs & _)%WFs_inv.
  destruct (Forall2_lookup_r _ _ _ _ _ Hs Hch) as (x & _ & Hwfc).
  pose proof (lookup_lt_Some _ _ _ Hch) as Hlt.
  destruct (HasPrefix tok (path ch)).
  - intros [= <- <- <-]. rewrite setStaticChildAt_id by exact Hch.
    split; [reflexivity|]. split; [exact Hwfc|exact Hlt].
  - destruct (commonPrefixLoop _ _ _ _ _) as [j| |]; [|discriminate..].
    cbn [bind]. destruct (path (setPath ch _)) as [|c0 rest0]; [discriminate|].
    intros [= <- <- <-]. split; [reflexivity|]. split; [|exact Hlt].
    constructor; simpl; try discriminate.
    + constructor; [|constructor].
      apply (WFs_same_below k ch); try reflexivity.
      * exact Hwfc.
      * apply WFs_inv in Hwfc as (_ & _ & _ & _ & Hn & _). exact Hn.
      * apply WFs_inv in Hwfc as (_ & _ & _ & _ & _ & Hh). exact Hh.
    + apply NoDup_singleton.
    + intros Hx. now contradiction Hx.
Qed.

Lemma WFs_after_sort (k : nat) (n2 : node) (si : list ascii)
    (sc : list node) (j : nat) (child' : node) :
  WFs k n2 -> length si = length sc -> zip si sc ≡ₚ statics n2 ->
  WFs k child' ->
  WFs k (setStaticChildAt (setStatic n2 si sc) j child').
Proof.
  intros Hwf Hlen Hperm Hch.
  pose proof Hwf as (Hs & Hnd & _)%WFs_inv.
  pose proof (Forall2_length _ _ _ Hs) as Hlen2.
  assert (Forall2 (fun _ c => WFs k c) si sc) as Hall.
  { apply Forall2_zip. split; [exact Hlen|]. rewrite Hperm.
    apply Forall2_zip in Hs. apply Hs. }
  unfold setStaticChildAt. cbn [staticIndices staticChild setStatic].
  apply WFs_setStatic.
  - apply WFs_setStatic; [exact Hwf|exact Hall|].
    rewrite <- (fst_zip_same_length si sc Hlen), Hperm.
    unfold statics. now rewrite fst_zip_same_length by exact Hlen2.
  - destruct (decide (j < length sc)) as [Hj|Hj].
    + destruct (lookup_lt_is_Some_2 si j) as [x Hx]; [lia|].
      rewrite <- (list_insert_id _ _ _ Hx). now apply Forall2_insert.
    + rewrite list_insert_ge by lia. exact Hall.
  - rewrite <- (fst_zip_same_length si sc Hlen), Hperm.
    unfold statics. now rewrite fst_zip_same_length by exact Hlen2.
Qed.

(** An insertion that returns keeps what the matcher relies on, whatever
    bytes the pattern holds. *)
Lemma addPath_WFs (onLeaf : node -> res node) :
  leafUpdate onLeaf ->
  forall fuel n pth ws ist k n',
    WFs k n -> length (default [] ws) = k ->
    addPath fuel onLeaf n pth ws ist = Ok n' -> WFs k n'.
Proof.
  intros Hleaf. induction fuel as [|fuel IH];
    intros n pth ws ist k n' Hwf Hws Hadd; [discriminate|].
  pose proof Hwf as (Hs & Hnd & Hw & Hc & Hn & Hh)%WFs_inv.
  destruct pth as [|c rest].
  - (* the leaf *)
    simpl in Hadd.
    assert (forall n1, onLeaf n1 = Ok n' ->
              staticIndices n1 = staticIndices n ->
              staticChild n1 = staticChild n ->
              wildcardChild n1 = wildcardChild n ->
              catchAllChild n1 = catchAllChild n ->
              (forall names, leafWildcardNames n1 = Some names ->
                             length names = k) ->
              (length (names_of n1) = k) ->
              WFs k n') as Hdone.
    { intros n1 Ho E1 E2 E3 E4 E5 E6. pose proof (Hleaf n1) as Hl.
      rewrite Ho in Hl. destruct Hl as (_ & _ & Hsi & Hsc & Hw' & Hc' & Hn' & _).
      apply (WFs_same_below k n); try congruence.
      - intros names. rewrite Hn'. apply E5.
      - intros _. unfold names_of in *. now rewrite Hn'. }
    destruct ws as [wsl|]; simpl in Hws.
    + destruct (leafWildcardNames n) as [old|] eqn:En.
      * destruct (length old =? length wsl)%nat eqn:El; simpl in Hadd;
          [|discriminate].
        destruct (sameNames old wsl); simpl in Hadd; [|discriminate].
        apply Nat.eqb_eq in El.
        apply (Hdone n Hadd); try reflexivity.
        -- intros names. rewrite En. intros [= <-]. lia.
        -- unfold names_of. rewrite En. simpl. lia.
      * simpl in Hadd. apply (Hdone _ Hadd); try reflexivity.
        -- simpl. intros names [= <-]. exact Hws.
        -- unfold names_of. simpl. exact Hws.
    + simpl in Hadd. apply (Hdone n Hadd); try reflexivity.
      * exact Hn.
      * unfold names_of. destruct (leafWildcardNames n) as [names|] eqn:En.
        -- now apply Hn.
        -- simpl. exact Hws.
  - simpl in Hadd. destruct (tokenOf c (String c rest)) as [tok e].
    destruct (Ascii.eqb c star && negb ist).
    + (* a catch-all *)
      set (cat := match catchAllChild n with Some ca => ca | None => _ end)
        in Hadd.
      destruct (negb (String.eqb rest (path cat))); [discriminate|].
      destruct (notNil (IndexByte (String c rest) slash)); [discriminate|].
      pose proof (Hleaf (setLeafWildcardNames cat
                           (Some (appendName ws (str_drop 1 tok))))) as Hl.
      destruct (onLeaf _) as [leaf| |]; simpl in Hadd; [|discriminate..].
      injection Hadd as <-.
      destruct Hl as (Hp' & Hpr' & Hsi' & Hsc' & Hw' & Hc' & Hn' & Hh').
      constructor; simpl; try assumption.
      intros ca [= <-]. split; [exact Hh'|]. split.
      { unfold names_of. rewrite Hn'. simpl. rewrite length_appendName. lia. }
      unfold childless. rewrite Hsi', Hsc', Hw', Hc'. simpl. unfold cat.
      destruct (catchAllChild n) as [ca|] eqn:Eca;
        [apply (Hc ca eq_refl) | repeat split].
    + destruct (Ascii.eqb c colon && negb ist).
      * (* a wildcard *)
        set (wild := match wildcardChild n with Some w => w | None => _ end)
          in Hadd.
        assert (WFs (S k) wild) as Hwild.
        { unfold wild. destruct (wildcardChild n) as [w|] eqn:Ew;
            [exact (Hw w eq_refl) | apply WFs_newNode]. }
        destruct (addPath fuel onLeaf wild _ _ _) as [w'| |] eqn:Hsub;
          simpl in Hadd; [|discriminate..].
        injection Hadd as <-.
        apply (IH _ _ _ _ (S k)) in Hsub;
          [|exact Hwild|simpl; rewrite length_appendName; lia].
        constructor; simpl; try assumption.
        intros w [= <-]. exact Hsub.
      * (* a static token *)
        destruct (unescapeToken ist c tok) as [[c' tok'] un].
        destruct (indexOf c' (staticIndices n)) as [i|] eqn:Ei.
        -- destruct (splitCommonPrefix n i tok') as [[[n1 child0] ps]| |]
             eqn:Hsplit; simpl in Hadd; [|discriminate..].
           destruct (splitCommonPrefix_shape k n i tok' n1 child0 ps Hwf Hsplit)
             as (-> & Hwf0 & Hilt).
           rewrite setStaticChildAt_twice in Hadd.
           set (child1 := setPriority child0 (S (priority child0))) in *.
           assert (WFs k child1) as Hwf1.
           { apply WFs_inv in Hwf0 as (Hs1 & Hs2 & Hs3 & Hs4 & Hs5 & Hs6).
             constructor; simpl; assumption. }
           pose proof (Forall2_length _ _ _ Hs) as Hlen2.
           assert (WFs k (setStaticChildAt n i child1)) as Hwf2.
           { constructor; simpl; try assumption.
             destruct (lookup_lt_is_Some_2 (staticIndices n) i) as [x Hx]; [lia|].
             rewrite <- (list_insert_id _ _ _ Hx). now apply Forall2_insert. }
           destruct (sortStaticChild_spec (setStaticChildAt n i child1) i)
             as (si & sc & j & Hsort & Hle & Hscj & Hsij & Hl & Hperm).
           { simpl. rewrite length_insert. lia. }
           { simpl. rewrite length_insert. lia. }
           rewrite Hsort in Hadd. cbn [bind] in Hadd.
           change (staticChild (setStatic (setStaticChildAt n i child1) si sc))
             with sc in Hadd.
           simpl in Hscj. rewrite list_lookup_insert_eq in Hscj by lia.
           rewrite Hscj in Hadd.
           destruct (addPath fuel onLeaf child1 _ _ _) as [child'| |] eqn:Hsub;
             simpl in Hadd; [|discriminate..].
           injection Hadd as <-.
           apply (IH _ _ _ _ k) in Hsub; [|exact Hwf1|exact Hws].
           now apply WFs_after_sort.
        -- (* a new static child *)
           destruct (addPath fuel onLeaf (newNode tok') _ _ _) as [child'| |]
             eqn:Hsub; simpl in Hadd; [|discriminate..].
           injection Hadd as <-.
           apply (IH _ _ _ _ k) in Hsub; [|apply WFs_newNode|exact Hws].
           apply WFs_setStatic; [exact Hwf| |].
           ++ apply Forall2_app; [exact Hs|]. constructor; [exact Hsub|constructor].
           ++ apply NoDup_app. split; [exact Hnd|]. split.
              ** intros x Hx Hx'. apply list_elem_of_singleton in Hx'. subst x.
                 now apply indexOf_None in Ei.
              ** apply NoDup_singleton.
Qed.

Lemma addOne_WFs (t t' : TreeMux) (method : string) (handler : HandlerFunc)
    (slashFlag : bool) (fullPath : string) :
  WFs 0 (root t) -> addOne t method handler slashFlag fullPath = Ok t' ->
  WFs 0 (root t').
Proof.
  intros Hwf. unfold addOne.
  destruct fullPath as [|c0 p]; [discriminate|]. unfold tail1. cbn [bind].
  destruct (addPath _ _ _ _ _ _) as [r| |] eqn:Hadd; [|discriminate..].
  cbn [bind]. intros [= <-]. cbn [root setRoot].
  exact (addPath_WFs _ (leafUpdate_addOneLeaf t method handler slashFlag
                          (String c0 p)) _ _ _ None _ 0 r Hwf eq_refl Hadd).
Qed.

Lemma Handle_WFs (g : Group) (t t' : TreeMux) (method pth : string)
    (handler : HandlerFunc) :
  WFs 0 (root t) -> Handle g t method pth handler = Ok t' -> WFs 0 (root t').
Proof.
  intros Hwf Hh. apply Handle_Ok in Hh as (t1 & Ht1 & Hadd).
  refine (addOne_WFs t1 t' _ _ _ _ _ Hadd).
  destruct Ht1 as [->|(u & _ & HQ)]; [exact Hwf|].
  exact (addOne_WFs _ _ _ _ _ _ Hwf HQ).
Qed.

Lemma registerAll_WFs (t t' : TreeMux) (rs : list registration) :
  WFs 0 (root t) -> registerAll t rs = Ok t' -> WFs 0 (root t').
Proof.
  revert t; induction rs as [|r rs IH]; intros t Hwf Hall; simpl in Hall.
  - now injection Hall as <-.
  - destruct (Handle _ t _ _ _) as [t1| |] eqn:Hh; [|discriminate..].
    cbn [bind] in Hall. apply (IH t1); [|exact Hall].
    exact (Handle_WFs _ _ _ _ _ _ Hwf Hh).
Qed.

(** Every router built by registrations from the empty one. *)
Lemma reachable_WFs (a b c : bool) (rs : list registration) (t : TreeMux) :
  registerAll (emptyMux a b c) rs = Ok t -> WFs 0 (root t).
Proof. apply registerAll_WFs. apply WFs_newNode. Qed.

(** The parameters of a match on a router built by registrations. *)
Lemma params_inner_to_outer_aux (hg rts ear : bool) (rs : list registration)
    (t : TreeMux) (method pth : string) (r : result) (l : node) :
  registerAll (emptyMux hg rts ear) rs = Ok t ->
  search (root t) method pth = Ok r -> found r = Some l ->
  exists caps, matches (root t) pth l caps
    /\ length (names_of l) = length caps
    /\ params r = rev (zip_with mkParam (names_of l) (unescapeOrRaw <$> caps)).
Proof.
  intros Hreg Hs Hf. pose proof (reachable_WFs _ _ _ _ _ Hreg) as Hwf.
  destruct (search_answers (root t) 0 method pth Hwf) as (r' & Hs' & Hans).
  rewrite Hs in Hs'. injection Hs' as <-.
  destruct Hans as (Hfound & _). rewrite Hf in Hfound.
  destruct Hfound as (caps & Hm & _ & _ & Hlen & Hp).
  exists caps. split; [exact Hm|]. split; [exact Hlen|exact Hp].
Qed.

(** *** The names a terminus records *)

Lemma sameNames_eq (old new : list string) :
  length old = length new -> sameNames old new = true -> old = new.
Proof.
  revert new; induction old as [|o old IH]; intros [|w new]; simpl;
    try discriminate; [reflexivity|].
  intros [= Hl] [He Hs]%andb_true_iff. apply String.eqb_eq in He.
  f_equal; [exact He|exact (IH _ Hl Hs)].
Qed.

Lemma appendName_default (ws : option (list string)) (tok : string) :
  appendName ws tok = default [] ws ++ [tok].
Proof. now destruct ws. Qed.

Lemma str_take_take (m e : nat) (s : string) :
  m <= e -> str_take m (str_take e s) = str_take m s.
Proof.
  revert e s; induction m as [|m IH]; intros [|e] [|c s] Hle; simpl;
    try reflexivity; try lia.
  f_equal. apply IH. lia.
Qed.

Lemma IndexByte_cons_None (c d : ascii) (s : string) :
  IndexByte (String c s) d = None <-> c <> d /\ IndexByte s d = None.
Proof.
  unfold IndexByte; fold (IndexByte s d).
  destruct (Ascii.eqb c d) eqn:E.
  - apply ascii_eqb_true in E. split; [discriminate|]. intros [Hne _]. done.
  - apply ascii_eqb_false in E. destruct (IndexByte s d); split; try done.
    + intros [_ [=]].
Qed.

Lemma namesFrom_flag (s : string) (a b : bool) :
  firstByte s = None \/ firstByte s = Some slash ->
  namesFrom s a = namesFrom s b.
Proof. destruct s as [|c s]; [reflexivity|]. intros [[=]|[= ->]]. reflexivity. Qed.

Lemma namesFrom_skip (m : nat) (s : string) :
  IndexByte (str_take m s) slash = None ->
  namesFrom s false = namesFrom (str_drop m s) false.
Proof.
  revert s; induction m as [|m IH]; intros [|c s] Hn; try reflexivity.
  simpl in Hn. apply IndexByte_cons_None in Hn as [Hc Hn].
  apply ascii_eqb_false in Hc. simpl. rewrite Hc. apply IH. exact Hn.
Qed.

Lemma namesFrom_no_slash (s : string) :
  IndexByte s slash = None -> namesFrom s false = [].
Proof.
  intros Hn. rewrite (namesFrom_skip (String.length s)).
  - now rewrite str_drop_all.
  - now rewrite str_take_all.
Qed.

Lemma namesFrom_inside (c : ascii) (rest : string) (b : bool) (m : nat) :
  c <> slash -> (b = true -> c <> colon /\ c <> star) ->
  IndexByte (str_take m (String c rest)) slash = None ->
  namesFrom (String c rest) b = namesFrom (str_drop m (String c rest)) false.
Proof.
  intros Hs Hb Hn. apply ascii_eqb_false in Hs.
  assert (namesFrom (String c rest) b = namesFrom rest false) as E.
  { simpl. rewrite Hs. destruct b; [|reflexivity].
    destruct (Hb eq_refl) as [Hc Hst].
    apply ascii_eqb_false in Hc, Hst. now rewrite Hc, Hst. }
  destruct m as [|m].
  - rewrite E. simpl. now rewrite Hs.
  - rewrite E. simpl str_drop. apply namesFrom_skip.
    simpl in Hn. now apply IndexByte_cons_None in Hn as [_ Hn].
Qed.

(** The token at the head of a path that does not start with a slash. *)
Lemma tokenOf_segment (c : ascii) (rest : string) :
  c <> slash ->
  tokenOf c (String c rest)
  = (String c (segmentOf rest), S (String.length (segmentOf rest)))
  /\ str_drop (S (String.length (segmentOf rest))) (String c rest)
     = afterSegment rest
  /\ IndexByte (segmentOf rest) slash = None
  /\ (firstByte (afterSegment rest) = None
      \/ firstByte (afterSegment rest) = Some slash).
Proof.
  intros Hc. unfold tokenOf, segmentOf, afterSegment.
  rewrite (proj2 (ascii_eqb_false _ _) Hc), IndexByte_cons_ne by exact Hc.
  destruct (IndexByte rest slash) as [k|] eqn:Hk; simpl.
  - pose proof (IndexByte_lt _ _ _ Hk) as Hlt.
    rewrite length_str_take, Nat.min_l by lia.
    split; [reflexivity|]. split; [reflexivity|].
    split; [exact (IndexByte_take_self _ _ _ Hk)|].
    right. clear Hlt. revert k Hk.
    induction rest as [|d r IH]; intros k Hk; [discriminate|].
    unfold IndexByte in Hk; fold (IndexByte r slash) in Hk.
    destruct (Ascii.eqb d slash) eqn:Ed.
    + injection Hk as <-. simpl. now apply ascii_eqb_true in Ed as ->.
    + destruct (IndexByte r slash) as [k'|]; [|discriminate].
      injection Hk as <-. simpl. now apply IH.
  - rewrite !str_take_all, str_drop_all.
    split; [reflexivity|]. split; [reflexivity|]. split; [exact Hk|now left].
Qed.

Lemma namesFrom_afterSegment (s : string) (b : bool) :
  namesFrom s false = namesFrom (afterSegment s) b.
Proof.
  unfold afterSegment.
  destruct (IndexByte s slash) as [k|] eqn:Hk; simpl.
  - rewrite (namesFrom_skip k) by exact (IndexByte_take_self _ _ _ Hk).
    apply namesFrom_flag. right.
    revert k Hk. induction s as [|d r IH]; intros k Hk; [discriminate|].
    unfold IndexByte in Hk; fold (IndexByte r slash) in Hk.
    destruct (Ascii.eqb d slash) eqn:Ed.
    + injection Hk as <-. simpl. now apply ascii_eqb_true in Ed as ->.
    + destruct (IndexByte r slash) as [k'|]; [|discriminate].
      injection Hk as <-. simpl. now apply IH.
  - rewrite str_drop_all. now apply namesFrom_no_slash.
Qed.

(** The descent through a static token passes no name. *)
Lemma namesFrom_static (ist : bool) (c : ascii) (rest tok : string) (e : nat)
    (c' : ascii) (tok' : string) (un : bool) (m : nat) :
  tokenOf c (String c rest) = (tok, e) ->
  unescapeToken ist c tok = (c', tok', un) ->
  Ascii.eqb c star && negb ist = false ->
  Ascii.eqb c colon && negb ist = false ->
  m <= e ->
  namesFrom (String c rest) (negb ist)
  = namesFrom (str_drop m (String c rest)) (negb (negb (Ascii.eqb c' slash))).
Proof.
  intros Htok Hun Hst Hco Hm.
  destruct (Ascii.eqb c slash) eqn:Hsl.
  - apply ascii_eqb_true in Hsl as ->. unfold tokenOf in Htok. simpl in Htok.
    injection Htok as <- <-. unfold unescapeToken in Hun.
    injection Hun as <- <- <-. simpl (negb (negb _)).
    destruct m as [|[|m]]; [reflexivity|reflexivity|lia].
  - apply ascii_eqb_false in Hsl.
    destruct (tokenOf_segment c rest Hsl) as (Ht & _ & Hns & _).
    rewrite Htok in Ht. injection Ht as -> ->.
    destruct (unescapeToken_spec ist c (String c (segmentOf rest)) eq_refl)
      as (c0 & tok0 & un0 & Hu0 & _ & _ & Hcase).
    rewrite Hun in Hu0. injection Hu0 as <- <- <-.
    assert (Ascii.eqb c' slash = false) as ->.
    { apply ascii_eqb_false. destruct un.
      - destruct Hcase as (_ & _ & [->|[->| ->]]); discriminate.
      - destruct Hcase as [_ ->]. exact Hsl. }
    simpl (negb (negb false)). apply namesFrom_inside; [exact Hsl| |].
    + intros Hb. apply negb_true_iff in Hb. subst ist.
      rewrite andb_true_r in Hst, Hco. now apply ascii_eqb_false in Hst, Hco.
    + rewrite <- (str_take_take m (S (String.length (segmentOf rest)))) by exact Hm.
      apply IndexByte_None_take.
      assert (str_take (S (String.length (segmentOf rest))) (String c rest)
              = String c (segmentOf rest)) as ->.
      { simpl. f_equal. unfold segmentOf. rewrite length_str_take.
        destruct (IndexByte rest slash) as [k|] eqn:Hk; simpl.
        - pose proof (IndexByte_lt _ _ _ Hk). now rewrite Nat.min_l by lia.
        - now rewrite Nat.min_id. }
      apply IndexByte_cons_None. split; [exact Hsl|exact Hns].
Qed.

(** What the range loop returns lies within the token. *)
Lemma commonPrefixLoop_le (cp : string) (tok : option string)
    (skip i last r L : nat) :
  match tok with
  | Some t => i + String.length t = L
  | None => L < i
  end ->
  last <= L ->
  commonPrefixLoop cp tok skip i last = Ok r -> r <= L.
Proof.
  revert tok skip i last; induction cp as [|c cp IH];
    intros tok skip i last Ht Hl; simpl.
  - intros [= <-]. exact Hl.
  - assert (match tailOpt tok with
            | Some t => S i + String.length t = L
            | None => L < S i
            end) as Ht'.
    { destruct tok as [[|d t]|]; simpl in *; lia. }
    destruct skip as [|k]; [|exact (IH (tailOpt tok) k (S i) last Ht' Hl)].
    destruct tok as [[|d t]|]; [intros [= <-]; simpl in Ht; lia| |discriminate].
    destruct (Ascii.eqb d c).
    + apply (IH (tailOpt (Some (String d t))) _ (S i) i Ht'). simpl in Ht. lia.
    + intros [= <-]. simpl in Ht. lia.
Qed.

Lemma splitCommonPrefix_le (n : node) (i : nat) (tok : string)
    (n1 mid : node) (ps : nat) :
  splitCommonPrefix n i tok = Ok (n1, mid, ps) -> ps <= String.length tok.
Proof.
  unfold Treemux.splitCommonPrefix.
  destruct (staticChild n !! i) as [ch|]; [|discriminate].
  destruct (HasPrefix tok (path ch)) eqn:Hp.
  - intros [= _ _ <-]. now apply HasPrefix_length.
  - destruct (commonPrefixLoop _ _ _ _ _) as [j| |] eqn:Hl; [|discriminate..].
    cbn [bind]. destruct (path (setPath ch _)); [discriminate|].
    intros [= _ _ <-].
    apply (commonPrefixLoop_le _ _ _ _ _ _ (String.length tok)) in Hl;
      [exact Hl|reflexivity|lia].
Qed.

Lemma Named_inv (n : node) :
  Named n ->
  namedByRoute n /\ Forall Named (staticChild n)
  /\ (forall w, wildcardChild n = Some w -> Named w)
  /\ (forall ca, catchAllChild n = Some ca -> Named ca).
Proof. intros Hn. inversion Hn; subst. tauto. Qed.

Lemma Named_newNode (p : string) : Named (newNode p).
Proof.
  constructor; simpl; try discriminate; [|constructor].
  intros [Hx|Hx]; now contradiction Hx.
Qed.

(** The node that [splitCommonPrefix] hands to the descent. *)
Lemma splitCommonPrefix_Named (n : node) (i : nat) (tok : string)
    (n1 mid : node) (ps : nat) :
  Named n -> splitCommonPrefix n i tok = Ok (n1, mid, ps) -> Named mid.
Proof.
  intros (_ & Hs & _)%Named_inv. unfold Treemux.splitCommonPrefix.
  destruct (staticChild n !! i) as [ch|] eqn:Hch; [|discriminate].
  assert (Named ch) as Hc
    by exact (proj1 (Forall_lookup _ _) Hs _ _ Hch).
  destruct (HasPrefix tok (path ch)); [now intros [= _ <- _]|].
  destruct (commonPrefixLoop _ _ _ _ _) as [j| |]; [|discriminate..].
  cbn [bind]. destruct (path (setPath ch _)); [discriminate|].
  intros [= _ <- _]. constructor; simpl; try discriminate.
  - intros [Hx|Hx]; now contradiction Hx.
  - constructor; [|constructor].
    apply Named_inv in Hc as (H1 & H2 & H3 & H4).
    constructor; assumption.
Qed.

(** An insertion that returns leaves every terminus named by its route:
    the names it hands to the leaf are the names of the pattern, in the
    order the descent met them. *)
Lemma addPath_Named (onLeaf : node -> res node) (P : string) :
  leafUpdate onLeaf -> P <> "" ->
  (forall l0 l', onLeaf l0 = Ok l' ->
     route l' = P /\ (route l0 = "" \/ route l0 = P)) ->
  forall fuel n pth ws ist k n',
    WFs k n -> length (default [] ws) = k -> Named n ->
    default [] ws ++ namesFrom pth (negb ist) = patternNames P ->
    addPath fuel onLeaf n pth ws ist = Ok n' -> Named n'.
Proof.
  intros Hleaf HP Hroute. induction fuel as [|fuel IH];
    intros n pth ws ist k n' Hwf Hws Hnm Hacc Hadd; [discriminate|].
  pose proof Hwf as (Hs & Hnd & Hw & Hc & Hn & Hh)%WFs_inv.
  pose proof Hnm as (Hnr & Hns & Hnw & Hnc)%Named_inv.
  destruct pth as [|c rest].
  - (* the leaf *)
    simpl in Hadd. simpl in Hacc. rewrite app_nil_r in Hacc.
    assert (forall n1, onLeaf n1 = Ok n' ->
              staticChild n1 = staticChild n ->
              wildcardChild n1 = wildcardChild n ->
              catchAllChild n1 = catchAllChild n ->
              names_of n1 = patternNames P ->
              Named n') as Hdone.
    { intros n1 Ho E2 E3 E4 E5. pose proof (Hleaf n1) as Hl.
      rewrite Ho in Hl. destruct Hl as (_ & _ & _ & Hsc & Hw' & Hc' & Hn' & _).
      destruct (Hroute _ _ Ho) as [Hr _].
      constructor.
      - intros _. rewrite Hr. split; [exact HP|].
        unfold names_of in *. now rewrite Hn'.
      - now rewrite Hsc, E2.
      - now rewrite Hw', E3.
      - now rewrite Hc', E4. }
    destruct ws as [wsl|]; simpl in Hacc.
    + destruct (leafWildcardNames n) as [old|] eqn:En.
      * destruct (length old =? length wsl)%nat eqn:El; simpl in Hadd;
          [|discriminate].
        destruct (sameNames old wsl) eqn:Esn; simpl in Hadd; [|discriminate].
        apply Nat.eqb_eq in El. apply (sameNames_eq _ _ El) in Esn.
        apply (Hdone n Hadd); try reflexivity.
        unfold names_of. rewrite En. simpl. congruence.
      * simpl in Hadd. apply (Hdone _ Hadd); try reflexivity.
        unfold names_of. simpl. exact Hacc.
    + simpl in Hadd. apply (Hdone n Hadd); try reflexivity.
      destruct (leafWildcardNames n) as [old|] eqn:En.
      * destruct Hnr as [Hr Hnames]; [right; congruence|].
        destruct (Hroute _ _ Hadd) as [_ [Hr0|Hr0]]; [congruence|].
        now rewrite Hnames, Hr0.
      * unfold names_of. rewrite En. exact Hacc.
  - simpl in Hadd. destruct (tokenOf c (String c rest)) as [tok e] eqn:Htok.
    destruct (Ascii.eqb c star && negb ist) eqn:Hst.
    + (* a catch-all *)
      apply andb_true_iff in Hst as [Hcs Hist].
      apply ascii_eqb_true in Hcs. apply negb_true_iff in Hist. subst c ist.
      set (cat := match catchAllChild n with Some ca => ca | None => _ end)
        in Hadd.
      destruct (negb (String.eqb rest (path cat))); [discriminate|].
      destruct (IndexByte (String star rest) slash) eqn:Hix; [discriminate|].
      simpl in Hadd.
      destruct (tokenOf_segment star rest) as (Ht & _); [discriminate|].
      rewrite Htok in Ht. injection Ht as -> ->.
      apply IndexByte_cons_None in Hix as [_ Hix].
      assert (segmentOf rest = rest) as Hseg.
      { unfold segmentOf. rewrite Hix. apply str_take_all. }
      pose proof (Hleaf (setLeafWildcardNames cat
                           (Some (appendName ws (str_drop 1
                                    (String star (segmentOf rest))))))) as Hl.
      destruct (onLeaf _) as [leaf| |] eqn:Ho; simpl in Hadd; [|discriminate..].
      injection Hadd as <-.
      destruct Hl as (_ & _ & _ & Hsc' & Hw' & Hc' & Hn' & _).
      destruct (Hroute _ _ Ho) as [Hr _].
      constructor; simpl; try assumption.
      intros ca [= <-]. constructor.
      * intros _. rewrite Hr. split; [exact HP|].
        unfold names_of. rewrite Hn'. simpl. rewrite appendName_default.
        rewrite <- Hacc. simpl. rewrite Hseg.
        now rewrite (namesFrom_no_slash _ Hix).
      * rewrite Hsc'. simpl. unfold cat.
        destruct (catchAllChild n) as [ca|] eqn:Eca; [|constructor].
        now pose proof (Named_inv _ (Hnc ca eq_refl)) as (_ & H2 & _).
      * rewrite Hw'. simpl. unfold cat.
        destruct (catchAllChild n) as [ca|] eqn:Eca; [|discriminate].
        now pose proof (Named_inv _ (Hnc ca eq_refl)) as (_ & _ & H3 & _).
      * rewrite Hc'. simpl. unfold cat.
        destruct (catchAllChild n) as [ca|] eqn:Eca; [|discriminate].
        now pose proof (Named_inv _ (Hnc ca eq_refl)) as (_ & _ & _ & H4).
    + destruct (Ascii.eqb c colon && negb ist) eqn:Hco.
      * (* a wildcard *)
        apply andb_true_iff in Hco as [Hcc Hist].
        apply ascii_eqb_true in Hcc. apply negb_true_iff in Hist. subst c ist.
        destruct (tokenOf_segment colon rest) as (Ht & Hrem & _ & _);
          [discriminate|].
        rewrite Htok in Ht. injection Ht as -> ->.
        set (wild := match wildcardChild n with Some w => w | None => _ end)
          in Hadd.
        assert (WFs (S k) wild /\ Named wild) as [Hwild Hnwild].
        { unfold wild. destruct (wildcardChild n) as [w|] eqn:Ew.
          - split; [exact (Hw w eq_refl)|exact (Hnw w eq_refl)].
          - split; [apply WFs_newNode|apply Named_newNode]. }
        destruct (addPath fuel onLeaf wild _ _ _) as [w'| |] eqn:Hsub;
          simpl in Hadd; [|discriminate..].
        injection Hadd as <-.
        apply (IH _ _ _ _ (S k)) in Hsub;
          [|exact Hwild|simpl; rewrite length_appendName; lia|exact Hnwild|].
        -- constructor; simpl; try assumption.
           intros w [= <-]. exact Hsub.
        -- rewrite Hrem. simpl. rewrite appendName_default, <- app_assoc.
           rewrite <- Hacc. simpl. f_equal. f_equal.
           symmetry. apply namesFrom_afterSegment.
      * (* a static token *)
        destruct (unescapeToken ist c tok) as [[c' tok'] un] eqn:Hun.
        destruct (token_bytes _ _ _ _ _ _ _ _ Htok Hun) as [Hlen _].
        destruct (indexOf c' (staticIndices n)) as [i|] eqn:Ei.
        -- destruct (splitCommonPrefix n i tok') as [[[n1 child0] ps]| |]
             eqn:Hsplit; simpl in Hadd; [|discriminate..].
           pose proof (splitCommonPrefix_le _ _ _ _ _ _ Hsplit) as Hps.
           pose proof (splitCommonPrefix_Named _ _ _ _ _ _ Hnm Hsplit) as Hn0.
           destruct (splitCommonPrefix_shape k n i tok' n1 child0 ps Hwf Hsplit)
             as (-> & Hwf0 & Hilt).
           rewrite setStaticChildAt_twice in Hadd.
           set (child1 := setPriority child0 (S (priority child0))) in *.
           assert (WFs k child1) as Hwf1.
           { apply WFs_inv in Hwf0 as (Hs1 & Hs2 & Hs3 & Hs4 & Hs5 & Hs6).
             constructor; simpl; assumption. }
           assert (Named child1) as Hn1.
           { apply Named_inv in Hn0 as (H1 & H2 & H3 & H4).
             constructor; assumption. }
           pose proof (Forall2_length _ _ _ Hs) as Hlen2.
           destruct (sortStaticChild_spec (setStaticChildAt n i child1) i)
             as (si & sc & j & Hsort & Hle & Hscj & Hsij & Hl & Hperm).
           { simpl. rewrite length_insert. lia. }
           { simpl. rewrite length_insert. lia. }
           rewrite Hsort in Hadd. cbn [bind] in Hadd.
           change (staticChild (setStatic (setStaticChildAt n i child1) si sc))
             with sc in Hadd.
           simpl in Hscj. rewrite list_lookup_insert_eq in Hscj by lia.
           rewrite Hscj in Hadd.
           destruct (addPath fuel onLeaf child1 _ _ _) as [child'| |] eqn:Hsub;
             simpl in Hadd; [|discriminate..].
           injection Hadd as <-.
           apply (IH _ _ _ _ k) in Hsub; [|exact Hwf1|exact Hws|exact Hn1|].
           ++ constructor; simpl; try assumption.
              apply Forall_insert; [|exact Hsub].
              assert (sc ≡ₚ <[i:=child1]> (staticChild n)) as Hp.
              { rewrite <- (snd_zip si sc) by lia. rewrite Hperm.
                unfold statics. simpl. rewrite snd_zip; [reflexivity|].
                rewrite length_insert. lia. }
              rewrite Hp. apply Forall_insert; assumption.
           ++ rewrite <- Hacc. f_equal. symmetry.
              apply (namesFrom_static ist c rest tok e c' tok' un);
                try assumption.
              destruct un; lia.
        -- (* a new static child *)
           destruct (addPath fuel onLeaf (newNode tok') _ _ _) as [child'| |]
             eqn:Hsub; simpl in Hadd; [|discriminate..].
           injection Hadd as <-.
           apply (IH _ _ _ _ k) in Hsub;
             [|apply WFs_newNode|exact Hws|apply Named_newNode|].
           ++ constructor; simpl; try assumption.
              apply Forall_app. split; [exact Hns|].
              constructor; [exact Hsub|constructor].
           ++ rewrite <- Hacc. f_equal. symmetry.
              apply (namesFrom_static ist c rest tok e c' tok' un);
                try assumption. lia.
Qed.

Lemma addOneLeaf_route (t : TreeMux) (m : string) (handler : HandlerFunc)
    (sf : bool) (P : string) (l0 l' : node) :
  addOneLeaf t m handler sf P l0 = Ok l' ->
  route l' = P /\ (route l0 = "" \/ route l0 = P).
Proof.
  intros Ho. pose proof (addOneLeaf_spec t m handler sf P l0) as Hs.
  cbv zeta in Hs.
  destruct (negb (String.eqb (route l0) "") && negb (String.eqb (route l0) P))
    eqn:E; [congruence|].
  destruct (_ && _) in Hs; [congruence|].
  destruct Hs as (l1 & hm' & Ho' & Hr & _). rewrite Ho in Ho'.
  injection Ho' as <-.
  destruct (String.eqb (route l0) "") eqn:E0.
  - apply String.eqb_eq in E0. split; [exact Hr|now left].
  - simpl in E. apply negb_false_iff, String.eqb_eq in E.
    split; [congruence|now right].
Qed.

Lemma addOne_Named (t t' : TreeMux) (method : string) (handler : HandlerFunc)
    (slashFlag : bool) (fullPath : string) :
  WFs 0 (root t) -> Named (root t) ->
  addOne t method handler slashFlag fullPath = Ok t' -> Named (root t').
Proof.
  intros Hwf Hnm. unfold addOne.
  destruct fullPath as [|c0 p]; [discriminate|]. unfold tail1. cbn [bind].
  destruct (addPath _ _ _ _ _ _) as [r| |] eqn:Hadd; [|discriminate..].
  cbn [bind]. intros [= <-]. cbn [root setRoot].
  refine (addPath_Named _ (String c0 p)
            (leafUpdate_addOneLeaf t method handler slashFlag (String c0 p))
            _ _ _ _ _ None false 0 r Hwf eq_refl Hnm eq_refl Hadd).
  - discriminate.
  - intros l0 l'. apply addOneLeaf_route.
Qed.

Lemma Handle_Named (g : Group) (t t' : TreeMux) (method pth : string)
    (handler : HandlerFunc) :
  WFs 0 (root t) -> Named (root t) ->
  Handle g t method pth handler = Ok t' -> Named (root t').
Proof.
  intros Hwf Hnm Hh. apply Handle_Ok in Hh as (t1 & Ht1 & Hadd).
  destruct Ht1 as [->|(u & _ & HQ)].
  - exact (addOne_Named _ _ _ _ _ _ Hwf Hnm Hadd).
  - refine (addOne_Named t1 t' _ _ _ _ _ _ Hadd).
    + exact (addOne_WFs _ _ _ _ _ _ Hwf HQ).
    + exact (addOne_Named _ _ _ _ _ _ Hwf Hnm HQ).
Qed.

Lemma registerAll_Named (t t' : TreeMux) (rs : list registration) :
  WFs 0 (root t) -> Named (root t) ->
  registerAll t rs = Ok t' -> Named (root t').
Proof.
  revert t; induction rs as [|r rs IH]; intros t Hwf Hnm Hall; simpl in Hall.
  - now injection Hall as <-.
  - destruct (Handle _ t _ _ _) as [t1| |] eqn:Hh; [|discriminate..].
    cbn [bind] in Hall. apply (IH t1); [| |exact Hall].
    + exact (Handle_WFs _ _ _ _ _ _ Hwf Hh).
    + exact (Handle_Named _ _ _ _ _ _ Hwf Hnm Hh).
Qed.

Lemma Named_below (n m : node) : Named n -> below n m -> namedByRoute m.
Proof.
  intros Hn Hb. induction Hb as [n|n c m Hc _ IH|n w m Hw _ IH|n ca m Hca _ IH];
    apply Named_inv in Hn as (H1 & H2 & H3 & H4).
  - exact H1.
  - apply IH. exact (proj1 (Forall_forall _ _) H2 c Hc).
  - exact (IH (H3 w Hw)).
  - exact (IH (H4 ca Hca)).
Qed.

Lemma matches_below (n l : node) (pth : string) (caps : list string) :
  matches n pth l caps -> below n l.
Proof.
  induction 1 as [n Hh|n i c child pth l caps _ _ Hch _ _ IH
                  |n w pth l caps Hw _ _ _ IH|n ca pth Hca _].
  - apply below_here.
  - exact (below_static _ _ _ (list_elem_of_lookup_2 _ _ _ Hch) IH).
  - exact (below_wildcard _ _ _ Hw IH).
  - exact (below_catchAll _ _ _ Hca (below_here _)).
Qed.

(** On a router built by registrations, the node a match ends at holds
    the names of its route, in the order of the pattern. *)
Lemma terminus_names (hg rts ear : bool) (rs : list registration)
    (t : TreeMux) (method pth : string) (r : result) (l : node) :
  registerAll (emptyMux hg rts ear) rs = Ok t ->
  search (root t) method pth = Ok r -> found r = Some l ->
  route l <> "" /\ names_of l = patternNames (route l).
Proof.
  intros Hreg Hs Hf. pose proof (reachable_WFs _ _ _ _ _ Hreg) as Hwf.
  assert (Named (root t)) as Hnm.
  { apply (registerAll_Named (emptyMux hg rts ear) t rs); [| |exact Hreg].
    - apply WFs_newNode.
    - apply Named_newNode. }
  destruct (search_answers (root t) 0 method pth Hwf) as (r' & Hs' & Hans).
  rewrite Hs in Hs'. injection Hs' as <-.
  destruct Hans as (Hfound & _). rewrite Hf in Hfound.
  destruct Hfound as (caps & Hm & Hhm & _).
  apply (Named_below _ _ Hnm (matches_below _ _ _ _ Hm)). now left.
Qed.

(** ** The claims *)


(** C1 (as the code has it): on a router built by registrations, a match
    that ends at the terminus [l] captured the texts [caps], listed from the
    root downwards, one for each name recorded at [l]; the names recorded
    at [l] are the wildcard and catch-all names of the pattern that is the
    route of [l], from the first of the pattern to the last, that is from
    the outermost to the innermost; the parameter list pairs the name and
    the (decoded) capture of each position, and runs from the innermost
    pair to the outermost: the parameter captured nearest the root comes
    last. *)
Theorem params_inner_to_outer (hg rts ear : bool) (rs : list registration)
    (t : TreeMux) (method pth : string) (r : result) (l : node) :
  registerAll (emptyMux hg rts ear) rs = Ok t ->
  search (root t) method pth = Ok r -> found r = Some l ->
  exists caps, matches (root t) pth l caps
    /\ route l <> ""
    /\ names_of l = patternNames (route l)
    /\ length (names_of l) = length caps
    /\ params r = rev (zip_with mkParam (names_of l) (unescapeOrRaw <$> caps)).
Proof.
  intros Hreg Hs Hf.
  destruct (params_inner_to_outer_aux _ _ _ _ _ _ _ _ _ Hreg Hs Hf)
    as (caps & Hm & Hlen & Hp).
  destruct (terminus_names _ _ _ _ _ _ _ _ _ Hreg Hs Hf) as [Hr Hn].
  exists caps. split; [exact Hm|]. split; [exact Hr|]. split; [exact Hn|].
  split; [exact Hlen|exact Hp].
Qed.

(** C2: with [/:page] (handler [A]) and [/favicon.ico] (handler [B])
    registered for GET, in either order, a GET of [/favicon.ico] returns [B]
    without parameters and a GET of [/other] returns [A] with the one
    parameter [page = other]; and at every node, when the static child
    indexed by the first byte of the path yields a handler, that answer is
    returned, whatever the wildcard and catch-all children hold. *)
Theorem static_wins_over_wildcard :
  (forall (A B : H) (hg rts : bool) (rs : list registration),
     PathUnescape "other" = Some "other" ->
     rs = [mkRegistration (mkGroup "" []) "GET" "/:page" (Some A);
           mkRegistration (mkGroup "" []) "GET" "/favicon.ico" (Some B)]
     \/ rs = [mkRegistration (mkGroup "" []) "GET" "/favicon.ico" (Some B);
              mkRegistration (mkGroup "" []) "GET" "/:page" (Some A)] ->
     exists t la lb,
       registerAll (emptyMux hg rts false) rs = Ok t
       /\ lookup t "GET" "/favicon.ico" = Ok (mkResult (Some lb) (Some B) [])
       /\ lookup t "GET" "/other"
          = Ok (mkResult (Some la) (Some A) [mkParam "page" "other"]))
  /\ (forall (n child : node) (method pth : string) (c : ascii) (st : result),
        firstByte pth = Some c -> slotOf n c = Some child ->
        HasPrefix pth (path child) = true ->
        search child method (str_drop (String.length (path child)) pth) = Ok st ->
        handler st <> None ->
        search n method pth = Ok st).
Proof.
  split; [|apply search_static_first].
  intros A B hg rts rs Hdec [-> | ->]; destruct hg, rts;
    (do 3 eexists; split; [vm_compute; reflexivity|];
     split; [vm_compute; reflexivity|];
     vm_compute; rewrite Hdec; reflexivity).
Qed.

(** ** Further properties of the code *)

(** *** Registration and match on ASCII patterns *)

(** Round trip of registration and match on ASCII patterns: a literal
    pattern registered with a handler, among any registrations of ASCII
    patterns before and after it, answers a request for its own text and
    verb with that handler (wrapped by the middlewares of its group) and no
    parameters. *)
Theorem literal_round_trip (hg rts ear : bool) (before after : list registration)
    (g : Group) (verb pth : string) (h h' : H) (t : TreeMux) :
  registerAll (emptyMux hg rts ear)
    (before ++ mkRegistration g verb pth (Some h) :: after) = Ok t ->
  Forall plainRoute (before ++ mkRegistration g verb pth (Some h) :: after) ->
  literal (groupPath g +:+ pth) = true ->
  handlerWithMiddlewares (Some h) (stack g) = Some h' ->
  exists l, lookup t verb (groupPath g +:+ pth)
            = Ok (mkResult (Some l) (Some h') [])
       /\ route l = snd (storedPath t (groupPath g +:+ pth)).
Proof.
  intros Hreg Hpl Hlit Hmw. rewrite registerAll_app in Hreg.
  apply Forall_app in Hpl as [Hplb Hpl]. apply Forall_cons in Hpl as [Hplr Hpla].
  unfold Treemux.plainRoute in Hplr. cbn [regGroup regPath] in Hplr.
  destruct (registerAll _ before) as [tb| |] eqn:Hb; [|discriminate..].
  cbn [bind] in Hreg. simpl in Hreg.
  destruct (Handle g tb verb pth (Some h)) as [t1| |] eqn:Hh; [|discriminate..].
  cbn [bind] in Hreg.
  destruct (registerAll_emptyMux _ _ _ _ _ Hplb Hb) as (Hwfb & _).
  destruct (Handle_WF_Ok _ _ _ _ _ _ Hwfb Hplr Hh) as (Hwf1 & Hr1 & _).
  pose proof (Handle_registers _ _ _ _ _ _ _ Hwfb Hplr Hh Hmw) as Hreg1.
  destruct (registerAll_preserves _ _ _ _ _ _ Hwf1 Hpla Hreg1 Hreg)
    as ((p & l & hm & Hp & Hread & Hroute & Hhm & Hg & _) & Hwf & Hr).
  apply tail1_Ok in Hp as [c HP].
  assert (storedPath t (groupPath g +:+ pth) = storedPath tb (groupPath g +:+ pth))
    as Hsp by (apply storedPath_flag; congruence).
  exists l. split; [|now rewrite Hsp].
  apply (lookup_leaf t verb _ c p l hm h' Hwf); try assumption.
  - now rewrite Hsp.
  - pose proof (literal_storedPath tb _ Hlit) as Hl. rewrite HP in Hl.
    now apply literal_cons in Hl.
Qed.

(** Distinct leading bytes on ASCII patterns: after every registration of
    a run of ASCII patterns that starts from the empty router, at every
    node of the tree the static indices are pairwise distinct and each is
    the first byte of the segment of its child; and splitting the segment
    of a static child of any such node for an ASCII token with the same
    first byte succeeds, keeps that at the node and in what it creates, and
    leaves the answer to every request as it was. *)
Theorem distinct_leading_bytes (hg rts ear : bool) (rs : list registration)
    (t : TreeMux) :
  registerAll (emptyMux hg rts ear) rs = Ok t -> Forall plainRoute rs ->
  (forall pre post, rs = pre ++ post ->
     exists t', registerAll (emptyMux hg rts ear) pre = Ok t'
       /\ forall m, below (root t') m -> distinctLeading m)
  /\ (forall m i c tok,
        below (root t) m -> staticIndices m !! i = Some c ->
        firstByte tok = Some c -> plain tok = true ->
        exists m1 child ps,
          splitCommonPrefix m i tok = Ok (m1, child, ps)
          /\ staticIndices m1 = staticIndices m
          /\ staticChild m1 !! i = Some child
          /\ firstByte (path child) = Some c
          /\ (forall x, below m1 x -> distinctLeading x)
          /\ forall method pth,
               sameAnswer (search m1 method pth) (search m method pth)).
Proof.
  intros Hreg Hpl. split.
  - intros pre post ->. rewrite registerAll_app in Hreg.
    apply Forall_app in Hpl as [Hpl _].
    destruct (registerAll _ pre) as [t'| |] eqn:Hpre; [|discriminate..].
    exists t'. split; [reflexivity|].
    destruct (registerAll_emptyMux _ _ _ _ _ Hpl Hpre) as (Hwf & _).
    intros m Hm. exact (WF_below _ _ _ Hwf Hm).
  - intros m i c tok Hm Hi Hfb Htok.
    destruct (registerAll_emptyMux _ _ _ _ _ Hpl Hreg) as (Hwf & _).
    destruct (WF_below_WF _ _ _ Hwf Hm) as (k & Hwfm).
    destruct (splitCommonPrefix_WF k m i tok c Hwfm Hi Hfb Htok)
      as (child0 & ps & Hsplit & Hwfc & Hslot & _).
    pose proof Hslot as [Hfbc _].
    destruct (WF_static_child _ _ _ _ Hwfm Hi) as (ch & Hch & _ & Hwfch).
    destruct (WF_statics _ _ Hwfm) as [Hlen _].
    exists (setStaticChildAt m i child0), child0, ps.
    split; [exact Hsplit|]. split; [reflexivity|].
    split.
    { cbn [staticChild setStaticChildAt]. apply list_lookup_insert_eq.
      now apply lookup_lt_Some in Hch. }
    split; [exact Hfbc|]. split.
    + intros x Hx. apply (WF_below k (setStaticChildAt m i child0)); [|exact Hx].
      exact (WF_setStaticChildAt k m i c child0 Hwfm Hi Hslot Hwfc).
    + apply (split_search k m i c tok _ child0 ps Hwfm Hi Hfb Hsplit).
Qed.

(** On a router built by registrations the matcher returns; it finds
    no node exactly when no terminus matches the path, and it returns a
    node without a handler exactly when termini match the path but none of
    them has a handler for the verb: the node it returns is then one of
    them. *)
Theorem not_found_or_not_allowed (hg rts ear : bool) (rs : list registration)
    (t : TreeMux) (verb pth : string) :
  registerAll (emptyMux hg rts ear) rs = Ok t ->
  exists r, search (root t) verb pth = Ok r
    /\ (found r = None <-> forall l caps, ~ matches (root t) pth l caps)
    /\ (handler r = None <->
        forall l caps, matches (root t) pth l caps -> handlerOf l verb = None)
    /\ (forall l, found r = Some l ->
          nodeHandlerMap l <> None
          /\ handler r = handlerOf l verb
          /\ exists caps, matches (root t) pth l caps).
Proof.
  intros Hreg. pose proof (reachable_WFs _ _ _ _ _ Hreg) as Hwf.
  destruct (search_answers (root t) 0 verb pth Hwf) as (r & Hs & Hf & Hnone & Hnil).
  exists r. split; [exact Hs|]. split; [|split].
  - split; [exact Hnone|]. intros Hno.
    destruct (found r) as [l|]; [|reflexivity].
    destruct Hf as (caps & Hm & _). destruct (Hno l caps Hm).
  - split; [exact Hnil|]. intros Hall.
    destruct (found r) as [l|].
    + destruct Hf as (caps & Hm & _ & Hh & _). rewrite Hh. exact (Hall l caps Hm).
    + apply Hf.
  - intros l Hl. rewrite Hl in Hf. destruct Hf as (caps & Hm & Hhm & Hh & _).
    split; [exact Hhm|]. split; [exact Hh|]. exists caps. exact Hm.
Qed.

(** On a router built from ASCII patterns, once a verb is registered
    at a pattern, registering the same verb at the same pattern again,
    after any further registrations, panics, whatever the handler; for a
    literal pattern on a router that does not escape added routes the
    panic is the one of [setHandler]. *)
Theorem duplicate_registration_panics (hg rts ear : bool)
    (before between : list registration) (g : Group) (verb pth : string)
    (a a' : H) (t0 t1 t2 : TreeMux) (handler : HandlerFunc) :
  Forall plainRoute before -> Forall plainRoute between ->
  plain (groupPath g +:+ pth) = true ->
  registerAll (emptyMux hg rts ear) before = Ok t0 ->
  Handle g t0 verb pth (Some a) = Ok t1 ->
  handlerWithMiddlewares (Some a) (stack g) = Some a' ->
  registerAll t1 between = Ok t2 ->
  exists k, Handle g t2 verb pth handler = Panic k
    /\ (ear = false -> literal (groupPath g +:+ pth) = true ->
        k = AlreadyHandles).
Proof.
  intros Hplb Hplm Hpl Hb Hh Hmw Hbt.
  destruct (registerAll_emptyMux _ _ _ _ _ Hplb Hb) as (Hwf0 & _ & _ & He0).
  destruct (Handle_WF_Ok _ _ _ _ _ _ Hwf0 Hpl Hh) as (Hwf1 & Hr1 & _ & He1).
  pose proof (Handle_registers _ _ _ _ _ _ _ Hwf0 Hpl Hh Hmw) as Hreg1.
  destruct (registerAll_preserves _ _ _ _ _ _ Hwf1 Hplm Hreg1 Hbt)
    as (Hreg2 & Hwf2 & Hr2).
  destruct (registerAll_WF_Ok _ _ _ Hwf1 Hplm Hbt) as (_ & _ & _ & He2).
  pose proof (plain_storedPath t2 _ Hpl) as Hplp.
  assert (storedPath t2 (groupPath g +:+ pth) = storedPath t0 (groupPath g +:+ pth))
    as Hsp by (apply storedPath_flag; congruence).
  rewrite <- Hsp in Hreg2.
  pose proof (Handle_WF g t2 verb pth handler Hwf2 Hpl) as Hnf.
  destruct (Handle g t2 verb pth handler) as [t'|k|] eqn:Hh2.
  - (* it cannot succeed *)
    apply Handle_Ok in Hh2 as (tm & Htm & Hadd).
    assert (WF 0 (root tm) /\ registered tm verb
              (snd (storedPath t2 (groupPath g +:+ pth))) a') as [Hwfm Hregm].
    { destruct Htm as [->|(u & Hu & HQ)]; [split; assumption|].
      pose proof (plain_unescapeSpecial _ (RequestURI_plain _ _ Hplp Hu)) as Hq.
      split.
      - apply (addOne_WF_Ok _ _ _ _ _ _ Hwf2 Hq HQ).
      - apply (addOne_preserves _ _ _ _ _ _ _ _ _ Hwf2 Hq Hreg2 HQ). }
    destruct (addOne_refuses tm verb (handlerWithMiddlewares handler (stack g))
                (fst (storedPath t2 (groupPath g +:+ pth))) _ a' Hwfm Hplp Hregm)
      as (k & Hk & _).
    congruence.
  - exists k. split; [reflexivity|]. intros -> Hlit.
    rewrite Handle_unescaped in Hh2 by congruence.
    destruct (Handle_checks _ _ _ _ _ _ Hh) as [Hc Hl].
    rewrite Hc, Hl in Hh2. cbn [bind] in Hh2.
    destruct (addOne_refuses t2 verb (handlerWithMiddlewares handler (stack g))
                (fst (storedPath t2 (groupPath g +:+ pth))) _ a' Hwf2 Hplp Hreg2)
      as (k' & Hk & [->|[_ Hnl]]).
    + congruence.
    + rewrite (literal_storedPath t2 _ Hlit) in Hnl. discriminate.
  - contradiction.
Qed.

(** On a router built from ASCII patterns, with [HeadCanUseGet] and
    without escaping of added routes, registering GET at a literal pattern
    that served no HEAD before makes HEAD return the handler that GET
    returns; registering HEAD at the pattern afterwards succeeds, and HEAD
    then returns the new handler while GET returns the old one. *)
Theorem implicit_head (rts : bool) (before : list registration) (g : Group)
    (pth : string) (a a' : H) (t t1 : TreeMux) :
  Forall plainRoute before -> plain (groupPath g +:+ pth) = true ->
  registerAll (emptyMux true rts false) before = Ok t ->
  literal (groupPath g +:+ pth) = true ->
  (forall r, lookup t MethodHead (groupPath g +:+ pth) = Ok r ->
             handler r = None) ->
  Handle g t MethodGet pth (Some a) = Ok t1 ->
  handlerWithMiddlewares (Some a) (stack g) = Some a' ->
  (exists l, lookup t1 MethodGet (groupPath g +:+ pth)
             = Ok (mkResult (Some l) (Some a') [])
        /\ lookup t1 MethodHead (groupPath g +:+ pth)
           = Ok (mkResult (Some l) (Some a') []))
  /\ forall b b', handlerWithMiddlewares (Some b) (stack g) = Some b' ->
       exists t2 l2,
         Handle g t1 MethodHead pth (Some b) = Ok t2
         /\ lookup t2 MethodHead (groupPath g +:+ pth)
            = Ok (mkResult (Some l2) (Some b') [])
         /\ lookup t2 MethodGet (groupPath g +:+ pth)
            = Ok (mkResult (Some l2) (Some a') []).
Proof.
  intros Hplb Hpl Hreg Hlit Hnone Hh Hmw.
  destruct (registerAll_emptyMux _ _ _ _ _ Hplb Hreg) as (Hwf & Hhg & Hrts & Hear).
  destruct (Handle_WF_Ok _ _ _ _ _ _ Hwf Hpl Hh) as (Hwf1 & Hr1 & Hg1 & He1).
  destruct (Handle_checks _ _ _ _ _ _ Hh) as [Hc Hl].
  destruct (storedPath_nonempty t (groupPath g +:+ pth) Hl) as (c & p & HP).
  assert (storedPath t1 (groupPath g +:+ pth) = storedPath t (groupPath g +:+ pth)) as Hsp1
    by (now apply storedPath_flag).
  pose proof (literal_storedPath t _ Hlit) as HlitP. rewrite HP in HlitP.
  pose proof HlitP as (_ & _ & _ & Hlitp)%literal_cons.
  pose proof (plain_storedPath t _ Hpl) as HplP. rewrite HP in HplP.
  pose proof HplP as Hplp. simpl in Hplp.
  apply andb_true_iff in Hplp as [_ Hplp].
  rewrite Handle_unescaped, Hc in Hh by exact Hear. cbn [bind] in Hh.
  rewrite Hl, Hmw, HP in Hh.
  destruct (addOne_Ok_leaf _ _ _ _ _ _ _ Hwf Hplp Hh)
    as (l0 & l' & Hrel & Hleaf & Hread1).
  (* the table of the leaf before: no HEAD *)
  assert (hmGet (default newHandlerMap (nodeHandlerMap l0)) MethodHead = None)
    as Hnohead.
  { destruct (nodeHandlerMap l0) as [hm0|] eqn:Ehm0; [|apply hmGet_newHandlerMap].
    cbn [default]. unfold id.
    destruct (hmGet hm0 MethodHead) as [hx|] eqn:Ehx; [|reflexivity].
    destruct (readPath (root t) p false) as [l|] eqn:Eread.
    - destruct Hrel as [_ Hk2].
      assert (nodeHandlerMap l = Some hm0) as Hhml by congruence.
      pose proof (lookup_leaf t MethodHead (groupPath g +:+ pth) c p l hm0 hx Hwf HP Hlitp Eread
                    Hhml Ehx) as Hlk.
      apply Hnone in Hlk. discriminate.
    - destruct Hrel as [_ Hk2]. congruence. }
  pose proof (addOneLeaf_spec t MethodGet (Some a') (fst (storedPath t (groupPath g +:+ pth)))
                (String c p) l0) as Hs.
  cbv zeta in Hs. rewrite Hnohead, Hhg in Hs.
  destruct (negb (String.eqb (route l0) "") && negb (String.eqb (route l0) (String c p)))
    eqn:Eroute; [congruence|].
  destruct (notNil (hmGet _ MethodGet) && _); [congruence|].
  destruct Hs as (l'' & hm' & Hl'' & Hroute & Hhm' & Hget & Hother & Himp).
  assert (l'' = l') as -> by congruence.
  pose proof (Hother MethodHead ltac:(discriminate)) as Hhead.
  change (true && String.eqb MethodGet MethodGet && negb (notNil None)
          && String.eqb MethodHead MethodHead) with true in Hhead.
  change (String.eqb MethodGet MethodHead) with false in Himp.
  change (true && String.eqb MethodGet MethodGet && negb (notNil None))
    with true in Himp.
  assert (route l' = String c p) as Hroute'.
  { rewrite Hroute. destruct (String.eqb_spec (route l0) ""); [reflexivity|].
    destruct (String.eqb_spec (route l0) (String c p)); [assumption|discriminate]. }
  assert (snd (storedPath t1 (groupPath g +:+ pth)) = String c p) as HP1 by now rewrite Hsp1.
  split.
  { exists l'. split.
    - exact (lookup_leaf t1 MethodGet (groupPath g +:+ pth) c p l' hm' a' Hwf1 HP1 Hlitp Hread1 Hhm' Hget).
    - exact (lookup_leaf t1 MethodHead (groupPath g +:+ pth) c p l' hm' a' Hwf1 HP1 Hlitp Hread1 Hhm'
               Hhead). }
  intros b b' Hmwb.
  rewrite Handle_unescaped, Hc by congruence. cbn [bind].
  rewrite Hl, Hmwb, Hsp1, HP.
  destruct (addOne_leaf t1 MethodHead (Some b')
              (fst (storedPath t (groupPath g +:+ pth))) c p Hwf1 Hplp)
    as [(kind & _ & _ & Hnl)|(l1 & Hl1 & Hres)]; [congruence|].
  rewrite Hread1 in Hl1. destruct Hl1 as [Hk1 Hk2].
  pose proof (addOneLeaf_spec t1 MethodHead (Some b') (fst (storedPath t (groupPath g +:+ pth)))
                (String c p) l1) as Hs2.
  cbv zeta in Hs2. rewrite Hk2, Hhm' in Hs2. cbn [default] in Hs2. unfold id in Hs2.
  rewrite Hk1, Hroute', String.eqb_refl, andb_false_r in Hs2.
  rewrite Hhead, Himp in Hs2.
  change (notNil (Some a') && (negb (String.eqb MethodHead MethodHead) || negb true))
    with false in Hs2. cbv iota in Hs2.
  destruct Hs2 as (l2 & hm2 & Hl2 & _ & Hhm2 & Hget2 & Hother2 & _).
  rewrite Hl2 in Hres. destruct Hres as (t2 & Ht2 & Hread2).
  exists t2, l2. split; [exact Ht2|].
  destruct (addOne_WF_Ok _ _ _ _ _ _ Hwf1 HplP Ht2) as (Hwf2 & Hr2).
  assert (snd (storedPath t2 (groupPath g +:+ pth)) = String c p) as HP2.
  { rewrite (storedPath_flag t1 t2) by exact Hr2. exact HP1. }
  split.
  - exact (lookup_leaf t2 MethodHead (groupPath g +:+ pth) c p l2 hm2 b' Hwf2 HP2 Hlitp Hread2 Hhm2 Hget2).
  - pose proof (Hother2 MethodGet ltac:(discriminate)) as Hg2.
    change (String.eqb MethodHead MethodGet) with false in Hg2.
    rewrite andb_false_r in Hg2. cbn [andb] in Hg2. rewrite Hget in Hg2.
    exact (lookup_leaf t2 MethodGet (groupPath g +:+ pth) c p l2 hm2 a' Hwf2 HP2 Hlitp Hread2 Hhm2 Hg2).
Qed.

(** *** The handler table *)

Lemma hm_m_hmSetField (h : handlerMap) (v : string) (x : HandlerFunc) :
  hm_m (hmSetField h v x) = hm_m h.
Proof.
  unfold hmSetField. repeat (destruct (String.eqb v _); [reflexivity|]).
  reflexivity.
Qed.

Lemma tableOf_snoc (sets : list (string * HandlerFunc)) (v : string)
    (x : HandlerFunc) :
  tableOf (sets ++ [(v, x)]) = hmSet (tableOf sets) v x.
Proof. unfold tableOf. now rewrite foldl_app. Qed.

(** [handlerMap.Get] after [handlerMap.Set]: the verb just set returns the
    handler given, every other verb returns what it returned before,
    whether the verb is one of the seven with a field of its own or not. *)
Theorem Get_after_Set (h : handlerMap) (name name' : string)
    (handler : HandlerFunc) :
  hmGet (hmSet h name handler) name'
  = if String.eqb name' name then handler else hmGet h name'.
Proof.
  destruct (String.eqb_spec name' name) as [->|Hne].
  - apply hmGet_hmSet_eq.
  - apply hmGet_hmSet_ne. congruence.
Qed.

(** In a table built by [Set] calls only, [handlerMap.Map] holds for every
    verb what [handlerMap.Get] returns, also for the seven verbs that [Get]
    reads from their fields; it is nil exactly when nothing was set. *)
Theorem Map_mirrors_Get (sets : list (string * HandlerFunc)) (name : string) :
  hmGet (tableOf sets) name
  = match hmMap (tableOf sets) with
    | Some m => default None (m !! name)
    | None => None
    end
  /\ (hmMap (tableOf sets) = None <-> sets = []).
Proof.
  induction sets as [|[v x] sets [IH1 IH2]] using rev_ind.
  - split; [apply hmGet_newHandlerMap|]. split; reflexivity.
  - rewrite tableOf_snoc. split.
    + unfold hmMap in *. unfold hmSet at 2. cbn [hm_m].
      rewrite hm_m_hmSetField.
      destruct (String.eqb_spec name v) as [->|Hne].
      * now rewrite hmGet_hmSet_eq, lookup_insert_eq.
      * rewrite hmGet_hmSet_ne by congruence.
        rewrite lookup_insert_ne by congruence. rewrite IH1.
        destruct (hm_m (tableOf sets)); [reflexivity|].
        simpl. now rewrite lookup_empty.
    + split; [discriminate|]. intros Hnil. now destruct sets.
Qed.

(** [setHandler] panics exactly when the verb already has a handler that
    is not an implicit HEAD; otherwise the node holds the handler for the
    verb, every other verb is served as before, and the implicit mark
    changes only for HEAD, to the flag given. *)
Theorem setHandler_conflict_or_update (n : node) (verb : string)
    (handler : HandlerFunc) (implicit : bool) :
  let hm := default newHandlerMap (nodeHandlerMap n) in
  if notNil (hmGet hm verb)
     && (negb (String.eqb verb MethodHead) || negb (implicitHead hm))
  then setHandler n verb handler implicit = Panic AlreadyHandles
  else exists hm',
      setHandler n verb handler implicit = Ok (setHandlerMap n (Some hm'))
      /\ hmGet hm' verb = handler
      /\ (forall v, v <> verb -> hmGet hm' v = hmGet hm v)
      /\ implicitHead hm'
         = if String.eqb verb MethodHead then implicit else implicitHead hm.
Proof. apply setHandler_spec. Qed.

(** *** The parameter accessors *)

Lemma parseDigits_range (s : string) (acc k : N) :
  decimalValueFrom s acc = Some k -> (maxUint64 < k)%N ->
  (acc <= maxUint64)%N -> parseDigits s acc = inl ErrRange.
Proof.
  revert acc; induction s as [|c s IH]; simpl; intros acc Hv Hk Hacc.
  - injection Hv as ->. lia.
  - destruct (digitOf c) as [d|]; [|discriminate].
    destruct (N.ltb_spec maxUint64 (acc * 10 + d)); [reflexivity|].
    now apply IH.
Qed.

(** [Params.Get] returns the value of the first parameter of that name,
    with the flag set; when no parameter has the name it returns the empty
    string and no flag, and [Params.Text] is empty. *)
Theorem Get_first_of_name (ps : Params) (name : string) :
  match ParamsGet ps name with
  | (v, true) =>
      ParamsText ps name = v
      /\ exists i p, ps !! i = Some p /\ Name p = name /\ Value p = v
           /\ forall j q, j < i -> ps !! j = Some q -> Name q <> name
  | (v, false) =>
      v = "" /\ ParamsText ps name = ""
      /\ forall p, p ∈ ps -> Name p <> name
  end.
Proof.
  unfold ParamsText. induction ps as [|p ps IH]; simpl.
  - split; [reflexivity|]. split; [reflexivity|]. intros p Hp.
    now apply elem_of_nil in Hp.
  - destruct (String.eqb_spec (Name p) name) as [He|Hne].
    + split; [reflexivity|]. exists 0, p. split; [reflexivity|].
      split; [exact He|]. split; [reflexivity|]. intros j q Hj. lia.
    + destruct (ParamsGet ps name) as [v [|]].
      * destruct IH as (Ht & i & q & Hi & Hn & Hv & Hfirst).
        split; [exact Ht|]. exists (S i), q. split; [exact Hi|].
        split; [exact Hn|]. split; [exact Hv|].
        intros [|j] q' Hj Hq'.
        -- injection Hq' as <-. exact Hne.
        -- apply (Hfirst j q'); [lia|exact Hq'].
      * destruct IH as (Hv & Ht & Hall). split; [exact Hv|].
        split; [exact Ht|]. intros q [->|Hq]%elem_of_cons; [exact Hne|].
        now apply Hall.
Qed.

(** [Params.Uint64] on the text of a parameter: a decimal string up to
    2^64-1 gives its value, a larger decimal string a range error, an
    absent parameter a syntax error, and any other text is an error. *)
Theorem Uint64_reads_decimal (ps : Params) (name : string) :
  (forall k, decimalValue (ParamsText ps name) = Some k ->
     ParamsUint64 ps name
     = if (k <=? maxUint64)%N then inr k else inl ErrRange)
  /\ (snd (ParamsGet ps name) = false -> ParamsUint64 ps name = inl ErrSyntax)
  /\ (decimalValue (ParamsText ps name) = None ->
      exists e, ParamsUint64 ps name = inl e).
Proof.
  unfold ParamsUint64, ParseUint, decimalValue. split; [|split].
  - intros k Hv. destruct (ParamsText ps name) as [|c s]; [discriminate|].
    destruct (N.leb_spec k maxUint64) as [Hk|Hk].
    + now apply parseDigits_value.
    + apply (parseDigits_range _ _ k Hv Hk). vm_compute. discriminate.
  - intros Ha. now rewrite (ParamsGet_absent _ _ Ha).
  - intros Hv. destruct (ParamsText ps name) as [|c s]; [now exists ErrSyntax|].
    apply (parseDigits_not_decimal _ _ Hv).
Qed.

Lemma ParamsMap_snoc (ps : list Param) (p : Param) :
  foldl (fun m param => <[Name param := Value param]> m) (∅ : gmap string string)
    (ps ++ [p])
  = <[Name p := Value p]>
      (foldl (fun m param => <[Name param := Value param]> m) ∅ ps).
Proof. now rewrite foldl_app. Qed.

Lemma ParamsMap_lookup (ps : list Param) (name : string) :
  foldl (fun m param => <[Name param := Value param]> m) (∅ : gmap string string)
    ps !! name
  = Value <$> last (filter (fun p => Name p = name) ps).
Proof.
  induction ps as [|p ps IH] using rev_ind; [apply lookup_empty|].
  rewrite ParamsMap_snoc, filter_app.
  destruct (decide (Name p = name)) as [He|Hne].
  - rewrite He, lookup_insert_eq.
    rewrite (filter_cons_True _ p []) by exact He.
    rewrite filter_nil, last_snoc. reflexivity.
  - rewrite lookup_insert_ne by exact Hne.
    rewrite (filter_cons_False _ p []) by exact Hne.
    rewrite filter_nil, app_nil_r. exact IH.
Qed.

Lemma ParamsGet_filter (ps : list Param) (name : string) :
  ParamsGet ps name
  = match filter (fun p => Name p = name) ps with
    | p :: _ => (Value p, true)
    | [] => ("", false)
    end.
Proof.
  induction ps as [|p ps IH]; [reflexivity|]. simpl.
  destruct (String.eqb_spec (Name p) name) as [He|Hne].
  - now rewrite filter_cons_True by exact He.
  - now rewrite filter_cons_False by exact Hne.
Qed.

(** [Params.Map] is nil for an empty list; otherwise it holds, under each
    name, the value of the last parameter of that name, where [Params.Get]
    returns the first; the two agree on a name that at most one parameter
    has. *)
Theorem Map_last_of_name (ps : list Param) :
  (ParamsMap ps = None <-> ps = [])
  /\ forall m name, ParamsMap ps = Some m ->
       m !! name = Value <$> last (filter (fun p => Name p = name) ps)
       /\ (length (filter (fun p => Name p = name) ps) <= 1 ->
           forall v, m !! name = Some v <-> ParamsGet ps name = (v, true)).
Proof.
  unfold ParamsMap. split.
  - destruct ps; simpl; split; try done.
  - intros m name Hm. destruct ps as [|p0 ps0]; [discriminate|].
    assert (m = foldl (fun m param => <[Name param := Value param]> m) ∅
                  (p0 :: ps0)) as ->
      by (cbn [length Nat.eqb] in Hm; injection Hm as <-; reflexivity).
    rewrite ParamsMap_lookup. split; [reflexivity|].
    intros Hone v. rewrite ParamsGet_filter.
    destruct (filter (fun p => Name p = name) (p0 :: ps0)) as [|q [|q' l]];
      simpl in Hone |- *.
    + split; discriminate.
    + split; intros [= <-]; reflexivity.
    + lia.
Qed.

(** *** Static children by priority *)

Lemma swap_lookup {A} (l : list A) (j : nat) (x y : A) (k : nat) :
  S j < length l ->
  <[j := x]> (<[S j := y]> l) !! k
  = if decide (k = j) then Some x
    else if decide (k = S j) then Some y else l !! k.
Proof.
  intros Hl. destruct (decide (k = j)) as [->|Hkj].
  - apply list_lookup_insert_eq. rewrite length_insert. lia.
  - rewrite list_lookup_insert_ne by congruence.
    destruct (decide (k = S j)) as [->|Hki].
    + now apply list_lookup_insert_eq.
    + now rewrite list_lookup_insert_ne by congruence.
Qed.

Lemma sortStaticChild_S (n : node) (j : nat) :
  sortStaticChild n (S j)
  = match staticChild n !! S j, staticChild n !! j with
    | Some ci, Some cj =>
        if (priority cj <? priority ci)%nat then
          match staticIndices n !! S j, staticIndices n !! j with
          | Some xi, Some xj =>
              sortStaticChild
                (setStatic n
                   (<[j := xi]> (<[S j := xj]> (staticIndices n)))
                   (<[j := ci]> (<[S j := cj]> (staticChild n))))
                j
          | _, _ => Panic IndexOutOfRange
          end
        else Ok (n, S j)
    | _, _ => Panic IndexOutOfRange
    end.
Proof. reflexivity. Qed.

Lemma sortStaticChild_sorted (n : node) (i : nat) :
  i < length (staticChild n) ->
  length (staticIndices n) = length (staticChild n) ->
  (forall a b ca cb, a < b -> b <> i -> staticChild n !! a = Some ca ->
     staticChild n !! b = Some cb -> priority cb <= priority ca) ->
  exists n' j, sortStaticChild n i = Ok (n', j) /\ byPriority (staticChild n').
Proof.
  revert n; induction i as [|j IH]; intros n Hi Hlen Hsorted.
  - exists n, 0. split; [reflexivity|]. intros a b ca cb Hab.
    apply Hsorted; [exact Hab|lia].
  - rewrite sortStaticChild_S.
    destruct (lookup_lt_is_Some_2 (staticChild n) (S j)) as [ci Hci]; [lia|].
    destruct (lookup_lt_is_Some_2 (staticChild n) j) as [cj Hcj]; [lia|].
    destruct (lookup_lt_is_Some_2 (staticIndices n) (S j)) as [xi Hxi]; [lia|].
    destruct (lookup_lt_is_Some_2 (staticIndices n) j) as [xj Hxj]; [lia|].
    rewrite Hci, Hcj.
    destruct (Nat.ltb_spec (priority cj) (priority ci)) as [Hlt|Hge].
    + rewrite Hxi, Hxj. apply IH.
      * cbn [staticChild setStatic]. rewrite !length_insert. lia.
      * cbn [staticChild staticIndices setStatic]. rewrite !length_insert. lia.
      * cbn [staticChild setStatic]. intros a b ca cb Hab Hb.
        rewrite !swap_lookup by exact Hi.
        destruct (decide (b = j)) as [->|_]; [done|].
        destruct (decide (a = j)) as [->|Haj].
        -- (* the moved child is now before [b] *)
           intros [= <-].
           destruct (decide (b = S j)) as [->|Hbi].
           ++ intros [= <-]. lia.
           ++ intros Hcb. apply (Hsorted (S j) b ci cb); try assumption; lia.
        -- destruct (decide (a = S j)) as [->|Hai].
           ++ intros [= <-]. destruct (decide (b = S j)) as [->|Hbi]; [lia|].
              intros Hcb. apply (Hsorted j b cj cb); try assumption; lia.
           ++ intros Hca. destruct (decide (b = S j)) as [->|Hbi].
              ** intros [= <-]. apply (Hsorted a j ca cj); try assumption; lia.
              ** intros Hcb. apply (Hsorted a b ca cb); assumption.
    + exists n, (S j). split; [reflexivity|]. intros a b ca cb Hab Hca Hcb.
      destruct (decide (b = S j)) as [->|Hb].
      * assert (cb = ci) as -> by congruence.
        destruct (decide (a = j)) as [->|Ha].
        -- assert (ca = cj) as -> by congruence. exact Hge.
        -- pose proof (Hsorted a j ca cj ltac:(lia) ltac:(lia) Hca Hcj). lia.
      * apply (Hsorted a b ca cb); assumption.
Qed.

(** [sortStaticChild] on child [i], when the children are ordered by
    decreasing priority apart from child [i] having outgrown children
    before it: it succeeds, the children are ordered again, every child
    keeps its index byte, and child [i] is found at the index returned. *)
Theorem sortStaticChild_restores_order (n : node) (i : nat) :
  i < length (staticChild n) ->
  length (staticIndices n) = length (staticChild n) ->
  (forall a b ca cb, a < b -> b <> i -> staticChild n !! a = Some ca ->
     staticChild n !! b = Some cb -> priority cb <= priority ca) ->
  exists n' j,
    sortStaticChild n i = Ok (n', j)
    /\ byPriority (staticChild n')
    /\ j <= i
    /\ staticChild n' !! j = staticChild n !! i
    /\ staticIndices n' !! j = staticIndices n !! i
    /\ zip (staticIndices n') (staticChild n')
       ≡ₚ zip (staticIndices n) (staticChild n)
    /\ n' = setStatic n (staticIndices n') (staticChild n').
Proof.
  intros Hi Hlen Hsorted.
  destruct (sortStaticChild_sorted n i Hi Hlen Hsorted) as (n' & j & Hs & Hby).
  destruct (sortStaticChild_spec n i Hi Hlen)
    as (si & sc & j' & Hs' & Hj & Hc & Hx & _ & Hp).
  rewrite Hs in Hs'. injection Hs' as -> ->.
  exists (setStatic n si sc), j'. split; [exact Hs|].
  split; [exact Hby|]. split; [exact Hj|].
  split; [exact Hc|]. split; [exact Hx|]. split; [exact Hp|reflexivity].
Qed.

(** *** What registration keeps in the tree *)

Lemma WFs_below (k : nat) (n m : node) :
  WFs k n -> below n m -> exists k', WFs k' m.
Proof.
  intros Hwf Hb. revert k Hwf.
  induction Hb as [n|n c m Hc _ IH|n w m Hw _ IH|n ca m Hca Hb IH]; intros k Hwf.
  - exists k. exact Hwf.
  - destruct (WFs_inv _ _ Hwf) as (Hs & _).
    apply list_elem_of_lookup in Hc as [i Hi].
    destruct (Forall2_lookup_r _ _ _ _ _ Hs Hi) as (x & _ & Hwfc).
    exact (IH k Hwfc).
  - destruct (WFs_inv _ _ Hwf) as (_ & _ & Hw' & _).
    exact (IH (S k) (Hw' w Hw)).
  - destruct (WFs_inv _ _ Hwf) as (_ & _ & _ & Hc' & _).
    destruct (Hc' ca Hca) as (Hhm & Hlen & Hs & Hsc & Hwc & Hcc).
    apply (IH (S k)). apply WFs_node.
    + rewrite Hs, Hsc. constructor.
    + rewrite Hs. constructor.
    + intros w Hw. congruence.
    + intros ca' Hca'. congruence.
    + intros names Hn. unfold names_of in Hlen. rewrite Hn in Hlen.
      exact Hlen.
    + intros _. exact Hlen.
Qed.

(** Registration of ASCII patterns always comes to an end: a run of
    [Handle] calls from the empty router returns a router or panics, the
    recursion of [addPath] never goes deeper than the pattern is long. *)
Theorem registration_returns (hg rts ear : bool) (rs : list registration) :
  Forall plainRoute rs ->
  (exists t, registerAll (emptyMux hg rts ear) rs = Ok t)
  \/ (exists k, registerAll (emptyMux hg rts ear) rs = Panic k).
Proof.
  intros Hpl.
  pose proof (registerAll_WF (emptyMux hg rts ear) rs (WF_emptyMux _ _ _) Hpl)
    as Hwf.
  destruct (registerAll _ rs) as [t|k|]; [left; eauto|right; eauto|contradiction].
Qed.

(** In every tree built from ASCII patterns the segment of a static child
    is not empty and does not span a slash: it is the slash alone or holds
    none. *)
Theorem segments_within_token (hg rts ear : bool) (rs : list registration)
    (t : TreeMux) (m c : node) :
  registerAll (emptyMux hg rts ear) rs = Ok t -> Forall plainRoute rs ->
  below (root t) m -> c ∈ staticChild m ->
  path c <> "" /\ (path c = "/" \/ IndexByte (path c) slash = None).
Proof.
  intros Hreg Hpl Hm Hc.
  destruct (registerAll_emptyMux _ _ _ _ _ Hpl Hreg) as (Hwf & _).
  destruct (WF_below_WF _ _ _ Hwf Hm) as (k & Hwfm).
  destruct (WF_inv _ _ Hwfm) as (Hs & _).
  apply list_elem_of_lookup in Hc as [i Hi].
  destruct (Forall2_lookup_r _ _ _ _ _ Hs Hi) as (x & _ & (Hfb & Hwt & _) & _).
  split; [|exact Hwt]. intros E. rewrite E in Hfb. discriminate.
Qed.

(** In every tree built by registrations, whatever the patterns, a
    catch-all child is a leaf and a terminus: it has a handler table, no
    child of any kind, and it recorded wildcard names. *)
Theorem catchAll_children_are_leaves (hg rts ear : bool)
    (rs : list registration) (t : TreeMux) (m ca : node) :
  registerAll (emptyMux hg rts ear) rs = Ok t ->
  below (root t) m -> catchAllChild m = Some ca ->
  nodeHandlerMap ca <> None /\ childless ca /\ names_of ca <> [].
Proof.
  intros Hreg Hm Hca. pose proof (reachable_WFs _ _ _ _ _ Hreg) as Hwf.
  destruct (WFs_below _ _ _ Hwf Hm) as (k & Hwfm).
  destruct (WFs_inv _ _ Hwfm) as (_ & _ & _ & Hc & _).
  destruct (Hc ca Hca) as (Hhm & Hlen & Hch).
  split; [exact Hhm|]. split; [exact Hch|].
  intros E. rewrite E in Hlen. discriminate.
Qed.

(** *** Segments that are not ASCII *)

Lemma commonPrefixLoop_skip (cp : string) (tok : option string)
    (skip i last : nat) :
  String.length cp <= skip -> commonPrefixLoop cp tok skip i last = Ok last.
Proof.
  revert tok skip i. induction cp as [|c cp IH]; intros tok skip i Hlen;
    [reflexivity|].
  simpl in Hlen. destruct skip as [|k]; [lia|]. simpl. apply IH. lia.
Qed.

Lemma runeWidth_lead (c : ascii) (s : string) :
  2 <= runeWidth (String c s) ->
  Ascii.eqb c slash = false /\ Ascii.eqb c star = false
  /\ Ascii.eqb c colon = false /\ c <> backslash.
Proof.
  intros Hw.
  assert (byteIn 194 223 c || byteIn 224 239 c || byteIn 240 244 c = true)
    as Hc.
  { destruct s as [|b1 s]; [simpl in Hw; lia|]. unfold runeWidth in Hw.
    destruct (byteIn 194 223 c); [reflexivity|].
    destruct (byteIn 224 239 c); [reflexivity|].
    destruct (byteIn 240 244 c); [reflexivity|]. lia. }
  assert (forall d, (nat_of_ascii d <? 194)%nat = true -> c <> d) as Hne.
  { intros d Hd ->. unfold byteIn in Hc. apply Nat.ltb_lt in Hd.
    repeat (apply orb_true_iff in Hc as [Hc|Hc]);
      apply andb_true_iff in Hc as [Hc%Nat.leb_le _]; lia. }
  split; [|split; [|split]]; [apply ascii_eqb_false..|]; now apply Hne.
Qed.

(** A segment that is one multi-byte UTF-8 sequence stops registration for
    good: where a node has a static child whose segment is a single
    sequence of two or more bytes, inserting a path that starts with the
    same byte but not with the whole segment never returns.  The range
    loop of [splitCommonPrefix] visits index 0 only, so the split is at 0,
    the new node holds the old child under the same byte, and the
    insertion of the unchanged path into it is in the same position:
    whatever the depth allowed, [addPath] exhausts it. *)
Theorem addPath_never_returns (fuel : nat) (onLeaf : node -> res node)
    (n : node) (i : nat) (child : node) (c : ascii) (rest : string)
    (wildcards : option (list string)) (inStaticToken : bool) :
  length (staticIndices n) = length (staticChild n) ->
  indexOf c (staticIndices n) = Some i ->
  staticChild n !! i = Some child ->
  firstByte (path child) = Some c ->
  2 <= String.length (path child) ->
  runeWidth (path child) = String.length (path child) ->
  HasPrefix (String c rest) (path child) = false ->
  addPath fuel onLeaf n (String c rest) wildcards inStaticToken = OutOfFuel.
Proof.
  revert n i child inStaticToken. induction fuel as [|fuel IH];
    intros n i child inStaticToken Hlen Hi Hch Hfb Hl2 Hrw Hnp; [reflexivity|].
  destruct (path child) as [|c0 s'] eqn:Hp; [discriminate|].
  injection Hfb as ->.
  destruct (runeWidth_lead c s') as (Hsl & Hst & Hco & Hbs); [lia|].
  destruct (tokenOf_spec c rest) as (tok & e & Htok & Htk & He & Htfb & _).
  destruct (unescapeToken_spec inStaticToken c tok Htfb)
    as (c' & tok' & unescaped & Hun & _ & _ & Hcase).
  destruct unescaped.
  { destruct Hcase as (-> & _). injection Htfb as <-. now contradiction Hbs. }
  destruct Hcase as [-> ->].
  cbn [addPath]. rewrite Htok, Hst, Hco. cbn [andb]. rewrite Hun, Hi.
  assert (HasPrefix tok (String c s') = false) as Hnp'.
  { destruct (HasPrefix tok (String c s')) eqn:E; [|reflexivity].
    rewrite Htk in E.
    pose proof (HasPrefix_trans _ _ _ (HasPrefix_str_take _ e) E). congruence. }
  unfold Treemux.splitCommonPrefix. rewrite Hch. cbv beta iota.
  rewrite Hp, Hnp'.
  destruct tok as [|t0 tok0]; [discriminate|]. injection Htfb as ->.
  cbn [commonPrefixLoop tailOpt]. rewrite Ascii.eqb_refl.
  rewrite commonPrefixLoop_skip by (simpl in Hrw |- *; lia).
  cbn [bind str_drop str_take]. cbn [setPath path].
  set (child' := setPath child (String c s')).
  set (mid := mkNode "" "" (priority child') [c] [child'] None None false false
                None None).
  cbn [bind str_drop].
  pose proof (lookup_lt_Some _ _ _ Hch) as Hlt.
  destruct (sortStaticChild_spec
              (setStaticChildAt (setStaticChildAt n i mid) i
                 (setPriority mid (S (priority mid)))) i)
    as (si & sc & j & Hsort & _ & Hj & _).
  { simpl. now rewrite !length_insert. }
  { simpl. now rewrite !length_insert. }
  rewrite Hsort. cbn [bind].
  simpl in Hj. rewrite list_lookup_insert_eq in Hj by now rewrite length_insert.
  simpl. rewrite Hj.
  rewrite (IH (setPriority mid (S (priority mid))) 0 child' _); [reflexivity|..].
  - reflexivity.
  - simpl. now rewrite Ascii.eqb_refl.
  - reflexivity.
  - reflexivity.
  - simpl. simpl in Hl2. exact Hl2.
  - exact Hrw.
  - exact Hnp.
Qed.

(** *** Groups, middlewares and malformed patterns *)

(** Two patterns that [Handle] stores under one path are one route: once
    a verb is registered for an ASCII pattern, registering the verb for
    any ASCII pattern with the same stored path panics, whatever was
    registered in between.  That is so for the pattern with and without
    its trailing slash when [RedirectTrailingSlash] is set, and for the
    same text divided otherwise between group and pattern. *)
Theorem same_stored_path_conflicts (hg rts ear : bool)
    (before between : list registration) (g g' : Group)
    (verb pth pth' : string) (a a' : H) (t0 t1 t2 : TreeMux)
    (handler : HandlerFunc) :
  Forall plainRoute before -> Forall plainRoute between ->
  plain (groupPath g +:+ pth) = true ->
  plain (groupPath g' +:+ pth') = true ->
  registerAll (emptyMux hg rts ear) before = Ok t0 ->
  Handle g t0 verb pth (Some a) = Ok t1 ->
  handlerWithMiddlewares (Some a) (stack g) = Some a' ->
  registerAll t1 between = Ok t2 ->
  snd (storedPath t2 (groupPath g' +:+ pth'))
  = snd (storedPath t2 (groupPath g +:+ pth)) ->
  exists k, Handle g' t2 verb pth' handler = Panic k.
Proof.
  intros Hplb Hplm Hpl Hpl' Hb Hh Hmw Hbt Hsame.
  destruct (registerAll_emptyMux _ _ _ _ _ Hplb Hb) as (Hwf0 & _).
  destruct (Handle_WF_Ok _ _ _ _ _ _ Hwf0 Hpl Hh) as (Hwf1 & Hr1 & _).
  pose proof (Handle_registers _ _ _ _ _ _ _ Hwf0 Hpl Hh Hmw) as Hreg1.
  destruct (registerAll_preserves _ _ _ _ _ _ Hwf1 Hplm Hreg1 Hbt)
    as (Hreg2 & Hwf2 & Hr2).
  assert (storedPath t2 (groupPath g +:+ pth) = storedPath t0 (groupPath g +:+ pth))
    as Hsp by (apply storedPath_flag; congruence).
  rewrite <- Hsp, <- Hsame in Hreg2.
  pose proof (plain_storedPath t2 _ Hpl') as Hplp.
  pose proof (Handle_WF g' t2 verb pth' handler Hwf2 Hpl') as Hnf.
  destruct (Handle g' t2 verb pth' handler) as [t'|k|] eqn:Hh2.
  - apply Handle_Ok in Hh2 as (tm & Htm & Hadd).
    assert (WF 0 (root tm) /\ registered tm verb
              (snd (storedPath t2 (groupPath g' +:+ pth'))) a') as [Hwfm Hregm].
    { destruct Htm as [->|(u & Hu & HQ)]; [split; assumption|].
      pose proof (plain_unescapeSpecial _ (RequestURI_plain _ _ Hplp Hu)) as Hq.
      split.
      - apply (addOne_WF_Ok _ _ _ _ _ _ Hwf2 Hq HQ).
      - apply (addOne_preserves _ _ _ _ _ _ _ _ _ Hwf2 Hq Hreg2 HQ). }
    destruct (addOne_refuses tm verb (handlerWithMiddlewares handler (stack g'))
                (fst (storedPath t2 (groupPath g' +:+ pth'))) _ a' Hwfm Hplp Hregm)
      as (k & Hk & _).
    congruence.
  - exists k. reflexivity.
  - contradiction.
Qed.

Lemma Handle_full_path (g g' : Group) (t : TreeMux) (m p p' : string)
    (h h' : HandlerFunc) :
  checkPath p = checkPath p' ->
  groupPath g +:+ p = groupPath g' +:+ p' ->
  handlerWithMiddlewares h (stack g) = handlerWithMiddlewares h' (stack g') ->
  Handle g t m p h = Handle g' t m p' h'.
Proof.
  intros Hc Hp Hs. unfold Treemux.Handle. rewrite Hc, Hp.
  assert (forall (x : HandlerFunc) (s : list (MiddlewareFunc)),
            (if (0 <? length s)%nat then handlerWithMiddlewares x s else x)
            = handlerWithMiddlewares x s) as E by (intros x [|? ?]; reflexivity).
  rewrite !E, Hs. reflexivity.
Qed.

(** A middleware added with [Use] is the one next to the handler:
    registering a handler through the group after [Use fn] is registering
    [fn handler] through the group as it was before, so the middlewares
    added earlier run outside the ones added later. *)
Theorem Use_wraps_innermost (g : Group) (fn : MiddlewareFunc) (t : TreeMux)
    (m pth : string) (handler : HandlerFunc) :
  Handle (Use g fn) t m pth handler = Handle g t m pth (fn handler).
Proof.
  apply Handle_full_path; try reflexivity.
  unfold handlerWithMiddlewares, Use. cbn [stack]. now rewrite foldr_app.
Qed.

(** A sub-group only prefixes its patterns: when the path of the sub-group
    does not end in a slash, [NewGroup] returns a group with the same
    middlewares through which registering a pattern is registering the
    sub-group's path followed by the pattern through the parent. *)
Theorem NewGroup_prefixes (g : Group) (p q : string) :
  checkPath p = Ok tt -> checkPath q = Ok tt ->
  lastByte (groupPath g +:+ p) <> Some slash ->
  exists g', NewGroup g p = Ok g' /\ stack g' = stack g
    /\ forall t m handler,
         Handle g' t m q handler = Handle g t m (p +:+ q) handler.
Proof.
  intros Hp Hq Hl. unfold NewGroup, joinPath. rewrite Hp. cbn [bind].
  rewrite bool_decide_eq_false_2 by exact Hl. rewrite andb_false_r.
  cbn [bind]. eexists. split; [reflexivity|]. split; [reflexivity|].
  intros t m handler. apply Handle_full_path; cbn [groupPath stack].
  - rewrite Hq. destruct p as [|c p']; [exact (eq_sym Hq)|exact (eq_sym Hp)].
  - now rewrite append_assoc.
  - reflexivity.
Qed.

(** Malformed patterns are refused before the tree is touched: a pattern
    that is not empty and does not start with a slash makes [Handle] and
    [NewGroup] panic whatever the group and the router, and so does an
    empty pattern in a group whose path is empty. *)
Theorem malformed_patterns_refused (g : Group) (t : TreeMux) (m : string)
    (handler : HandlerFunc) :
  (forall c rest, c <> slash ->
     Handle g t m (String c rest) handler = Panic MustStartWithSlash
     /\ NewGroup g (String c rest) = Panic MustStartWithSlash)
  /\ (groupPath g = "" -> Handle g t m "" handler = Panic EmptyPathMapped).
Proof.
  split.
  - intros c rest Hc. apply ascii_eqb_false in Hc.
    unfold Treemux.Handle, NewGroup, joinPath, checkPath. now rewrite Hc.
  - intros Hg. unfold Treemux.Handle. now rewrite Hg.
Qed.

(** *** The order of the static children *)

(** The order of the static children is no part of the answer: where the
    static indices of a node are pairwise distinct, the node that
    [sortStaticChild] returns answers every request as the node before. *)
Theorem sort_keeps_answers (n n' : node) (i j : nat) :
  NoDup (staticIndices n) ->
  length (staticIndices n) = length (staticChild n) ->
  i < length (staticChild n) ->
  sortStaticChild n i = Ok (n', j) ->
  forall method pth, sameAnswer (search n' method pth) (search n method pth).
Proof.
  intros Hnd Hlen Hi Hsort method pth.
  destruct (sortStaticChild_spec n i Hi Hlen)
    as (si & sc & j0 & Hs & _ & _ & _ & Hlen' & Hperm).
  rewrite Hs in Hsort. injection Hsort as <- <-.
  destruct pth as [|c rest].
  - rewrite !search_nil. cbn. destruct (nodeHandlerMap n); cbn; [|done].
    repeat split; now destruct n.
  - assert (forall x, slotOf (setStatic n si sc) x = slotOf n x) as E.
    { apply slotOf_ext; try assumption.
      simpl. rewrite <- (fst_zip_same_length si sc Hlen'), Hperm.
      unfold statics. now rewrite fst_zip_same_length. }
    assert (forall (m : node) (f : node -> res result),
              length (staticIndices m) = length (staticChild m) ->
              withStaticChild c f (Panic IndexOutOfRange) (Ok noMatch)
                (staticChild m) (staticIndices m)
              = match slotOf m c with Some ch => f ch | None => Ok noMatch end)
      as W.
    { intros m f Hm. rewrite withStaticChild_indexOf, slotOf_indexOf.
      destruct (indexOf c (staticIndices m)) as [i'|] eqn:Ei; [|reflexivity].
      apply indexOf_Some in Ei as [Ei%lookup_lt_Some _].
      destruct (lookup_lt_is_Some_2 (staticChild m) i') as [ch ->]; [lia|].
      reflexivity. }
    rewrite !search_cons, !W, E; [|exact Hlen|exact Hlen'].
    apply (sameAnswer_bind_afterStatic (setStatic n si sc) n);
      [reflexivity..|apply sameAnswer_refl].
Qed.

(** *** What a wildcard captures *)


Lemma fmap_rev {A B} (f : A -> B) (l : list A) : f <$> rev l = rev (f <$> l).
Proof.
  induction l as [|x l IH]; [reflexivity|].
  simpl. now rewrite fmap_app, IH.
Qed.

Lemma Value_zip_with (names vals : list string) :
  length names = length vals -> Value <$> zip_with mkParam names vals = vals.
Proof.
  revert vals; induction names as [|x names IH]; intros [|v vals] Hl;
    try discriminate; [reflexivity|].
  simpl. f_equal. apply IH. now injection Hl.
Qed.

Lemma matches_captures (n l : node) (pth : string) (caps : list string) :
  matches n pth l caps ->
  forall i s, caps !! i = Some s ->
    s <> "" /\ (S i < length caps -> IndexByte s slash = None).
Proof.
  induction 1 as [n Hh|n i0 c child pth l caps _ _ _ _ _ IH
                  |n w pth l caps _ _ Hseg _ IH|n ca pth _ Hne]; intros i s Hi.
  - discriminate.
  - exact (IH i s Hi).
  - destruct i as [|i].
    + injection Hi as <-. split; [exact Hseg|]. intros _.
      unfold segmentOf.
      destruct (IndexByte pth slash) as [k|] eqn:Hk; simpl.
      * exact (IndexByte_take_self _ _ _ Hk).
      * rewrite str_take_all. exact Hk.
    + destruct (IH i s Hi) as [Hs Hl]. split; [exact Hs|].
      intros Hlt. apply Hl. simpl in Hlt. lia.
  - destruct i as [|i]; [|discriminate]. injection Hi as <-.
    split; [exact Hne|]. simpl. lia.
Qed.

(** On a router built by registrations, a match ends at its terminus
    along edges that captured pieces of the request path; the values of
    the parameters are these captures, decoded; no capture is empty, and
    every capture but the last on the way down, the one a catch-all may
    have made, holds no slash. *)
Theorem captures_are_segments (hg rts ear : bool) (rs : list registration)
    (t : TreeMux) (method pth : string) (r : result) (l : node) :
  registerAll (emptyMux hg rts ear) rs = Ok t ->
  search (root t) method pth = Ok r -> found r = Some l ->
  exists caps,
    matches (root t) pth l caps
    /\ Value <$> params r = rev (unescapeOrRaw <$> caps)
    /\ forall i s, caps !! i = Some s ->
         s <> "" /\ (S i < length caps -> IndexByte s slash = None).
Proof.
  intros Hreg Hs Hf.
  destruct (params_inner_to_outer_aux _ _ _ _ _ _ _ _ _ Hreg Hs Hf)
    as (caps & Hm & Hlen & Hp).
  exists caps. split; [exact Hm|]. split; [|exact (matches_captures _ _ _ _ Hm)].
  rewrite Hp, fmap_rev. f_equal. apply Value_zip_with.
  now rewrite length_fmap.
Qed.

(** *** Escaped patterns *)

Lemma replaceFrom_absent (old new s : string) (c : ascii) :
  (forall x, HasPrefix x old = true -> IndexByte x c <> None) ->
  IndexByte s c = None -> replaceFrom old new 0 s = s.
Proof.
  intros Hold. induction s as [|d s IH]; intros Hs; [reflexivity|].
  simpl. destruct (HasPrefix (String d s) old) eqn:E.
  { destruct (Hold _ E Hs). }
  f_equal. apply IH. unfold IndexByte in Hs; fold (IndexByte s c) in Hs.
  destruct (Ascii.eqb d c); [discriminate|].
  now destruct (IndexByte s c).
Qed.

(** A path without a percent sign has nothing to unescape:
    [unescapeSpecial] returns it as it is. *)
Theorem unescapeSpecial_without_percent (s : string) :
  IndexByte s "%"%char = None -> unescapeSpecial s = s.
Proof.
  intros Hs. unfold unescapeSpecial, Replace.
  assert (forall old new : string,
            (exists r, old = String "/" (String "%" r)) ->
            replaceFrom old new 0 s = s) as E.
  { intros old new [r ->]. apply (replaceFrom_absent _ _ _ "%"%char); [|exact Hs].
    intros x [rest ->]%HasPrefix_app. cbv [IndexByte append]. simpl.
    discriminate. }
  rewrite !E; eauto.
Qed.

End Properties.

(** ** The decoder does not decide a match *)

Section Decoders.

Context {H : Type}.
Variables D1 D2 : string -> option string.

Lemma sameMatch_refl (x : res (@result H)) : sameMatch x x.
Proof. destruct x as [r| |]; simpl; auto. Qed.

Lemma searchCatchAll_decoder (n : @node H) (method pth : string)
    (cur cur' : result) :
  sameMatch (Ok cur) (Ok cur') ->
  sameMatch (searchCatchAll D1 n method pth cur)
    (searchCatchAll D2 n method pth cur').
Proof.
  intros (Hf & Hh & Hp). unfold searchCatchAll.
  destruct (catchAllChild n) as [ca|]; [|simpl; auto].
  destruct (nodeHandlerMap ca) as [hm|]; [|reflexivity].
  rewrite Hf. destruct (_ || _).
  - destruct (paramName ca 0) as [name| |]; simpl; auto.
  - simpl. auto.
Qed.

Lemma afterStatic_decoder (n : @node H) (method pth : string) (st st' : result) :
  (forall w, wildcardChild n = Some w ->
     sameMatch (search D1 w method (afterSegment pth))
       (search D2 w method (afterSegment pth))) ->
  sameMatch (Ok st) (Ok st') ->
  sameMatch (afterStatic D1 n method pth st) (afterStatic D2 n method pth st').
Proof.
  intros IHw Hst. pose proof Hst as (Hf & Hh & Hp).
  unfold afterStatic. rewrite Hh.
  destruct (notNil (handler st')); [exact Hst|].
  destruct (wildcardChild n) as [w|]; [|now apply searchCatchAll_decoder].
  destruct (0 <? _)%nat; [|now apply searchCatchAll_decoder].
  specialize (IHw w eq_refl).
  destruct (search D1 w method (afterSegment pth)) as [wc| |],
           (search D2 w method (afterSegment pth)) as [wc'| |];
    simpl in IHw |- *; try contradiction; try assumption; try exact I.
  destruct IHw as (Hwf & Hwh & Hwp). rewrite Hf, Hwf, Hwh.
  assert (length (params wc) = length (params wc')) as Hlen.
  { rewrite <- (length_fmap Name (params wc)), Hwp. apply length_fmap. }
  destruct (_ || _); [|now apply searchCatchAll_decoder].
  destruct (found wc') as [wcNode|]; [|reflexivity].
  rewrite Hlen.
  destruct (paramName wcNode _) as [name| |]; simpl; try reflexivity.
  assert (Name <$> params wc ++ [mkParam name (unescapeOrRaw D1 (segmentOf pth))]
          = Name <$> params wc' ++ [mkParam name (unescapeOrRaw D2 (segmentOf pth))])
    as Hnames by (rewrite !fmap_app, Hwp; reflexivity).
  destruct (notNil (handler wc')).
  - simpl. auto.
  - apply searchCatchAll_decoder. simpl. auto.
Qed.

(** The matcher under two decoders: the same node and handler, the same
    parameter names. *)
Lemma search_decoder (n : @node H) :
  forall method pth,
    sameMatch (search D1 n method pth) (search D2 n method pth).
Proof.
  induction n as [rt p pr si sc wc cc sl ica hm ln IHs IHw _] using node_ind.
  intros method pth.
  change sc with (staticChild (mkNode rt p pr si sc wc cc sl ica hm ln)) in IHs.
  change wc with (wildcardChild (mkNode rt p pr si sc wc cc sl ica hm ln)) in IHw.
  remember (mkNode rt p pr si sc wc cc sl ica hm ln) as n eqn:En in *.
  clear En rt p pr si sc wc cc sl ica hm ln.
  destruct pth as [|c rest].
  - rewrite !search_nil. apply sameMatch_refl.
  - rewrite !search_cons, !withStaticChild_indexOf.
    assert (forall w, wildcardChild n = Some w ->
              sameMatch (search D1 w method (afterSegment (String c rest)))
                (search D2 w method (afterSegment (String c rest)))) as Hw.
    { intros w Hw. rewrite Hw in IHw. apply IHw. }
    destruct (indexOf c (staticIndices n)) as [i|].
    + destruct (staticChild n !! i) as [child|] eqn:Hch; [|reflexivity].
      destruct (_ && _).
      * pose proof (proj1 (Forall_lookup _ _) IHs i child Hch method
                      (str_drop (String.length (path child)) (String c rest)))
          as IH.
        destruct (search D1 child _ _) as [st| |], (search D2 child _ _) as [st'| |];
          simpl in IH |- *; try contradiction; try assumption; try exact I.
        now apply afterStatic_decoder.
      * cbn [bind]. apply afterStatic_decoder; [exact Hw|simpl; auto].
    + cbn [bind]. apply afterStatic_decoder; [exact Hw|simpl; auto].
Qed.

End Decoders.
(** C9: on a router built by registrations, the values of the parameters
    of a match are its captures, from the innermost to the outermost, each
    one decoded, or as it was captured when the decoder fails on it; and
    under any other decoder the matcher returns the same node and handler
    with the same parameter names: what the decoder does to a capture
    decides no match. *)
Theorem decode_failure_keeps_match {H : Type}
    (PathUnescape RequestURIString : string -> option string)
    (hg rts ear : bool) (rs : list (@registration H)) (t : TreeMux)
    (method pth : string) (r : result) (l : node) :
  registerAll RequestURIString (emptyMux hg rts ear) rs = Ok t ->
  search PathUnescape (root t) method pth = Ok r -> found r = Some l ->
  (exists caps, matches (root t) pth l caps
     /\ Value <$> params r
        = rev ((fun s => match PathUnescape s with
                         | Some u => u
                         | None => s
                         end) <$> caps))
  /\ forall D : string -> option string,
       exists r', search D (root t) method pth = Ok r'
         /\ found r' = Some l /\ handler r' = handler r
         /\ Name <$> params r' = Name <$> params r.
Proof.
  intros Hreg Hs Hf. split.
  - destruct (params_inner_to_outer_aux PathUnescape RequestURIString _ _ _ _ _ _ _ _ _
                Hreg Hs Hf) as (caps & Hm & Hlen & Hp).
    exists caps. split; [exact Hm|].
    rewrite Hp, fmap_rev. f_equal. apply Value_zip_with.
    now rewrite length_fmap.
  - intros D. pose proof (search_decoder D PathUnescape (root t) method pth) as Hd.
    rewrite Hs in Hd.
    destruct (search D (root t) method pth) as [r'| |]; simpl in Hd;
      try contradiction.
    destruct Hd as (Hf' & Hh' & Hn'). exists r'.
    split; [reflexivity|]. split; [congruence|]. split; assumption.
Qed.

(** ** The theorems at work on concrete routers *)

Lemma plainRequestURI_plain (s u : string) :
  plain s = true -> plainRequestURI s = Some u -> plain u = true.
Proof. intros Hs [= <-]. exact Hs. Qed.

(** Proves the first conjunct of the goal by computation, keeps it as [Hn]. *)
Ltac compute_first Hn :=
  match goal with
  | |- ?A /\ _ => assert A as Hn by (vm_compute; reflexivity); split; [exact Hn|]
  end.

(** Proves that every pattern of a list of registrations is ASCII. *)
Ltac plain_routes := repeat (constructor; [reflexivity|]); constructor.

Lemma params_inner_to_outer_witness :
  exists t r l,
    exampleMux [exampleRoute "GET" "/:year/:month" 1] = Ok t
    /\ search percentDecode (root t) "GET" "2014/05" = Ok r
    /\ found r = Some l
    /\ patternNames (route l) = ["year"; "month"]
    /\ exists caps, matches (root t) "2014/05" l caps
         /\ route l <> ""
         /\ names_of l = patternNames (route l)
         /\ length (names_of l) = length caps
         /\ params r = rev (zip_with mkParam (names_of l)
                              (unescapeOrRaw percentDecode <$> caps)).
Proof.
  do 3 eexists. compute_first Ht. compute_first Hs. compute_first Hf.
  split; [reflexivity|].
  exact (params_inner_to_outer percentDecode plainRequestURI true true false
           _ _ _ _ _ _ Ht Hs Hf).
Defined.

(** The claim as stated fails: with [/:year/:month] registered, the match
    of [/2014/05] captures [2014] nearest the root, and the parameter list
    starts with [month]; it is not the list of names and captures in
    outer-to-inner order. *)
Lemma params_outer_to_inner_counterexample :
  exists t r l caps,
    exampleMux [exampleRoute "GET" "/:year/:month" 1] = Ok t
    /\ lookup percentDecode t "GET" "/2014/05" = Ok r
    /\ found r = Some l
    /\ matches (root t) "2014/05" l caps
    /\ caps = ["2014"; "05"]
    /\ names_of l = ["year"; "month"]
    /\ params r = [mkParam "month" "05"; mkParam "year" "2014"]
    /\ params r <> zip_with mkParam (names_of l)
                     (unescapeOrRaw percentDecode <$> caps).
Proof.
  do 4 eexists. split; [vm_compute; reflexivity|].
  split; [vm_compute; reflexivity|]. split; [reflexivity|].
  split.
  { eapply matches_wildcard; [reflexivity|discriminate|vm_compute; discriminate|].
    eapply (matches_static _ 0); [vm_compute; reflexivity|reflexivity|reflexivity
                                 |vm_compute; reflexivity|].
    vm_compute.
    eapply matches_wildcard; [reflexivity|discriminate|vm_compute; discriminate|].
    vm_compute. apply matches_here. discriminate. }
  split; [vm_compute; reflexivity|]. split; [reflexivity|].
  split; [reflexivity|]. vm_compute. discriminate.
Qed.

Lemma static_wins_over_wildcard_witness :
  exists t la lb,
    exampleMux [exampleRoute "GET" "/:page" 1;
                exampleRoute "GET" "/favicon.ico" 2] = Ok t
    /\ lookup percentDecode t "GET" "/favicon.ico"
       = Ok (mkResult (Some lb) (Some 2) [])
    /\ lookup percentDecode t "GET" "/other"
       = Ok (mkResult (Some la) (Some 1) [mkParam "page" "other"]).
Proof.
  exact (proj1 (static_wins_over_wildcard percentDecode plainRequestURI)
           1 2 true true _ eq_refl (or_introl eq_refl)).
Defined.

(** C3 (the code where the claim fails): [/é1] is registered for GET with
    handler 1, then [/è2] with handler 2, both literal patterns.  The
    second registration splits the segment [é1] by the loop over its UTF-8
    sequences, which compares first bytes only: the tree then spells the
    first route [è1].  A GET of [/é1] finds no node, and a GET of [/è1],
    which nobody registered, is answered by handler 1. *)
Theorem literal_round_trip_lost :
  literal ("/" +:+ eAcute +:+ "1") = true
  /\ literal ("/" +:+ eGrave +:+ "2") = true
  /\ exists t,
       exampleMux [exampleRoute "GET" ("/" +:+ eAcute +:+ "1") 1;
                   exampleRoute "GET" ("/" +:+ eGrave +:+ "2") 2] = Ok t
       /\ lookup percentDecode t "GET" ("/" +:+ eAcute +:+ "1") = Ok noMatch
       /\ exists l,
            lookup percentDecode t "GET" ("/" +:+ eGrave +:+ "1")
            = Ok (mkResult (Some l) (Some 1) [])
            /\ route l = "/" +:+ eAcute +:+ "1".
Proof.
  split; [reflexivity|]. split; [reflexivity|].
  eexists. split; [vm_compute; reflexivity|].
  split; [vm_compute; reflexivity|].
  eexists. split; [vm_compute; reflexivity|reflexivity].
Qed.

(** C4 (the code where the claim fails): [/é1] and [/è2] are registered
    for GET.  A POST of [/é1], a path registered for another verb, finds no
    node, as for a path nobody registered; a POST of [/è1], a path nobody
    registered, finds a node without a handler, as for a path registered
    for another verb: it is the node of the route [/é1]. *)
Theorem registered_path_not_found :
  exists t,
    exampleMux [exampleRoute "GET" ("/" +:+ eAcute +:+ "1") 1;
                exampleRoute "GET" ("/" +:+ eGrave +:+ "2") 2] = Ok t
    /\ lookup percentDecode t "POST" ("/" +:+ eAcute +:+ "1") = Ok noMatch
    /\ exists l,
         lookup percentDecode t "POST" ("/" +:+ eGrave +:+ "1")
         = Ok (mkResult (Some l) None [])
         /\ route l = "/" +:+ eAcute +:+ "1".
Proof.
  eexists. split; [vm_compute; reflexivity|].
  split; [vm_compute; reflexivity|].
  eexists. split; [vm_compute; reflexivity|reflexivity].
Qed.

(** C5 (the code where the claim fails): on the router with
    [HeadCanUseGet], [/é1] is registered for GET only, then [/è2] for GET.
    A HEAD of [/é1] finds no node, and registering HEAD at [/é1] does not
    return: the insertion uses up the depth that suffices for every
    insertion that ends. *)
Theorem implicit_head_lost :
  exists t,
    exampleMux [exampleRoute "GET" ("/" +:+ eAcute +:+ "1") 1;
                exampleRoute "GET" ("/" +:+ eGrave +:+ "2") 2] = Ok t
    /\ HeadCanUseGet t = true
    /\ lookup percentDecode t "HEAD" ("/" +:+ eAcute +:+ "1") = Ok noMatch
    /\ Handle plainRequestURI exampleGroup t "HEAD" ("/" +:+ eAcute +:+ "1")
         (Some 3) = OutOfFuel.
Proof.
  eexists. split; [vm_compute; reflexivity|].
  split; [reflexivity|]. split; vm_compute; reflexivity.
Qed.

(** C6 (the code where the claim fails): GET is registered at [/é1] twice.
    With the pattern [/] followed by the bytes C3 41 32 registered in
    between, the second registration is accepted and a GET of [/é1] is
    answered by the second handler; with [/è2] registered in between, the
    second registration does not return.  Neither raises a conflict. *)
Theorem duplicate_registration_accepted :
  (exists t l,
     exampleMux [exampleRoute "GET" ("/" +:+ eAcute +:+ "1") 1;
                 exampleRoute "GET" ("/" +:+ loneLead) 2;
                 exampleRoute "GET" ("/" +:+ eAcute +:+ "1") 3] = Ok t
     /\ lookup percentDecode t "GET" ("/" +:+ eAcute +:+ "1")
        = Ok (mkResult (Some l) (Some 3) []))
  /\ exists t,
       exampleMux [exampleRoute "GET" ("/" +:+ eAcute +:+ "1") 1;
                   exampleRoute "GET" ("/" +:+ eGrave +:+ "2") 2] = Ok t
       /\ Handle plainRequestURI exampleGroup t "GET" ("/" +:+ eAcute +:+ "1")
            (Some 3) = OutOfFuel.
Proof.
  split.
  - do 2 eexists. split; [vm_compute; reflexivity|]. vm_compute. reflexivity.
  - eexists. split; [vm_compute; reflexivity|]. vm_compute. reflexivity.
Qed.

Lemma not_found_or_not_allowed_witness :
  exists t, exampleMux [exampleRoute "GET" "/widgets" 1] = Ok t
    /\ exists r, search percentDecode (root t) "POST" "widgets" = Ok r
         /\ (found r = None <-> forall l caps, ~ matches (root t) "widgets" l caps)
         /\ (handler r = None <->
             forall l caps, matches (root t) "widgets" l caps ->
                            handlerOf l "POST" = None)
         /\ (forall l, found r = Some l ->
               nodeHandlerMap l <> None
               /\ handler r = handlerOf l "POST"
               /\ exists caps, matches (root t) "widgets" l caps).
Proof.
  eexists. compute_first Ht.
  exact (not_found_or_not_allowed percentDecode plainRequestURI true true false
           _ _ "POST" "widgets" Ht).
Defined.

Lemma implicit_head_witness :
  exists t1, Handle plainRequestURI exampleGroup (emptyMux true true false)
               "GET" "/x" (Some 1) = Ok t1
    /\ (exists l, lookup percentDecode t1 "GET" "/x"
                  = Ok (mkResult (Some l) (Some 1) [])
             /\ lookup percentDecode t1 "HEAD" "/x"
                = Ok (mkResult (Some l) (Some 1) []))
    /\ forall b b' : nat, Some b = Some b' ->
         exists t2 l2,
           Handle plainRequestURI exampleGroup t1 "HEAD" "/x" (Some b) = Ok t2
           /\ lookup percentDecode t2 "HEAD" "/x"
              = Ok (mkResult (Some l2) (Some b') [])
           /\ lookup percentDecode t2 "GET" "/x"
              = Ok (mkResult (Some l2) (Some 1) []).
Proof.
  eexists. compute_first Ht1.
  refine (implicit_head percentDecode plainRequestURI plainRequestURI_plain true []
            exampleGroup "/x" 1 1 (emptyMux true true false) _
            (Forall_nil_2 _) eq_refl eq_refl eq_refl _ Ht1 eq_refl).
  intros r Hr. vm_compute in Hr. injection Hr as <-. reflexivity.
Defined.

Lemma duplicate_registration_panics_witness :
  exists t1 t2,
    Handle plainRequestURI exampleGroup (emptyMux true true false)
      "GET" "/x" (Some 1) = Ok t1
    /\ registerAll plainRequestURI t1 [exampleRoute "POST" "/y" 2] = Ok t2
    /\ exists k, Handle plainRequestURI exampleGroup t2 "GET" "/x" (Some 3)
                 = Panic k
         /\ (false = false -> literal "/x" = true -> k = AlreadyHandles).
Proof.
  do 2 eexists. compute_first Ht1. compute_first Ht2.
  refine (duplicate_registration_panics plainRequestURI plainRequestURI_plain
            true true false [] [exampleRoute "POST" "/y" 2] exampleGroup
            "GET" "/x" 1 1 (emptyMux true true false) _ _ (Some 3)
            (Forall_nil_2 _) _ eq_refl eq_refl Ht1 eq_refl Ht2).
  plain_routes.
Defined.

Lemma catchAll_insertion_fails_witness :
  addPath 1 (fun l : @node nat => Ok l)
    (setCatchAllChild (newNode "/") (Some (newNode "path")))
    "*file" None false = Panic CatchAllNameMismatch
  /\ (addPath 1 (fun l : @node nat => Ok l) (newNode "/") "*path/x" None false
      = Panic CatchAllNameMismatch
      \/ addPath 1 (fun l : @node nat => Ok l) (newNode "/") "*path/x" None false
         = Panic SlashAfterCatchAll).
Proof.
  split.
  - apply (proj1 (catchAll_insertion_fails 0 (fun l : @node nat => Ok l)
                    (setCatchAllChild (newNode "/") (Some (newNode "path")))
                    "file" None) (newNode "path")); [reflexivity|discriminate].
  - apply (proj2 (catchAll_insertion_fails 0 (fun l : @node nat => Ok l)
                    (newNode "/") "path/x" None)). vm_compute. discriminate.
Defined.

(** C8 (the code where the claim fails): with [/é1] registered for GET,
    splitting the segment [é1] of the root's child for the token [è2], as
    the registration of [/è2] does, returns the intermediary segment [è]
    and two bytes consumed, although the two strings share one byte only;
    before the split the matcher finds the route at [é1], after it it
    finds nothing there: the subtree inserted before is not reachable any
    more.  The static indices stay distinct. *)
Theorem split_loses_subtree :
  exists t1 m1 mid,
    exampleMux [exampleRoute "GET" ("/" +:+ eAcute +:+ "1") 1] = Ok t1
    /\ splitCommonPrefix (root t1) 0 (eGrave +:+ "2") = Ok (m1, mid, 2)
    /\ path mid = eGrave
    /\ commonBytes (eAcute +:+ "1") (eGrave +:+ "2") 0 = 1
    /\ (exists l, search percentDecode (root t1) "GET" (eAcute +:+ "1")
                  = Ok (mkResult (Some l) (Some 1) []))
    /\ search percentDecode m1 "GET" (eAcute +:+ "1") = Ok noMatch
    /\ NoDup (staticIndices m1) /\ NoDup (staticIndices mid).
Proof.
  do 3 eexists. split; [vm_compute; reflexivity|].
  split; [vm_compute; reflexivity|]. split; [reflexivity|].
  split; [reflexivity|].
  split; [eexists; vm_compute; reflexivity|].
  split; [vm_compute; reflexivity|].
  split; apply NoDup_singleton.
Qed.

Lemma decode_failure_keeps_match_witness :
  exists t r l,
    exampleMux [exampleRoute "GET" "/files/:name" 1] = Ok t
    /\ search percentDecode (root t) "GET" "files/100%" = Ok r
    /\ found r = Some l
    /\ params r = [mkParam "name" "100%"]
    /\ (exists caps, matches (root t) "files/100%" l caps
          /\ Value <$> params r
             = rev ((fun s => match percentDecode s with
                              | Some u => u
                              | None => s
                              end) <$> caps))
    /\ forall D : string -> option string,
         exists r', search D (root t) "GET" "files/100%" = Ok r'
           /\ found r' = Some l /\ handler r' = handler r
           /\ Name <$> params r' = Name <$> params r.
Proof.
  do 3 eexists. compute_first Ht. compute_first Hs. compute_first Hf.
  split; [reflexivity|].
  exact (decode_failure_keeps_match percentDecode plainRequestURI true true false
           _ _ _ _ _ _ Ht Hs Hf).
Defined.

(** ** The further properties at work *)

(** Proves the first conjunct of the goal with [tac], keeps it as [Hn]. *)
Ltac settle_first Hn tac :=
  match goal with
  | |- ?A /\ _ => assert A as Hn by tac; split; [exact Hn|]
  end.

Lemma literal_round_trip_witness :
  exists t,
    registerAll plainRequestURI (emptyMux true true false)
      ([exampleRoute "GET" "/app" 1]
       ++ mkRegistration exampleGroup "GET" "/apple/" (Some 2)
       :: [exampleRoute "POST" "/apple" 3]) = Ok t
    /\ exists l, lookup percentDecode t "GET" (groupPath exampleGroup +:+ "/apple/")
                 = Ok (mkResult (Some l) (Some 2) [])
         /\ route l = snd (storedPath t (groupPath exampleGroup +:+ "/apple/")).
Proof.
  eexists. compute_first Ht.
  refine (literal_round_trip percentDecode plainRequestURI plainRequestURI_plain
            true true false
            [exampleRoute "GET" "/app" 1] [exampleRoute "POST" "/apple" 3]
            exampleGroup "GET" "/apple/" 2 2 _ Ht _ eq_refl eq_refl).
  plain_routes.
Defined.

Lemma distinct_leading_bytes_witness :
  exists t, exampleMux [exampleRoute "GET" "/app" 1;
                        exampleRoute "GET" "/apple" 2;
                        exampleRoute "GET" "/bar" 3] = Ok t
    /\ (forall m, below (root t) m -> distinctLeading m)
    /\ exists m1 child ps,
         splitCommonPrefix (root t) 0 "art" = Ok (m1, child, ps)
         /\ staticIndices m1 = staticIndices (root t)
         /\ staticChild m1 !! 0 = Some child
         /\ firstByte (path child) = Some "a"%char
         /\ (forall x, below m1 x -> distinctLeading x)
         /\ forall method pth,
              sameAnswer (search percentDecode m1 method pth)
                (search percentDecode (root t) method pth).
Proof.
  eexists. compute_first Ht.
  assert (Forall plainRoute [exampleRoute "GET" "/app" 1;
                             exampleRoute "GET" "/apple" 2;
                             exampleRoute "GET" "/bar" 3]) as Hpl by plain_routes.
  pose proof (distinct_leading_bytes percentDecode plainRequestURI
                plainRequestURI_plain true true false _ _ Ht Hpl)
    as [Hall Hsplit].
  split.
  - destruct (Hall [exampleRoute "GET" "/app" 1; exampleRoute "GET" "/apple" 2;
                    exampleRoute "GET" "/bar" 3] [] eq_refl) as (t' & Ht' & Hd).
    vm_compute in Ht'. injection Ht' as <-. exact Hd.
  - apply (Hsplit _ 0 "a"%char "art");
      [apply below_here|reflexivity|reflexivity|reflexivity].
Defined.

Lemma sortStaticChild_restores_order_witness :
  exists n' j,
    sortStaticChild exampleNode 1 = Ok (n', j)
    /\ byPriority (staticChild n')
    /\ j <= 1
    /\ staticChild n' !! j = staticChild exampleNode !! 1
    /\ staticIndices n' !! j = staticIndices exampleNode !! 1
    /\ zip (staticIndices n') (staticChild n')
       ≡ₚ zip (staticIndices exampleNode) (staticChild exampleNode)
    /\ n' = setStatic exampleNode (staticIndices n') (staticChild n').
Proof.
  apply (sortStaticChild_restores_order exampleNode 1).
  - simpl. lia.
  - reflexivity.
  - intros a b ca cb Hab Hb Ha Hcb.
    destruct b as [|[|b]]; [lia|congruence|discriminate].
Defined.

Lemma registration_returns_witness :
  (exists t, registerAll plainRequestURI (emptyMux true true false)
               [exampleRoute "GET" "/a/:id" 1; exampleRoute "GET" "/a/:name" 2]
             = Ok t)
  \/ (exists k, registerAll plainRequestURI (emptyMux true true false)
                  [exampleRoute "GET" "/a/:id" 1; exampleRoute "GET" "/a/:name" 2]
                = Panic k).
Proof.
  apply (registration_returns plainRequestURI plainRequestURI_plain).
  plain_routes.
Defined.

Lemma segments_within_token_witness :
  exists t c,
    exampleMux [exampleRoute "GET" "/app/one" 1;
                exampleRoute "GET" "/apple" 2] = Ok t
    /\ c ∈ staticChild (root t)
    /\ path c <> ""
    /\ (path c = "/" \/ IndexByte (path c) slash = None).
Proof.
  do 2 eexists. compute_first Ht.
  settle_first Hc ltac:(apply (list_elem_of_lookup_2 _ 0); vm_compute; reflexivity).
  refine (segments_within_token plainRequestURI plainRequestURI_plain
            true true false _ _ _ _ Ht _ (below_here _) Hc).
  plain_routes.
Defined.

Lemma catchAll_children_are_leaves_witness :
  exists t ca,
    exampleMux [exampleRoute "GET" "/*path" 1] = Ok t
    /\ catchAllChild (root t) = Some ca
    /\ nodeHandlerMap ca <> None /\ childless ca /\ names_of ca <> [].
Proof.
  do 2 eexists. compute_first Ht.
  settle_first Hc ltac:(vm_compute; reflexivity).
  exact (catchAll_children_are_leaves plainRequestURI true true false
           _ _ _ _ Ht (below_here _) Hc).
Defined.

Lemma addPath_never_returns_witness :
  addPath 1000 Ok exampleRuneNode
    (String (ascii_of_nat 195) (String (ascii_of_nat 168) ""))
    None false = OutOfFuel.
Proof.
  apply (addPath_never_returns 1000 Ok exampleRuneNode 0 (newNode eAcute)).
  - reflexivity.
  - reflexivity.
  - reflexivity.
  - reflexivity.
  - simpl. lia.
  - reflexivity.
  - reflexivity.
Defined.

Lemma same_stored_path_conflicts_witness :
  exists t1 t2,
    Handle plainRequestURI exampleGroup (emptyMux true true false)
      "GET" "/posts" (Some 1) = Ok t1
    /\ registerAll plainRequestURI t1 [exampleRoute "POST" "/y" 2] = Ok t2
    /\ exists k, Handle plainRequestURI exampleGroup t2 "GET" "/posts/" (Some 3)
                 = Panic k.
Proof.
  do 2 eexists. compute_first Ht1. compute_first Ht2.
  refine (same_stored_path_conflicts plainRequestURI plainRequestURI_plain
            true true false [] [exampleRoute "POST" "/y" 2]
            exampleGroup exampleGroup "GET" "/posts" "/posts/" 1 1
            (emptyMux true true false) _ _ (Some 3)
            (Forall_nil_2 _) _ eq_refl eq_refl eq_refl Ht1 eq_refl Ht2 _).
  - plain_routes.
  - vm_compute. reflexivity.
Defined.

Lemma NewGroup_prefixes_witness :
  exists g',
    NewGroup (mkGroup "/api" [] : @Group nat) "/v1" = Ok g'
    /\ stack g' = stack (mkGroup "/api" [] : @Group nat)
    /\ forall t m handler,
         Handle plainRequestURI g' t m "/users" handler
         = Handle plainRequestURI (mkGroup "/api" []) t m ("/v1" +:+ "/users")
             handler.
Proof.
  apply (NewGroup_prefixes plainRequestURI (mkGroup "/api" []) "/v1" "/users").
  - reflexivity.
  - reflexivity.
  - simpl. discriminate.
Defined.

Lemma malformed_patterns_refused_witness :
  (Handle plainRequestURI exampleGroup (emptyMux true true false)
     "GET" "users" (Some 1) = Panic MustStartWithSlash
   /\ NewGroup exampleGroup "users" = Panic MustStartWithSlash)
  /\ Handle plainRequestURI exampleGroup (emptyMux true true false)
       "GET" "" (Some 1) = Panic EmptyPathMapped.
Proof.
  destruct (malformed_patterns_refused plainRequestURI exampleGroup
              (emptyMux true true false) "GET" (Some 1)) as [Hs He].
  split.
  - apply (Hs "u"%char "sers"). discriminate.
  - apply He. reflexivity.
Defined.

Lemma sort_keeps_answers_witness :
  exists n' j,
    sortStaticChild exampleNode 1 = Ok (n', j)
    /\ forall method pth,
         sameAnswer (search percentDecode n' method pth)
           (search percentDecode exampleNode method pth).
Proof.
  do 2 eexists. compute_first Hs.
  refine (sort_keeps_answers percentDecode exampleNode _ 1 _ _ eq_refl _ Hs).
  - apply (bool_decide_unpack (NoDup (staticIndices exampleNode))).
    vm_compute. exact I.
  - simpl. lia.
Defined.

Lemma captures_are_segments_witness :
  exists t r l,
    exampleMux [exampleRoute "GET" "/:year/*rest" 1] = Ok t
    /\ search percentDecode (root t) "GET" "2014/05/post" = Ok r
    /\ found r = Some l
    /\ exists caps,
         matches (root t) "2014/05/post" l caps
         /\ Value <$> params r = rev (unescapeOrRaw percentDecode <$> caps)
         /\ forall i s, caps !! i = Some s ->
              s <> "" /\ (S i < length caps -> IndexByte s slash = None).
Proof.
  do 3 eexists. compute_first Ht. compute_first Hs. compute_first Hf.
  exact (captures_are_segments percentDecode plainRequestURI true true false
           _ _ _ _ _ _ Ht Hs Hf).
Defined.

Lemma unescapeSpecial_without_percent_witness :
  unescapeSpecial "/files/*path" = "/files/*path".
Proof.
  apply unescapeSpecial_without_percent. reflexivity.
Defined.

Lemma Uint64_reads_decimal_witness :
  ParamsUint64 [mkParam "id" "42"] "id"
  = (if (42 <=? maxUint64)%N then inr 42%N else inl ErrRange)
  /\ ParamsUint64 [mkParam "id" "42"] "page" = inl ErrSyntax.
Proof.
  split.
  - apply (proj1 (Uint64_reads_decimal [mkParam "id" "42"] "id")). reflexivity.
  - apply (proj1 (proj2 (Uint64_reads_decimal [mkParam "id" "42"] "page"))).
    reflexivity.
Defined.

Lemma Map_last_of_name_witness :
  exists m,
    ParamsMap [mkParam "a" "1"; mkParam "a" "2"] = Some m
    /\ m !! "a"
       = Value <$> last (filter (fun p => Name p = "a")
                           [mkParam "a" "1"; mkParam "a" "2"]).
Proof.
  eexists. settle_first Hm ltac:(reflexivity).
  exact (proj1 (proj2 (Map_last_of_name [mkParam "a" "1"; mkParam "a" "2"])
                  _ "a" Hm)).
Defined.
